(** * mcp-video-processing-service: job store, command builder and pipelines

    A shallow embedding of the Python sources
    [job_models.py], [job_store.py], [ffmpeg/command_builder.py],
    [ffmpeg/runner.py], [ffmpeg/probe.py], [tasks.py] and [api/routes.py],
    followed by the properties of the design document that concern them
    and by further properties of the code.

    Conventions.
    - A Python [dict] used as a map is a [gmap]; [{**a, **b}] is the
      left-biased union [b ∪ a].
    - [Optional[T]] is [option T]; [None] is [None].
    - A call that may raise returns a [Result]; [Raise e] is the exception.
    - Timestamps ([datetime]) are integers read from a clock. *)

From stdpp Require Import gmap strings list fin_maps pretty.
From Stdlib Require Import ZArith Lia Ascii String.

Open Scope Z_scope.

(* ===================================================================== *)
(** * Python values shared by all modules                                 *)
(* ===================================================================== *)

Module PyCore.

(** Exceptions. [FFmpegExecutionError] is the class of [ffmpeg/runner.py];
    every other exception class is carried by name. *)
Inductive exn : Type :=
| FFmpegExecutionError (command : list string) (stderr : string)
| Exception (cls : string) (msg : string).

Inductive Result (A : Type) : Type :=
| Ok (a : A)
| Raise (e : exn).
Arguments Ok {A} a.
Arguments Raise {A} e.

Definition is_ok {A} (r : Result A) : bool :=
  match r with Ok _ => true | Raise _ => false end.

(** [str(n)] for an [int]. *)
Definition str_int (n : Z) : string := pretty n.

(** A [float] that enters the program as data (never computed on) is named
    by the shortest decimal numeral that Python's [repr] prints for it:
    [FDec neg d e] is [(-1)^neg * d * 10^e]. *)
Inductive PyFloat : Type :=
| FDec (neg : bool) (digits : N) (exp10 : Z)
| FInf (neg : bool)
| FNan.

(** ** Strings *)

(** [sep.join(parts)]. *)
Definition join (sep : string) (parts : list string) : string :=
  String.concat sep parts.

(** [s.endswith(suffix)]. *)
Fixpoint endswith (s suffix : string) : bool :=
  String.eqb s suffix
  || match s with
     | EmptyString => false
     | String _ rest => endswith rest suffix
     end.

(** The one-character string [\n]. *)
Definition newline : string := String "010" "".


(** [needle in s]. *)
Fixpoint contains (needle s : string) : bool :=
  String.prefix needle s
  || match s with
     | EmptyString => false
     | String _ rest => contains needle rest
     end.

(** [s.split(sep)] for a one-character separator. *)
Fixpoint split_on (sep : Ascii.ascii) (s : string) : list string :=
  match s with
  | EmptyString => [EmptyString]
  | String c rest =>
      if Ascii.eqb c sep then EmptyString :: split_on sep rest
      else match split_on sep rest with
           | [] => [String c EmptyString]
           | piece :: pieces => String c piece :: pieces
           end
  end.

(** [s.rfind('.')]: the index of the last dot, if any. *)
Fixpoint rfind_dot (s : string) : option nat :=
  match s with
  | EmptyString => None
  | String c rest =>
      match rfind_dot rest with
      | Some i => Some (S i)
      | None => if Ascii.eqb c "." then Some O else None
      end
  end.


Fixpoint zeros (n : nat) : string :=
  match n with O => EmptyString | S k => String "0" (zeros k) end.

(** [f"{n:0{width}d}"] for [n >= 0]. *)
Definition fmt_0d (width : nat) (n : Z) : string :=
  let ds := str_int n in
  zeros (width - String.length ds) +:+ ds.

(** ** Floats that are data *)

(** [bool(x)]: zero is false, everything else (NaN included) is true. *)
Definition float_truthy (x : PyFloat) : bool :=
  match x with
  | FDec _ 0%N _ => false
  | _ => true
  end.

(** [x < 1.0]. *)
Definition float_lt_one (x : PyFloat) : bool :=
  match x with
  | FDec true _ _ => true
  | FDec false d e =>
      if 0 <=? e then N.eqb d 0 else Z.of_N d <? 10 ^ (- e)
  | FInf neg => neg
  | FNan => false
  end.

(** [x <= 1.0], [x >= 0.0] and [x > 0.0]; every comparison with NaN is
    false. *)
Definition float_le_one (x : PyFloat) : bool :=
  match x with
  | FDec true _ _ => true
  | FDec false d e =>
      if 0 <=? e then N.eqb d 0 || (N.eqb d 1 && (e =? 0))
      else Z.of_N d <=? 10 ^ (- e)
  | FInf neg => neg
  | FNan => false
  end.

Definition float_ge_zero (x : PyFloat) : bool :=
  match x with
  | FDec neg d _ => negb neg || N.eqb d 0
  | FInf neg => negb neg
  | FNan => false
  end.

Definition float_gt_zero (x : PyFloat) : bool :=
  match x with
  | FDec neg d _ => negb neg && negb (N.eqb d 0)
  | FInf neg => negb neg
  | FNan => false
  end.

(** [repr(x)], which is what [f"{x}"] prints: fixed notation while the
    decimal point sits in [(-4, 16]], exponent notation otherwise.
    [digits] is expected without trailing zeros. *)
Definition float_repr (x : PyFloat) : string :=
  match x with
  | FNan => "nan"
  | FInf neg => if neg then "-inf" else "inf"
  | FDec neg d e =>
      let sign := if neg then "-" else "" in
      if N.eqb d 0 then sign +:+ "0.0"
      else
        let ds := pretty d in
        let n := Z.of_nat (String.length ds) in
        let decpt := n + e in
        if (-4 <? decpt) && (decpt <=? 16) then
          if decpt <=? 0 then
            sign +:+ "0." +:+ zeros (Z.to_nat (- decpt)) +:+ ds
          else if n <=? decpt then
            sign +:+ ds +:+ zeros (Z.to_nat (decpt - n)) +:+ ".0"
          else
            sign +:+ String.substring 0 (Z.to_nat decpt) ds +:+ "."
                 +:+ String.substring (Z.to_nat decpt) (Z.to_nat (n - decpt)) ds
        else
          let x10 := decpt - 1 in
          let frac := String.substring 1 (Z.to_nat (n - 1)) ds in
          sign +:+ String.substring 0 1 ds
               +:+ (if String.eqb frac "" then "" else "." +:+ frac)
               +:+ "e" +:+ (if x10 <? 0 then "-" else "+")
               +:+ fmt_0d 2 (Z.abs x10)
      end.

(** ** Floats that are computed: [int / int] and [f"{x:.3f}"] *)

(** The nearest integer to [p / q], ties to the even one ([0 <= p], [0 < q]). *)
Definition round_half_even (p q : Z) : Z :=
  let d := p / q in
  match 2 * (p mod q) ?= q with
  | Lt => d
  | Gt => d + 1
  | Eq => if Z.even d then d else d + 1
  end.

(** A finite binary64 value [(-1)^neg * m * 2^e]. *)
Record Double : Type := { d_neg : bool; d_m : Z; d_e : Z }.

(** The binary64 number nearest to [p / q] for [0 < p], [0 < q]: a
    53-bit significand (fewer below the normal range), round-half-even. *)
Definition nearest_double (p q : Z) : Z * Z :=
  let e0 := Z.log2 p - Z.log2 q - 52 in
  let e1 := if (p * 2 ^ Z.max 0 (- e0)) / (q * 2 ^ Z.max 0 e0) <? 2 ^ 52
            then e0 - 1 else e0 in
  let e := Z.max e1 (-1074) in
  (round_half_even (p * 2 ^ Z.max 0 (- e)) (q * 2 ^ Z.max 0 e), e).

(** [a / b] on two [int]s: the correctly rounded quotient;
    [ZeroDivisionError] for [b = 0], [OverflowError] past the largest
    double. *)
Definition int_truediv (a b : Z) : Result Double :=
  if b =? 0 then Raise (Exception "ZeroDivisionError" "division by zero")
  else if a =? 0 then Ok {| d_neg := false; d_m := 0; d_e := 0 |}
  else
    let '(m, e) := nearest_double (Z.abs a) (Z.abs b) in
    if (0 <=? e) && (2 ^ 1024 <=? m * 2 ^ e)
    then Raise (Exception "OverflowError"
                  "integer division result too large for a float")
    else Ok {| d_neg := xorb (a <? 0) (b <? 0); d_m := m; d_e := e |}.

(** [f"{x:.3f}"]: the exact binary value rounded half-to-even to three
    decimals. *)
Definition fmt_3f (x : Double) : string :=
  let n := if 0 <=? d_e x then d_m x * 2 ^ d_e x * 1000
           else round_half_even (d_m x * 1000) (2 ^ (- d_e x)) in
  (if d_neg x then "-" else "") +:+ str_int (n / 1000) +:+ "."
    +:+ fmt_0d 3 (n mod 1000).

(** [f"{ms / 1000:.3f}"] as the sources write it. *)
Definition fmt_ms_as_seconds (ms : Z) : Result string :=
  match int_truediv ms 1000 with
  | Ok x => Ok (fmt_3f x)
  | Raise e => Raise e
  end.

(** The design document's reading of the same rendering: the exact
    quotient [ms / 1000] written with three decimals. *)
Definition decimal_seconds (ms : Z) : string :=
  (if ms <? 0 then "-" else "") +:+ str_int (Z.abs ms / 1000) +:+ "."
    +:+ fmt_0d 3 (Z.abs ms mod 1000).

(** [dict[str, Any]] values of the free-form metadata. *)
Inductive Any : Type :=
| ANone
| ABool (b : bool)
| AInt (z : Z)
| AStr (s : string).

End PyCore.
Export PyCore.

(* ===================================================================== *)
(** * pathlib, as far as the sources use it                               *)
(* ===================================================================== *)

Module PathLib.

(** A [PurePosixPath] after parsing: the root (empty, one slash or two)
    and the components, none of them empty or a single dot. *)
Record Path : Type := { root : string; parts : list string }.

Definition is_component (c : string) : bool :=
  negb (String.eqb c "") && negb (String.eqb c ".").

Definition parse_root (s : string) : string :=
  match s with
  | String "/" (String "/" (String "/" _)) => "/"
  | String "/" (String "/" _) => "//"
  | String "/" _ => "/"
  | _ => ""
  end.

(** [Path(s)]. *)
Definition parse (s : string) : Path :=
  {| root := parse_root s;
     parts := List.filter is_component (split_on "/" s) |}.

(** [str(p)], which on POSIX is also [p.as_posix()]. *)
Definition path_str (p : Path) : string :=
  match root p, parts p with
  | EmptyString, [] => "."
  | r, ps => r +:+ join "/" ps
  end.

Definition as_posix (p : Path) : string := path_str p.

(** [p / s]: an absolute right operand replaces the left one. *)
Definition joinpath (p : Path) (s : string) : Path :=
  let q := parse s in
  if String.eqb (root q) "" then {| root := root p; parts := parts p ++ parts q |}
  else q.

(** [p.name]. *)
Definition path_name (p : Path) : string := List.last (parts p) "".

(** [p.suffix]: from the last dot of the name, unless that dot is the
    first or the last character. *)
Definition path_suffix (p : Path) : string :=
  let name := path_name p in
  match rfind_dot name with
  | Some i =>
      if (0 <? i)%nat && (i <? String.length name - 1)%nat
      then String.substring i (String.length name - i) name
      else ""
  | None => ""
  end.

(** [p.with_suffix(suffix)]. *)
Definition with_suffix (p : Path) (suffix : string) : Result Path :=
  if contains "/" suffix then
    Raise (Exception "ValueError" ("Invalid suffix " +:+ suffix))
  else if (negb (String.eqb suffix "") && negb (String.prefix "." suffix))
          || String.eqb suffix "." then
    Raise (Exception "ValueError" ("Invalid suffix " +:+ suffix))
  else
    let name := path_name p in
    if String.eqb name "" then
      Raise (Exception "ValueError" (path_str p +:+ " has an empty name"))
    else
      let old_suffix := path_suffix p in
      let name' :=
        if String.eqb old_suffix "" then name +:+ suffix
        else String.substring 0 (String.length name - String.length old_suffix) name
             +:+ suffix in
      Ok {| root := root p; parts := List.removelast (parts p) ++ [name'] |}.

End PathLib.
Export PathLib.

(* ===================================================================== *)
(** * ffmpeg/command_builder.py                                           *)
(* ===================================================================== *)

Module CommandBuilder.

Definition DEFAULT_SCALE_FILTER : string :=
  "scale=1280:720:force_original_aspect_ratio=decrease,pad=1280:720:(ow-iw)/2:(oh-ih)/2,setsar=1".

Definition build_concat_command (ffmpeg_binary : string)
    (filelist_path output_path : Path) (output_format : string) (crf : Z)
    (audio_passthrough : bool) : Result (list string) :=
  let command :=
    [ ffmpeg_binary; "-y"; "-f"; "concat"; "-safe"; "0";
      "-i"; path_str filelist_path;
      "-vf"; DEFAULT_SCALE_FILTER;
      "-c:v"; "libx264";
      "-crf"; str_int crf;
      "-preset"; "medium" ] in
  let command :=
    if audio_passthrough then command ++ ["-c:a"; "copy"]
    else command ++ ["-c:a"; "aac"; "-b:a"; "192k"] in
  match with_suffix output_path ("." +:+ output_format) with
  | Raise e => Raise e
  | Ok out => Ok (command ++ ["-movflags"; "+faststart"; path_str out])
  end.

(** [generate_concat_filelist]: the text that [filelist_path.write_text]
    receives. *)
Definition generate_concat_filelist (inputs : list Path) : string :=
  let lines := List.map (λ path, "file '" +:+ as_posix path +:+ "'") inputs in
  join newline lines +:+ newline.

(** One entry of the [overlays] list: the dictionary keys the builder
    reads, typed as [tasks.py] and the tests fill them ([x], [y], [start],
    [end] are [int]s, [opacity] and [scale] are [float]s; [start], [end],
    [opacity] and [scale] may be absent or [None]). *)
Record OverlaySpec : Type := {
  spec_x : Z;
  spec_y : Z;
  spec_start : option Z;
  spec_end : option Z;
  spec_opacity : option PyFloat;
  spec_scale : option PyFloat;
}.

(** The [components] list of one iteration. *)
Definition overlay_components (spec : OverlaySpec) : list string :=
  (match spec_scale spec with
   | Some sc =>
       if float_truthy sc
       then ["scale=iw*" +:+ float_repr sc +:+ ":ih*" +:+ float_repr sc]
       else []
   | None => []
   end)
  ++ (match spec_opacity spec with
      | Some op =>
          if float_lt_one op
          then ["format=rgba,colorchannelmixer=aa=" +:+ float_repr op]
          else []
      | None => []
      end).

(** The [enable_clause] of one iteration. *)
Definition enable_clause (spec : OverlaySpec) : Result string :=
  match spec_start spec, spec_end spec with
  | None, None => Ok ""
  | start, end_ =>
      match (match start with
             | Some st =>
                 match fmt_ms_as_seconds st with
                 | Ok t => Ok ["gte(t," +:+ t +:+ ")"]
                 | Raise e => Raise e
                 end
             | None => Ok []
             end) with
      | Raise e => Raise e
      | Ok c1 =>
          match (match end_ with
                 | Some en =>
                     match fmt_ms_as_seconds en with
                     | Ok t => Ok ["lte(t," +:+ t +:+ ")"]
                     | Raise e => Raise e
                     end
                 | None => Ok []
                 end) with
          | Raise e => Raise e
          | Ok c2 => Ok (":enable='" +:+ join "*" (c1 ++ c2) +:+ "'")
          end
      end
  end.

(** The body of the [for idx, spec in enumerate(overlays, start=1)] loop:
    the parts it appends, for the current base label. *)
Definition overlay_step (idx : Z) (label_in : string) (spec : OverlaySpec)
    : Result (list string) :=
  let label_out := "ov" +:+ str_int idx in
  let source_label := str_int idx +:+ ":v" in
  let components := overlay_components spec in
  let '(pre, overlay_stream) :=
    match components with
    | [] => ([], source_label)
    | _ => (["[" +:+ source_label +:+ "]" +:+ join "," components
             +:+ "[overlay" +:+ str_int idx +:+ "]"],
            "overlay" +:+ str_int idx)
    end in
  match enable_clause spec with
  | Raise e => Raise e
  | Ok clause =>
      Ok (pre ++ ["[" +:+ label_in +:+ "][" +:+ overlay_stream +:+ "]overlay=x="
                  +:+ str_int (spec_x spec) +:+ ":y=" +:+ str_int (spec_y spec)
                  +:+ clause +:+ "[" +:+ label_out +:+ "]"])
  end.

(** The loop: the parts appended and the last [current_label]. *)
Fixpoint overlay_loop (idx : Z) (current_label : string)
    (overlays : list OverlaySpec) : Result (list string * string) :=
  match overlays with
  | [] => Ok ([], current_label)
  | spec :: rest =>
      match overlay_step idx current_label spec with
      | Raise e => Raise e
      | Ok here =>
          match overlay_loop (idx + 1) ("ov" +:+ str_int idx) rest with
          | Raise e => Raise e
          | Ok (later, last_label) => Ok (here ++ later, last_label)
          end
      end
  end.

Definition build_overlay_filter (overlays : list OverlaySpec) : Result string :=
  let base_label := "base" in
  match overlay_loop 1 base_label overlays with
  | Raise e => Raise e
  | Ok (body, current_label) =>
      Ok (join ";"
            (["[0:v]" +:+ DEFAULT_SCALE_FILTER +:+ "[" +:+ base_label +:+ "]"]
             ++ body
             ++ ["[" +:+ current_label +:+ "]setsar=1[outv]"]))
  end.

Definition build_overlay_command (ffmpeg_binary : string) (base_video : Path)
    (overlay_paths : list Path) (output_path : Path) (output_format : string)
    (filter_graph : option string) : Result (list string) :=
  let command := [ffmpeg_binary; "-y"; "-i"; path_str base_video] in
  let command :=
    command ++ List.concat (List.map (λ path, ["-i"; path_str path]) overlay_paths) in
  let graph :=
    match filter_graph with
    | Some g => if String.eqb g "" then "[0:v]" +:+ DEFAULT_SCALE_FILTER +:+ "[outv]" else g
    | None => "[0:v]" +:+ DEFAULT_SCALE_FILTER +:+ "[outv]"
    end in
  let command := command ++ ["-filter_complex"; graph; "-map"; "[outv]"] in
  let command :=
    command ++ ["-map"; "0:a?"; "-c:v"; "libx264"; "-crf"; "21";
                "-preset"; "medium"; "-c:a"; "aac"; "-b:a"; "192k"] in
  match with_suffix output_path ("." +:+ output_format) with
  | Raise e => Raise e
  | Ok out => Ok (command ++ ["-movflags"; "+faststart"; path_str out])
  end.

(** [a, b] occur next to each other, in this order, in [l]. *)
Fixpoint has_pair (a b : string) (l : list string) : bool :=
  match l with
  | x :: (y :: _) as rest => (String.eqb x a && String.eqb y b) || has_pair a b rest
  | _ => false
  end.

End CommandBuilder.
Export CommandBuilder.

(* ===================================================================== *)
(** * job_models.py                                                       *)
(* ===================================================================== *)

Module JobModels.

Inductive JobStatus : Type := QUEUED | RUNNING | SUCCEEDED | FAILED.

#[global] Instance JobStatus_eq_dec : EqDecision JobStatus.
Proof. solve_decision. Defined.

(** [ProgressSnapshot]; the fields [message] and [updated_at] carry a
    prefix because [JobRecord] has fields of the same name. *)
Record ProgressSnapshot : Type := {
  percent : Z;
  current_step : option string;
  snap_message : option string;
  snap_updated_at : Z;
}.

Record ConcatInput : Type := {
  ci_media_id : string;
  ci_start_ms : option Z;
  ci_end_ms : option Z;
}.

Record ConcatJobRequest : Type := {
  inputs : list ConcatInput;
  audio_track : option string;
  cr_output_format : string;
  cr_metadata : gmap string Any;
}.

Record OverlayAsset : Type := {
  oa_media_id : string;
  position_x : Z;
  position_y : Z;
  oa_start_ms : option Z;
  oa_end_ms : option Z;
  opacity : PyFloat;
  scale : option PyFloat;
}.

Record OverlayJobRequest : Type := {
  input_media_id : string;
  overlays : list OverlayAsset;
  or_output_format : string;
  or_metadata : gmap string Any;
}.

(** [job_type: Literal["concat", "overlay"]]. *)
Inductive JobType : Type := Concat | Overlay.

(** [params] holds the dumped request. *)
Inductive JobParams : Type :=
| ConcatParams (r : ConcatJobRequest)
| OverlayParams (r : OverlayJobRequest).

Record JobRecord : Type := {
  job_id : string;
  job_type : JobType;
  params : JobParams;
  metadata : gmap string Any;
  status : JobStatus;
  progress : option ProgressSnapshot;
  result_media_id : option string;
  message : option string;
  error : option string;
  created_at : Z;
  updated_at : Z;
}.

(** [JobRecord(job_id=..., job_type=..., params=..., metadata=...,
    status=JobStatus.QUEUED)] as [api/routes.py] builds it: every other
    field takes its default. *)
Definition new_record (now : Z) (id : string) (ty : JobType)
    (p : JobParams) (md : gmap string Any) : JobRecord :=
  {| job_id := id; job_type := ty; params := p; metadata := md;
     status := QUEUED; progress := None; result_media_id := None;
     message := None; error := None;
     created_at := now; updated_at := now |}.

End JobModels.
Export JobModels.

(* ===================================================================== *)
(** * job_store.py                                                        *)
(* ===================================================================== *)

Module JobStore.

(** The keyword arguments of [update_job]; each defaults to [None]. *)
Record UpdateArgs : Type := {
  u_status : option JobStatus;
  u_progress : option ProgressSnapshot;
  u_result_media_id : option string;
  u_message : option string;
  u_error : option string;
  u_metadata : option (gmap string Any);
}.

Definition no_update : UpdateArgs :=
  {| u_status := None; u_progress := None; u_result_media_id := None;
     u_message := None; u_error := None; u_metadata := None |}.

(** [x if arg is None else arg]: what [model_copy(update=update_data)]
    does to a field that [update_data] may or may not hold. *)
Definition overwrite {A} (arg : option A) (old : A) : A :=
  match arg with Some v => v | None => old end.

Definition overwrite_opt {A} (arg : option A) (old : option A) : option A :=
  match arg with Some v => Some v | None => old end.

(** The body shared verbatim by the three [update_job] methods: build
    [update_data] and apply it with [record.model_copy(update=...)]. *)
Definition apply_update (now : Z) (a : UpdateArgs) (record : JobRecord)
    : JobRecord :=
  {| job_id := job_id record;
     job_type := job_type record;
     params := params record;
     metadata :=
       match u_metadata a with
       | Some md => md ∪ metadata record      (* {**record.metadata, **metadata} *)
       | None => metadata record
       end;
     status := overwrite (u_status a) (status record);
     progress := overwrite_opt (u_progress a) (progress record);
     result_media_id := overwrite_opt (u_result_media_id a) (result_media_id record);
     message := overwrite_opt (u_message a) (message record);
     error := overwrite_opt (u_error a) (error record);
     created_at := created_at record;
     updated_at := now |}.

(** [InMemoryJobStore]: [_records] under its lock; one call runs at a
    time, so the lock does not appear.  [create_job] has no failure path:
    its outcome is always [Ok]. *)
Module InMemoryJobStore.

Abbreviation t := (gmap string JobRecord).

Definition create_job (record : JobRecord) (s : t) : Result unit * t :=
  (Ok tt, <[job_id record := record]> s).

Definition get_job (id : string) (s : t) : option JobRecord := s !! id.

Definition update_job (now : Z) (id : string) (a : UpdateArgs) (s : t)
    : option JobRecord * t :=
  match s !! id with
  | None => (None, s)
  | Some record =>
      let new_record := apply_update now a record in
      (Some new_record, <[id := new_record]> s)
  end.

End InMemoryJobStore.

Definition _job_key (id : string) : string := "video-job:" +:+ id.

(** The Redis-backed stores. A Redis value is the JSON document of a
    record; [model_dump]/[json.dumps] and [json.loads]/[model_validate]
    are inverse on records, so the database maps a key to the record its
    document denotes. [RedisJobStore] (async, API side) and
    [RedisJobStoreSync] (worker side) have the same three bodies. *)
Module RedisJobStoreSync.

Abbreviation t := (gmap string JobRecord).

Definition create_job (record : JobRecord) (db : t) : Result unit * t :=
  (Ok tt, <[_job_key (job_id record) := record]> db).

Definition get_job (id : string) (db : t) : option JobRecord :=
  db !! _job_key id.

Definition update_job (now : Z) (id : string) (a : UpdateArgs) (db : t)
    : option JobRecord * t :=
  let key := _job_key id in
  match db !! key with
  | None => (None, db)
  | Some record =>
      let updated := apply_update now a record in
      (Some updated, <[key := updated]> db)
  end.

End RedisJobStoreSync.

Module RedisJobStore := RedisJobStoreSync.

(** [AbstractJobStore] is the interface the two families implement; a
    [Backend] names the implementation behind it. *)
Inductive Backend : Type := InMemory | Redis.

Definition key_of (b : Backend) (id : string) : string :=
  match b with InMemory => id | Redis => _job_key id end.

Definition create_job (b : Backend)
    : JobRecord → gmap string JobRecord → Result unit * gmap string JobRecord :=
  match b with
  | InMemory => InMemoryJobStore.create_job
  | Redis => RedisJobStoreSync.create_job
  end.

Definition get_job (b : Backend)
    : string → gmap string JobRecord → option JobRecord :=
  match b with
  | InMemory => InMemoryJobStore.get_job
  | Redis => RedisJobStoreSync.get_job
  end.

Definition update_job (b : Backend)
    : Z → string → UpdateArgs → gmap string JobRecord
      → option JobRecord * gmap string JobRecord :=
  match b with
  | InMemory => InMemoryJobStore.update_job
  | Redis => RedisJobStoreSync.update_job
  end.

(** A sequence of [update_job] calls on one id, each at its own time. *)
Definition update_many (b : Backend) (id : string)
    (calls : list (Z * UpdateArgs)) (s : gmap string JobRecord)
    : gmap string JobRecord :=
  foldl (λ st c, (update_job b c.1 id c.2 st).2) s calls.

End JobStore.
Export JobStore.

(* ===================================================================== *)
(** * payload_client.py, ffmpeg/runner.py, ffmpeg/probe.py and tasks.py   *)
(* ===================================================================== *)

Module Tasks.

(** [MediaAsset] of [payload_client.py]. *)
Record MediaAsset : Type := {
  media_id : string;
  filename : string;
  mime_type : string;
  download_url : string;
}.

(** The fields of [config.Settings] that the workers read. *)
Record Settings : Type := {
  ffmpeg_binary : string;
  ffprobe_binary : string;
  default_crf : Z;
  temp_dir : Path;
  payload_base_url : option string;
}.

Inductive LogLevel : Type := DEBUG | ERROR.

(** What a run does to the outside, in the order it does it. *)
Inductive Event : Type :=
| EvUpdate (a : UpdateArgs) (written : option JobRecord)
| EvUpdateRaised (a : UpdateArgs) (e : exn)
| EvMkdir (p : Path)
| EvFetch (id : string)
| EvDownload (target : Path)
| EvFFmpeg (command : list string)
| EvWrite (p : Path) (text : string)
| EvProbe (p : Path)
| EvUpload (p : Path) (md : gmap string Any)
| EvLog (level : LogLevel) (msg : string)
| EvCleanup (p : Path).

(** The outside world.  Every call to the outside takes the next tick of
    the run, and the world says what that call returns or raises at that
    tick: Redis round trips, the file system, the media store, the
    subprocesses, [uuid4] and the clock.  [log_enabled] is
    [logger.isEnabledFor(level)] and [json_dumps] is [json.dumps] on a list
    of ids. *)
Record World : Type := {
  utcnow : nat → Z;
  redis_reply : nat → option exn;
  fs_reply : nat → option exn;
  mkdtemp : nat → Result Path;
  fetch_reply : nat → string → Result MediaAsset;
  download_reply : nat → option exn;
  subprocess_run : nat → list string → Result (Z * string);
  uuid4_hex : nat → string;
  probe_reply : nat → Path → Result (gmap string Any);
  upload_reply : nat → Path → gmap string Any → Result (gmap string Any);
  log_enabled : LogLevel → bool;
  json_dumps : list string → string;
}.

(** The state of a run: the tick, the Redis database and the trace. *)
Record PState : Type := {
  tick : nat;
  db : gmap string JobRecord;
  trace : list Event;
}.

(** Computations that read and write the state and may raise. *)
Definition M (A : Type) : Type := PState → Result A * PState.

#[global] Instance M_ret : MRet M := λ A a st, (Ok a, st).

#[global] Instance M_bind : MBind M := λ A B f m st,
  match m st with
  | (Ok a, st') => f a st'
  | (Raise e, st') => (Raise e, st')
  end.

Definition raise {A} (e : exn) : M A := λ st, (Raise e, st).

Definition lift {A} (r : Result A) : M A := λ st, (r, st).

(** [try: body except ...: handler]; an exception of the handler is not
    caught again. *)
Definition try_except {A} (body : M A) (handler : exn → M A) : M A := λ st,
  match body st with
  | (Ok a, st') => (Ok a, st')
  | (Raise e, st') => handler e st'
  end.

(** [try: body finally: final]; an exception of [final] replaces the
    outcome of [body]. *)
Definition try_finally {A} (body : M A) (final : M unit) : M A := λ st,
  let '(r, st') := body st in
  match final st' with
  | (Ok _, st'') => (r, st'')
  | (Raise e, st'') => (Raise e, st'')
  end.

Definition next_tick : M nat := λ st,
  (Ok (tick st), {| tick := S (tick st); db := db st; trace := trace st |}).

Definition emit (ev : Event) : M unit := λ st,
  (Ok tt, {| tick := tick st; db := db st; trace := trace st ++ [ev] |}).

(** A call whose only outcome is to return or to raise. *)
Definition outside (reply : option exn) : M unit :=
  match reply with Some e => raise e | None => mret tt end.

(** [str(exc)]. *)
Definition str_exn (e : exn) : string :=
  match e with
  | FFmpegExecutionError command stderr =>
      "FFmpeg command failed: " +:+ join " " command +:+ newline +:+ stderr
  | Exception _ msg => msg
  end.

(** [bool(x)] and [str(x)] on JSON scalars, and [d.get(k)]. *)
Definition any_truthy (x : Any) : bool :=
  match x with
  | ANone => false
  | ABool b => b
  | AInt z => negb (z =? 0)
  | AStr s => negb (String.eqb s "")
  end.

Definition str_any (x : Any) : string :=
  match x with
  | ANone => "None"
  | ABool b => if b then "True" else "False"
  | AInt z => str_int z
  | AStr s => s
  end.

Definition dict_get (d : gmap string Any) (k : string) : Any :=
  default ANone (d !! k).

Definition is_not_none (x : Any) : bool :=
  match x with ANone => false | _ => true end.

(** [_safe_metadata]. *)
Definition _safe_metadata (md : gmap string Any) : gmap string Any :=
  filter (λ kv, is_not_none kv.2 = true) md.

Section Worker.

Variable settings : Settings.
Variable w : World.

(** [ProgressSnapshot(percent=..., current_step=..., message=...)]: the
    model checks [0 <= percent <= 100] and stamps the snapshot. *)
Definition _progress (pct : Z) (step msg : string) : M ProgressSnapshot :=
  t ← next_tick;
  if (0 <=? pct) && (pct <=? 100) then
    mret {| percent := pct; current_step := Some step;
            snap_message := Some msg; snap_updated_at := utcnow w t |}
  else
    raise (Exception "ValidationError"
             "percent: Input should be less than or equal to 100").

(** [job_store.update_job(job_id, ...)] on the [RedisJobStoreSync] that
    [_get_job_store] returns: one Redis round trip, which may raise. *)
Definition store_update (id : string) (a : UpdateArgs) : M (option JobRecord) :=
  t ← next_tick;
  match redis_reply w t with
  | Some e => emit (EvUpdateRaised a e) ;; raise e
  | None => λ st,
      let '(r, db') := RedisJobStoreSync.update_job (utcnow w t) id a (db st) in
      (Ok r, {| tick := tick st; db := db'; trace := trace st ++ [EvUpdate a r] |})
  end.

(** [job_store.update_job(job_id, progress=_progress(...))]. *)
Definition report (id : string) (pct : Z) (step msg : string) : M unit :=
  p ← _progress pct step msg;
  store_update id {| u_status := None; u_progress := Some p;
                     u_result_media_id := None; u_message := None;
                     u_error := None; u_metadata := None |} ;;
  mret tt.

(** A [logger] call with keyword arguments.  [logger] is a standard
    [logging.Logger], whose [_log] accepts no keywords but [exc_info],
    [extra], [stack_info] and [stacklevel]: when the level is enabled the
    call raises [TypeError]; when it is not, the call returns at once. *)
Definition logger_call (level : LogLevel) (msg kwarg : string) : M unit :=
  emit (EvLog level msg) ;;
  if log_enabled w level then
    raise (Exception "TypeError"
             ("Logger._log() got an unexpected keyword argument '" +:+ kwarg +:+ "'"))
  else mret tt.

Definition _get_payload_client : M unit :=
  match payload_base_url settings with
  | Some url =>
      if String.eqb url "" then raise (Exception "RuntimeError" "PayloadCMS base URL not configured")
      else mret tt
  | None => raise (Exception "RuntimeError" "PayloadCMS base URL not configured")
  end.

Definition make_dir (p : Path) : M unit :=
  t ← next_tick; emit (EvMkdir p) ;; outside (fs_reply w t).

Definition _ensure_temp_dir : M Path :=
  make_dir (temp_dir settings) ;;
  t ← next_tick; lift (mkdtemp w t).

Definition fetch_media (id : string) : M MediaAsset :=
  t ← next_tick; emit (EvFetch id) ;; lift (fetch_reply w t id).

Definition _download_to_temp (asset : MediaAsset) (directory : Path) : M Path :=
  let target := joinpath directory (filename asset) in
  t ← next_tick; emit (EvDownload target) ;; outside (download_reply w t) ;;
  mret target.

(** [execute_ffmpeg] of [ffmpeg/runner.py]. *)
Definition execute_ffmpeg (command : list string) : M unit :=
  t ← next_tick; emit (EvFFmpeg command) ;;
  completed ← lift (subprocess_run w t command);
  if negb (completed.1 =? 0) then raise (FFmpegExecutionError command completed.2)
  else mret tt.

Definition write_text (p : Path) (text : string) : M unit :=
  t ← next_tick; emit (EvWrite p text) ;; outside (fs_reply w t).

Definition uuid4 : M string := t ← next_tick; mret (uuid4_hex w t).

(** [summarize_media(probe_streams(ffprobe_binary, path))]. *)
Definition probe_summary (p : Path) : M (gmap string Any) :=
  t ← next_tick; emit (EvProbe p) ;; lift (probe_reply w t p).

Definition upload_media (p : Path) (md : gmap string Any) : M (gmap string Any) :=
  t ← next_tick; emit (EvUpload p md) ;; lift (upload_reply w t p md).

(** [_cleanup_temp_dir]: failures are caught; the handler's [logger.debug]
    carries a keyword too. *)
Definition _cleanup_temp_dir (dir : Path) : M unit :=
  t ← next_tick; emit (EvCleanup dir) ;;
  match fs_reply w t with
  | Some _ => logger_call DEBUG "Temporary directory cleanup failed" "path"
  | None => mret tt
  end.

(** The constraints of [ConcatInput] and [ConcatJobRequest]. *)
Definition valid_window (start_ms end_ms : option Z) : bool :=
  match start_ms with Some s => 0 <=? s | None => true end
  && match end_ms with Some e => 0 <=? e | None => true end
  && match start_ms, end_ms with Some s, Some e => s <? e | _, _ => true end.

Definition valid_concat_input (i : ConcatInput) : bool :=
  negb (String.eqb (ci_media_id i) "") && valid_window (ci_start_ms i) (ci_end_ms i).

Definition validate_concat (payload : ConcatJobRequest) : M ConcatJobRequest :=
  if negb (Nat.eqb (List.length (inputs payload)) 0)
     && forallb valid_concat_input (inputs payload)
  then mret payload
  else raise (Exception "ValidationError" "ConcatJobRequest").

Definition valid_overlay (o : OverlayAsset) : bool :=
  negb (String.eqb (oa_media_id o) "")
  && (0 <=? position_x o) && (0 <=? position_y o)
  && float_ge_zero (opacity o) && float_le_one (opacity o)
  && match scale o with Some sc => float_gt_zero sc | None => true end
  && valid_window (oa_start_ms o) (oa_end_ms o).

Definition validate_overlay (payload : OverlayJobRequest) : M OverlayJobRequest :=
  if negb (String.eqb (input_media_id payload) "")
     && negb (Nat.eqb (List.length (overlays payload)) 0)
     && forallb valid_overlay (overlays payload)
  then mret payload
  else raise (Exception "ValidationError" "OverlayJobRequest").

(** Lines 113-138 of [tasks.py]: [None] when the input has no trim window,
    else the trim and re-encode command that [execute_ffmpeg] receives. *)
Definition trim_command (downloaded trimmed : Path) (input_item : ConcatInput)
    : Result (option (list string)) :=
  match ci_start_ms input_item, ci_end_ms input_item with
  | None, None => Ok None
  | start_ms, end_ms =>
      let command := [ffmpeg_binary settings; "-y"; "-i"; path_str downloaded] in
      match (match start_ms with
             | Some s =>
                 match fmt_ms_as_seconds s with
                 | Ok t => Ok (command ++ ["-ss"; t])
                 | Raise e => Raise e
                 end
             | None => Ok command
             end) with
      | Raise e => Raise e
      | Ok command =>
          match (match end_ms with
                 | Some en =>
                     match start_ms with
                     | Some s =>
                         match fmt_ms_as_seconds (en - s) with
                         | Ok t => Ok (command ++ ["-t"; t])
                         | Raise e => Raise e
                         end
                     | None =>
                         match fmt_ms_as_seconds en with
                         | Ok t => Ok (command ++ ["-to"; t])
                         | Raise e => Raise e
                         end
                     end
                 | None => Ok command
                 end) with
          | Raise e => Raise e
          | Ok command =>
              Ok (Some (command ++
                        ["-c:v"; "libx264"; "-preset"; "medium";
                         "-crf"; str_int (default_crf settings);
                         "-c:a"; "aac"; "-b:a"; "192k"; path_str trimmed]))
          end
      end
  end.

(** One iteration of the download loop of [concat_video]: the path that is
    appended to [downloaded_paths]. *)
Definition concat_input_step (id : string) (segments_dir : Path) (index : nat)
    (input_item : ConcatInput) : M Path :=
  report id (10 + Z.of_nat index * 10) "download"
    ("Downloading input " +:+ str_int (Z.of_nat index + 1)) ;;
  asset ← fetch_media (ci_media_id input_item);
  downloaded ← _download_to_temp asset segments_dir;
  let trimmed :=
    joinpath segments_dir ("segment_" +:+ fmt_0d 3 (Z.of_nat index) +:+ ".mp4") in
  invocation ← lift (trim_command downloaded trimmed input_item);
  match invocation with
  | Some command => execute_ffmpeg command ;; mret trimmed
  | None => mret downloaded
  end.

Fixpoint concat_download_loop (id : string) (segments_dir : Path) (index : nat)
    (items : list ConcatInput) (downloaded_paths : list Path) : M (list Path) :=
  match items with
  | [] => mret downloaded_paths
  | input_item :: rest =>
      path ← concat_input_step id segments_dir index input_item;
      concat_download_loop id segments_dir (S index) rest (downloaded_paths ++ [path])
  end.

Definition truthy_str (s : option string) : bool :=
  match s with Some v => negb (String.eqb v "") | None => false end.

(** [str(upload_response.get("id") or upload_response.get("_id"))]. *)
Definition uploaded_id (response : gmap string Any) : string :=
  str_any (if any_truthy (dict_get response "id") then dict_get response "id"
           else dict_get response "_id").

Definition succeeded (id : string) (result : string) (summary : gmap string Any)
    (msg : string) : M unit :=
  p ← _progress 100 "completed" "Job completed";
  store_update id {| u_status := Some SUCCEEDED; u_progress := Some p;
                     u_result_media_id := Some result; u_message := Some msg;
                     u_error := None;
                     u_metadata := Some (_safe_metadata summary) |} ;;
  mret tt.

Definition failed (id : string) (exc : exn) (msg : string) : M unit :=
  p ← _progress 100 "failed" "Processing failed";
  store_update id {| u_status := Some FAILED; u_progress := Some p;
                     u_result_media_id := None; u_message := Some msg;
                     u_error := Some (str_exn exc); u_metadata := None |} ;;
  mret tt.

(** The two [except] clauses: log, record [FAILED], re-raise. *)
Definition on_failure (id : string) (log_msg unhandled_msg : string) (exc : exn)
    : M unit :=
  match exc with
  | FFmpegExecutionError _ _ =>
      logger_call ERROR "FFmpeg execution failed" "job_id" ;;
      failed id exc "FFmpeg command failed" ;;
      raise exc
  | Exception _ _ =>
      logger_call ERROR log_msg "job_id" ;;
      failed id exc unhandled_msg ;;
      raise exc
  end.

(** The [try] block of [concat_video]. *)
Definition concat_body (id : string) (request : ConcatJobRequest)
    (tmp segments_dir : Path) : M unit :=
  downloaded_paths ← concat_download_loop id segments_dir 0 (inputs request) [];
  report id 60 "processing" "Concatenating segments" ;;
  let filelist_path := joinpath tmp "inputs.txt" in
  write_text filelist_path (generate_concat_filelist downloaded_paths) ;;
  hex ← uuid4;
  let output_basename := joinpath tmp ("concat-" +:+ hex) in
  command ← lift (build_concat_command (ffmpeg_binary settings) filelist_path
                    output_basename (cr_output_format request)
                    (default_crf settings)
                    (bool_decide (audio_track request = None)));
  execute_ffmpeg command ;;
  final_output_path ←
    lift (with_suffix output_basename ("." +:+ cr_output_format request));
  final_output_path ←
    (if truthy_str (audio_track request) then
       report id 75 "audio" "Mixing override audio track" ;;
       audio_asset ← fetch_media (default "" (audio_track request));
       audio_path ← _download_to_temp audio_asset tmp;
       hex' ← uuid4;
       let mixed_path :=
         joinpath tmp ("mixed-" +:+ hex' +:+ "." +:+ cr_output_format request) in
       execute_ffmpeg
         [ffmpeg_binary settings; "-y"; "-i"; path_str final_output_path;
          "-i"; path_str audio_path; "-map"; "0:v"; "-map"; "1:a";
          "-c:v"; "copy"; "-c:a"; "aac"; "-b:a"; "192k"; path_str mixed_path] ;;
       mret mixed_path
     else mret final_output_path);
  report id 85 "probe" "Analyzing output" ;;
  summary ← probe_summary final_output_path;
  report id 92 "upload" "Uploading result to PayloadCMS" ;;
  let upload_metadata : gmap string Any :=
    summary ∪ cr_metadata request
    ∪ {[ "jobId" := AStr id; "operation" := AStr "concat";
         "inputs" := AStr (json_dumps w (List.map ci_media_id (inputs request))) ]} in
  upload_response ← upload_media final_output_path upload_metadata;
  succeeded id (uploaded_id upload_response) summary "Video concatenation successful".

Definition running (id : string) : M unit :=
  p ← _progress 5 "accepted" "Job accepted by worker";
  store_update id {| u_status := Some RUNNING; u_progress := Some p;
                     u_result_media_id := None; u_message := None;
                     u_error := None; u_metadata := None |} ;;
  mret tt.

Definition concat_video (id : string) (payload : ConcatJobRequest) : M unit :=
  running id ;;
  request ← validate_concat payload;
  _get_payload_client ;;
  tmp ← _ensure_temp_dir;
  let segments_dir := joinpath tmp "segments" in
  make_dir segments_dir ;;
  try_finally
    (try_except (concat_body id request tmp segments_dir)
       (on_failure id "Concat job failed" "Unhandled error during video concat"))
    (_cleanup_temp_dir tmp).

(** The download loop of [overlay_video]. *)
Definition overlay_input_step (id : string) (tmp : Path) (index : nat)
    (overlay : OverlayAsset) : M Path :=
  report id (15 + Z.of_nat index * 5) "download"
    ("Downloading overlay " +:+ str_int (Z.of_nat index + 1)) ;;
  asset ← fetch_media (oa_media_id overlay);
  _download_to_temp asset tmp.

Fixpoint overlay_download_loop (id : string) (tmp : Path) (index : nat)
    (items : list OverlayAsset) (overlay_paths : list Path) : M (list Path) :=
  match items with
  | [] => mret overlay_paths
  | overlay :: rest =>
      path ← overlay_input_step id tmp index overlay;
      overlay_download_loop id tmp (S index) rest (overlay_paths ++ [path])
  end.

Definition filter_spec (overlay : OverlayAsset) : OverlaySpec :=
  {| spec_x := position_x overlay; spec_y := position_y overlay;
     spec_start := oa_start_ms overlay; spec_end := oa_end_ms overlay;
     spec_opacity := Some (opacity overlay); spec_scale := scale overlay |}.

(** The [try] block of [overlay_video]. *)
Definition overlay_body (id : string) (request : OverlayJobRequest) (tmp : Path)
    : M unit :=
  base_asset ← fetch_media (input_media_id request);
  base_path ← _download_to_temp base_asset tmp;
  overlay_paths ← overlay_download_loop id tmp 0 (overlays request) [];
  filter_graph ← lift (build_overlay_filter (List.map filter_spec (overlays request)));
  report id 60 "processing" "Rendering overlays" ;;
  hex ← uuid4;
  let output_path :=
    joinpath tmp ("overlay-" +:+ hex +:+ "." +:+ or_output_format request) in
  command ← lift (build_overlay_command (ffmpeg_binary settings) base_path
                    overlay_paths output_path (or_output_format request)
                    (Some filter_graph));
  execute_ffmpeg command ;;
  report id 85 "probe" "Analyzing output" ;;
  summary ← probe_summary output_path;
  report id 92 "upload" "Uploading result to PayloadCMS" ;;
  let upload_metadata : gmap string Any :=
    summary ∪ or_metadata request
    ∪ {[ "jobId" := AStr id; "operation" := AStr "overlay";
         "inputs" := AStr (json_dumps w [input_media_id request]);
         "overlays" := AStr (json_dumps w (List.map oa_media_id (overlays request))) ]} in
  upload_response ← upload_media output_path upload_metadata;
  succeeded id (uploaded_id upload_response) summary "Overlay applied successfully".

Definition overlay_video (id : string) (payload : OverlayJobRequest) : M unit :=
  running id ;;
  request ← validate_overlay payload;
  _get_payload_client ;;
  tmp ← _ensure_temp_dir;
  try_finally
    (try_except (overlay_body id request tmp)
       (on_failure id "Overlay job failed" "Unhandled error during overlay"))
    (_cleanup_temp_dir tmp).

End Worker.

(** What the broker delivers to a worker. *)
Inductive Delivery : Type :=
| DeliverConcat (payload : ConcatJobRequest)
| DeliverOverlay (payload : OverlayJobRequest).

Definition run_delivery (settings : Settings) (w : World) (id : string)
    (d : Delivery) : M unit :=
  match d with
  | DeliverConcat payload => concat_video settings w id payload
  | DeliverOverlay payload => overlay_video settings w id payload
  end.

(** The progress percentages that a trace wrote to the job record, in the
    order of writing. *)
Definition written_percent (ev : Event) : option Z :=
  match ev with
  | EvUpdate a (Some _) => percent <$> u_progress a
  | _ => None
  end.

Definition written_percents (tr : list Event) : list Z :=
  omap written_percent tr.

(** The records that a trace wrote. *)
Definition written_record (ev : Event) : option JobRecord :=
  match ev with
  | EvUpdate _ (Some r) => Some r
  | _ => None
  end.

Definition written_records (tr : list Event) : list JobRecord :=
  omap written_record tr.


Fixpoint nondecreasing (l : list Z) : bool :=
  match l with
  | x :: (y :: _) as rest => (x <=? y) && nondecreasing rest
  | _ => true
  end.

End Tasks.
Export Tasks.

(* ===================================================================== *)
(** * Runs, traces and the predicates of the statements                   *)
(* ===================================================================== *)

Module Runs.

(** Deliveries one after the other, each in its own world and for its own
    job id; a duplicate delivery is the same delivery listed twice. *)
Fixpoint run_deliveries (settings : Settings)
    (runs : list (World * string * Delivery)) (st : PState) : PState :=
  match runs with
  | [] => st
  | (w, id, d) :: rest =>
      run_deliveries settings rest (run_delivery settings w id d st).2
  end.

(** The state in which a worker finds a job that the API has just queued. *)
Definition queued_state (id : string) (ty : JobType) (p : JobParams) : PState :=
  {| tick := 0;
     db := {[ _job_key id := new_record 900 id ty p ∅ ]};
     trace := [] |}.

Definition final_record (id : string) (st : PState) : option JobRecord :=
  db st !! _job_key id.





(** [o] holds a record on which the test [f] succeeds. *)
Definition holds_record (f : JobRecord → bool) (o : option JobRecord) : bool :=
  match o with Some r => f r | None => false end.

End Runs.
Export Runs.

Module Statements.

(** ** Job store *)

(** The contract sentence on [create]: on an id that is present, [create]
    raises and the stored record stays. *)
Definition create_fails_on_taken_id (b : Backend) : Prop :=
  ∀ (s : gmap string JobRecord) (record old : JobRecord),
    s !! key_of b (job_id record) = Some old →
    (∃ e, (create_job b record s).1 = Raise e)
    ∧ (create_job b record s).2 !! key_of b (job_id record) = Some old.

(** ** Manifest *)




(** ** Trim windows *)

(** A millisecond offset as requests carry it: not negative, and below
    [2^52], where the double nearest to [ms / 1000] still rounds back to
    the same thousandth. *)
Definition ms_in_range (ms : option Z) : Prop :=
  match ms with Some x => 0 ≤ x < 2 ^ 52 | None => True end.


(** ** Terminal fields of a job record *)

(** A terminal status comes with its field. *)
Definition sound (r : JobRecord) : Prop :=
  (status r = SUCCEEDED → is_Some (result_media_id r))
  ∧ (status r = FAILED → is_Some (error r)).

(** The invariant of the data model: each field is set exactly in its
    terminal status. *)
Definition exact (r : JobRecord) : Prop :=
  (is_Some (result_media_id r) ↔ status r = SUCCEEDED)
  ∧ (is_Some (error r) ↔ status r = FAILED).

(** A record no run has finished on. *)
Definition clean (r : JobRecord) : Prop :=
  (status r = QUEUED ∨ status r = RUNNING)
  ∧ result_media_id r = None ∧ error r = None.

Definition sound_args (a : UpdateArgs) : Prop :=
  match u_status a with
  | Some SUCCEEDED => is_Some (u_result_media_id a)
  | Some FAILED => is_Some (u_error a)
  | _ => True
  end.

Definition progress_args (a : UpdateArgs) : Prop :=
  (u_status a = None ∨ u_status a = Some RUNNING)
  ∧ u_result_media_id a = None ∧ u_error a = None.

Definition terminal_args (a : UpdateArgs) : Prop :=
  (u_status a = Some SUCCEEDED ∧ is_Some (u_result_media_id a) ∧ u_error a = None)
  ∨ (u_status a = Some FAILED ∧ is_Some (u_error a) ∧ u_result_media_id a = None).

(** Every record of the database and every record written so far is
    [sound]. *)
Definition all_sound (st : PState) : Prop :=
  (∀ k r, db st !! k = Some r → sound r)
  ∧ Forall sound (written_records (trace st)).

(** The record of job [id], if there is one, is [clean] (respectively
    [exact]), and every record written so far is [exact]. *)
Definition clean_at (id : string) (st : PState) : Prop :=
  (∀ r, db st !! _job_key id = Some r → clean r)
  ∧ Forall exact (written_records (trace st)).

Definition exact_at (id : string) (st : PState) : Prop :=
  (∀ r, db st !! _job_key id = Some r → exact r)
  ∧ Forall exact (written_records (trace st)).

(** ** Failed Redis round trips *)




(** ** Progress *)

(** The percentages written so far never decrease and stay at or below [b]. *)
Definition progress_below (b : Z) (st : PState) : Prop :=
  nondecreasing (written_percents (trace st)) = true
  ∧ Forall (λ p, p ≤ b) (written_percents (trace st)).

(** ** Triples *)

(** From a state in [P], the computation ends in [Q] when it returns and
    in [J] when it raises. *)
Definition hoare {A} (P : PState → Prop) (m : M A) (Q J : PState → Prop) : Prop :=
  ∀ st, P st →
    match m st with
    | (Ok _, st') => Q st'
    | (Raise _, st') => J st'
    end.

End Statements.
Export Statements.

Module Samples.

Definition sample_request : ConcatJobRequest :=
  {| inputs := [ {| ci_media_id := "media-1"; ci_start_ms := None; ci_end_ms := None |} ];
     audio_track := None; cr_output_format := "mp4"; cr_metadata := ∅ |}.

Definition sample_old : JobRecord :=
  new_record 100 "job-1" Concat (ConcatParams sample_request)
    {[ "requestedBy" := AStr "tests" ]}.

Definition sample_new : JobRecord :=
  new_record 200 "job-1" Overlay (ConcatParams sample_request) ∅.

Definition sample_store (b : Backend) : gmap string JobRecord :=
  {[ key_of b "job-1" := sample_old ]}.

Definition sample_args (m : gmap string Any) : UpdateArgs :=
  {| u_status := None; u_progress := None; u_result_media_id := None;
     u_message := None; u_error := None; u_metadata := Some m |}.

Definition sample_failed : JobRecord :=
  apply_update 150
    {| u_status := Some FAILED; u_progress := None; u_result_media_id := None;
       u_message := Some "FFmpeg command failed"; u_error := Some "exit 1";
       u_metadata := None |}
    sample_old.

(** The overlay of [tests/test_command_builder.py]:
    [{"x": 10, "y": 20, "start": 0, "end": 1000, "opacity": 0.5, "scale": 0.5}]. *)
Definition sample_overlay : OverlaySpec :=
  {| spec_x := 10; spec_y := 20;
     spec_start := Some 0; spec_end := Some 1000;
     spec_opacity := Some (FDec false 5 (-1));
     spec_scale := Some (FDec false 5 (-1)) |}.


Definition sample_settings : Settings :=
  {| ffmpeg_binary := "ffmpeg"; ffprobe_binary := "ffprobe"; default_crf := 21;
     temp_dir := parse "/tmp/mcp-video-processing";
     payload_base_url := Some "http://cms.local/api" |}.

(** A world in which every call to the outside succeeds.  [logging] is at
    its default level: [ERROR] is enabled and [DEBUG] is not. *)
Definition calm_world : World :=
  {| utcnow := λ t, 1000 + Z.of_nat t;
     redis_reply := λ _, None;
     fs_reply := λ _, None;
     mkdtemp := λ _, Ok (parse "/tmp/mcp-video-processing/video-job-x1");
     fetch_reply := λ _ id,
       Ok {| media_id := id; filename := id +:+ ".mp4";
             mime_type := "video/mp4"; download_url := "http://cms.local/" +:+ id |};
     download_reply := λ _, None;
     subprocess_run := λ _ _, Ok (0, "");
     uuid4_hex := λ _, "0f1e2d3c";
     probe_reply := λ _ _, Ok {[ "durationMs" := AInt 9000 ]};
     upload_reply := λ _ _ _, Ok {[ "id" := AStr "media-out" ]};
     log_enabled := λ level, match level with ERROR => true | DEBUG => false end;
     json_dumps := λ ids, "[" +:+ join ", " ids +:+ "]" |}.


(** The calm world, except that every encoder run exits with status 1 and
    the logger is disabled. *)
Definition encoder_fails_quiet : World :=
  {| utcnow := utcnow calm_world;
     redis_reply := redis_reply calm_world;
     fs_reply := fs_reply calm_world;
     mkdtemp := mkdtemp calm_world;
     fetch_reply := fetch_reply calm_world;
     download_reply := download_reply calm_world;
     subprocess_run := λ _ _, Ok (1, "Invalid data found when processing input");
     uuid4_hex := uuid4_hex calm_world;
     probe_reply := probe_reply calm_world;
     upload_reply := upload_reply calm_world;
     log_enabled := λ _, false;
     json_dumps := json_dumps calm_world |}.

Definition clip (n : nat) : ConcatInput :=
  {| ci_media_id := "media-" +:+ pretty n; ci_start_ms := None; ci_end_ms := None |}.

(** A concat request with [n] untrimmed inputs. *)
Definition clips_request (n : nat) : ConcatJobRequest :=
  {| inputs := List.map clip (seq 0 n); audio_track := None;
     cr_output_format := "mp4"; cr_metadata := ∅ |}.

Definition layer (n : nat) : OverlayAsset :=
  {| oa_media_id := "overlay-" +:+ pretty n; position_x := 0; position_y := 0;
     oa_start_ms := None; oa_end_ms := None;
     opacity := FDec false 1 0; scale := None |}.

(** An overlay request with [n] overlays. *)
Definition layers_request (n : nat) : OverlayJobRequest :=
  {| input_media_id := "base-video"; overlays := List.map layer (seq 0 n);
     or_output_format := "mp4"; or_metadata := ∅ |}.

End Samples.
Export Samples.

(* ===================================================================== *)
(** * Further statements about the job store                              *)
(* ===================================================================== *)

Module StoreStatements.

(** The keyword arguments of one [update_job] call that does what the call
    with [first] followed by the call with [second] does: a later argument
    wins over an earlier one, and the two [metadata] dictionaries are merged
    with the later one on top. *)
Definition then_args (first second : UpdateArgs) : UpdateArgs :=
  {| u_status := overwrite_opt (u_status second) (u_status first);
     u_progress := overwrite_opt (u_progress second) (u_progress first);
     u_result_media_id :=
       overwrite_opt (u_result_media_id second) (u_result_media_id first);
     u_message := overwrite_opt (u_message second) (u_message first);
     u_error := overwrite_opt (u_error second) (u_error first);
     u_metadata :=
       match u_metadata second, u_metadata first with
       | Some m2, Some m1 => Some (m2 ∪ m1)
       | Some m2, None => Some m2
       | None, m1 => m1
       end |}.

End StoreStatements.
Export StoreStatements.
(* ===================================================================== *)
(** * Further statements about the command builder                        *)
(* ===================================================================== *)

Module BuilderStatements.

(** The offsets of an overlay entry lie in the range of [ms_in_range]. *)
Definition spec_in_range (spec : OverlaySpec) : Prop :=
  ms_in_range (spec_start spec) ∧ ms_in_range (spec_end spec).

(** The label of the stream that the last of [n] overlays writes: [base]
    when there is none. *)
Definition last_label (n : nat) : string :=
  match n with O => "base" | _ => "ov" +:+ str_int (Z.of_nat n) end.

(** The file name that [overlay_video] gives its output. *)
Definition overlay_output_name (hex output_format : string) : string :=
  "overlay-" +:+ hex +:+ "." +:+ output_format.




End BuilderStatements.
Export BuilderStatements.
(* ===================================================================== *)
(** * Further statements about the pipelines                              *)
(* ===================================================================== *)

Module RunStatements.

(** ** The database *)

(** A property of the Redis database holds in a state. *)
Definition db_holds (R : gmap string JobRecord → Prop) (st : PState) : Prop :=
  R (db st).

(** ** Outcomes *)

(** The record of job [id], if there is one, says [SUCCEEDED] and names a
    result. *)
Definition recorded_success (id : string) (st : PState) : Prop :=
  ∀ r, db st !! _job_key id = Some r →
    status r = SUCCEEDED ∧ is_Some (result_media_id r).

(** The record of job [id] says [FAILED] only if it said so in [db0]. *)
Definition failed_as_in (db0 : gmap string JobRecord) (id : string)
    (st : PState) : Prop :=
  ∀ r, db st !! _job_key id = Some r → status r = FAILED →
    ∃ r0, db0 !! _job_key id = Some r0 ∧ status r0 = FAILED.

(** The exception of a [logger] call with the keyword [kwarg]. *)
Definition logger_type_error (kwarg : string) : exn :=
  Exception "TypeError"
    ("Logger._log() got an unexpected keyword argument '" +:+ kwarg +:+ "'").

(** The message that [on_failure] records for an exception. *)
Definition failure_message (unhandled_msg : string) (exc : exn) : string :=
  match exc with
  | FFmpegExecutionError _ _ => "FFmpeg command failed"
  | Exception _ _ => unhandled_msg
  end.

(** The message that [on_failure] logs for an exception. *)
Definition failure_log (log_msg : string) (exc : exn) : string :=
  match exc with
  | FFmpegExecutionError _ _ => "FFmpeg execution failed"
  | Exception _ _ => log_msg
  end.

(** ** Requests that the worker rejects *)


(** The number of inputs that get a progress report of their own, and the
    largest number of them for which every report stays within
    [0 .. 100]. *)
Definition reported_inputs (d : Delivery) : nat :=
  match d with
  | DeliverConcat payload => List.length (inputs payload)
  | DeliverOverlay payload => List.length (overlays payload)
  end.

Definition most_inputs (d : Delivery) : nat :=
  match d with
  | DeliverConcat _ => 10
  | DeliverOverlay _ => 18
  end.


(** ** Temporary files *)



(** ** The manifest *)

(** The text is the manifest of [n] paths. *)
Definition lists_inputs (n : nat) (text : string) : Prop :=
  ∃ paths, List.length paths = n ∧ text = generate_concat_filelist paths.

(** Every file written so far was written before ([tr0]) or is the
    manifest of [n] paths. *)
Definition manifests_list (tr0 : list Event) (n : nat) (st : PState) : Prop :=
  ∀ p text, EvWrite p text ∈ trace st →
    EvWrite p text ∈ tr0 ∨ lists_inputs n text.

(** Triples that speak about the value returned. *)
Definition hoare_val {A} (P : PState → Prop) (m : M A)
    (Q : A → PState → Prop) (J : PState → Prop) : Prop :=
  ∀ st, P st →
    match m st with
    | (Ok a, st') => Q a st'
    | (Raise _, st') => J st'
    end.

(** A computation that never returns normally. *)
Definition never_returns {A} (m : M A) : Prop :=
  hoare (λ _, True) m (λ _, False) (λ _, True).

End RunStatements.
Export RunStatements.
(* ===================================================================== *)
(** * api/routes.py                                                       *)
(* ===================================================================== *)

Module Routes.

(** [JobCreatedResponse] and [JobStatusResponse] of [job_models.py]. *)
Record JobCreatedResponse : Type := { jobId : string }.

Record JobStatusResponse : Type := {
  resp_job_id : string;
  resp_job_type : JobType;
  resp_status : JobStatus;
  resp_progress : option ProgressSnapshot;
  resp_result_media_id : option string;
  resp_message : option string;
  resp_error : option string;
  resp_created_at : Z;
  resp_updated_at : Z;
  resp_metadata : gmap string Any;
}.

(** How a handler ends: it returns its response, it raises
    [HTTPException], or an exception of a call it makes passes through. *)
Inductive Outcome (A : Type) : Type :=
| Returned (response : A)
| HTTPException (status_code : Z) (detail : string)
| Unhandled (e : exn).
Arguments Returned {A} response.
Arguments HTTPException {A} status_code detail.
Arguments Unhandled {A} e.

(** The application: [app.state.job_store] ([None] while it is not
    configured) with the records that store holds, and the messages that
    [apply_async] has put on the task queue, each with its job id and its
    payload. *)
Record App : Type := {
  job_store : option Backend;
  records : gmap string JobRecord;
  queue : list (string * Delivery);
}.

(** What the outside answers while one request is handled: [uuid4().hex],
    the successive readings of the clock, the round trip to Redis and the
    call to the broker. *)
Record Env : Type := {
  env_uuid4_hex : string;
  env_utcnow : nat → Z;
  env_redis_reply : option exn;
  env_broker_reply : option exn;
}.

(** [get_job_store]. *)
Definition get_job_store (app : App) : Result Backend :=
  match job_store app with
  | None => Raise (Exception "RuntimeError" "Job store not configured")
  | Some store => Ok store
  end.

(** The in-memory store works on a dictionary and has no call that
    fails; the Redis store makes one round trip per method. *)
Definition store_reply (env : Env) (store : Backend) : option exn :=
  match store with
  | InMemory => None
  | Redis => env_redis_reply env
  end.

(** [enqueue_concat_job] and [enqueue_overlay_job] of [tasks.py]. *)
Definition enqueue_concat_job (env : Env) (job_id : string)
    (payload : ConcatJobRequest) (app : App) : Result unit * App :=
  match env_broker_reply env with
  | Some e => (Raise e, app)
  | None =>
      (Ok tt, {| job_store := job_store app; records := records app;
                 queue := queue app ++ [(job_id, DeliverConcat payload)] |})
  end.

Definition enqueue_overlay_job (env : Env) (job_id : string)
    (payload : OverlayJobRequest) (app : App) : Result unit * App :=
  match env_broker_reply env with
  | Some e => (Raise e, app)
  | None =>
      (Ok tt, {| job_store := job_store app; records := records app;
                 queue := queue app ++ [(job_id, DeliverOverlay payload)] |})
  end.

(** [await job_store.create_job(record)]. *)
Definition store_create (env : Env) (store : Backend) (record : JobRecord)
    (app : App) : Result unit * App :=
  match store_reply env store with
  | Some e => (Raise e, app)
  | None =>
      ((create_job store record (records app)).1,
       {| job_store := job_store app;
          records := (create_job store record (records app)).2;
          queue := queue app |})
  end.

(** [submit_concat_job].  The two [datetime.utcnow] defaults of [JobRecord]
    are two readings of the clock. *)
Definition submit_concat_job (env : Env) (request_body : ConcatJobRequest)
    (app : App) : Outcome JobCreatedResponse * App :=
  match get_job_store app with
  | Raise e => (Unhandled e, app)
  | Ok store =>
      let job_id := env_uuid4_hex env in
      let record :=
        {| job_id := job_id; job_type := Concat;
           params := ConcatParams request_body;
           metadata := cr_metadata request_body;
           status := QUEUED; progress := None; result_media_id := None;
           message := None; error := None;
           created_at := env_utcnow env 0; updated_at := env_utcnow env 1 |} in
      match store_create env store record app with
      | (Raise e, app) => (Unhandled e, app)
      | (Ok _, app) =>
          match enqueue_concat_job env job_id request_body app with
          | (Raise e, app) => (Unhandled e, app)
          | (Ok _, app) => (Returned {| jobId := job_id |}, app)
          end
      end
  end.

(** [submit_overlay_job]. *)
Definition submit_overlay_job (env : Env) (request_body : OverlayJobRequest)
    (app : App) : Outcome JobCreatedResponse * App :=
  match get_job_store app with
  | Raise e => (Unhandled e, app)
  | Ok store =>
      let job_id := env_uuid4_hex env in
      let record :=
        {| job_id := job_id; job_type := Overlay;
           params := OverlayParams request_body;
           metadata := or_metadata request_body;
           status := QUEUED; progress := None; result_media_id := None;
           message := None; error := None;
           created_at := env_utcnow env 0; updated_at := env_utcnow env 1 |} in
      match store_create env store record app with
      | (Raise e, app) => (Unhandled e, app)
      | (Ok _, app) =>
          match enqueue_overlay_job env job_id request_body app with
          | (Raise e, app) => (Unhandled e, app)
          | (Ok _, app) => (Returned {| jobId := job_id |}, app)
          end
      end
  end.

(** [get_job_status]. *)
Definition get_job_status (env : Env) (job_id : string) (app : App)
    : Outcome JobStatusResponse :=
  match get_job_store app with
  | Raise e => Unhandled e
  | Ok store =>
      match store_reply env store with
      | Some e => Unhandled e
      | None =>
          match get_job store job_id (records app) with
          | None => HTTPException 404 "Job not found"
          | Some record =>
              Returned
                {| resp_job_id := JobModels.job_id record;
                   resp_job_type := job_type record;
                   resp_status := status record;
                   resp_progress := progress record;
                   resp_result_media_id := result_media_id record;
                   resp_message := message record;
                   resp_error := error record;
                   resp_created_at := created_at record;
                   resp_updated_at := updated_at record;
                   resp_metadata := metadata record |}
          end
      end
  end.

(** A submission of either kind. *)
Inductive Submission : Type :=
| SubmitConcat (request_body : ConcatJobRequest)
| SubmitOverlay (request_body : OverlayJobRequest).

Definition submit (env : Env) (s : Submission) (app : App)
    : Outcome JobCreatedResponse * App :=
  match s with
  | SubmitConcat request_body => submit_concat_job env request_body app
  | SubmitOverlay request_body => submit_overlay_job env request_body app
  end.

(** The record and the message that a submission is to produce. *)
Definition submitted_type (s : Submission) : JobType :=
  match s with SubmitConcat _ => Concat | SubmitOverlay _ => Overlay end.

Definition submitted_metadata (s : Submission) : gmap string Any :=
  match s with
  | SubmitConcat request_body => cr_metadata request_body
  | SubmitOverlay request_body => or_metadata request_body
  end.

Definition submitted_delivery (s : Submission) : Delivery :=
  match s with
  | SubmitConcat request_body => DeliverConcat request_body
  | SubmitOverlay request_body => DeliverOverlay request_body
  end.

Definition submitted_params (s : Submission) : JobParams :=
  match s with
  | SubmitConcat request_body => ConcatParams request_body
  | SubmitOverlay request_body => OverlayParams request_body
  end.

Definition submitted_record (env : Env) (s : Submission) : JobRecord :=
  {| job_id := env_uuid4_hex env; job_type := submitted_type s;
     params := submitted_params s; metadata := submitted_metadata s;
     status := QUEUED; progress := None; result_media_id := None;
     message := None; error := None;
     created_at := env_utcnow env 0; updated_at := env_utcnow env 1 |}.

(** The state in which a worker starts on the records of the application. *)
Definition worker_state (app : App) : PState :=
  {| tick := 0; db := records app; trace := [] |}.

(** The application after a worker has left the database as [st] has it. *)
Definition after_worker (app : App) (st : PState) : App :=
  {| job_store := job_store app; records := db st; queue := queue app |}.

End Routes.
Export Routes.
(* ===================================================================== *)
(** * ffmpeg/probe.py                                                     *)
(* ===================================================================== *)

Module Probe.

(** A [float]: a finite binary64 value, an infinity or NaN. *)
Inductive Float : Type :=
| Finite (x : Double)
| Infinity (neg : bool)
| NaN.

(** What [json.loads] returns. *)
#[local] Set Warnings "-register-all".
Inductive Json : Type :=
| JNull
| JBool (b : bool)
| JInt (z : Z)
| JFloat (x : Float)
| JStr (s : string)
| JList (items : list Json)
| JDict (d : gmap string Json).

(** [type(x).__name__]. *)
Definition type_name (x : Json) : string :=
  match x with
  | JNull => "NoneType"
  | JBool _ => "bool"
  | JInt _ => "int"
  | JFloat _ => "float"
  | JStr _ => "str"
  | JList _ => "list"
  | JDict _ => "dict"
  end.

(** [bool(x)]. *)
Definition truthy (x : Json) : bool :=
  match x with
  | JNull => false
  | JBool b => b
  | JInt z => negb (z =? 0)
  | JFloat (Finite d) => negb (d_m d =? 0)
  | JFloat _ => true
  | JStr s => negb (String.eqb s "")
  | JList items => match items with [] => false | _ => true end
  | JDict d => negb (bool_decide (d = ∅))
  end.

(** [x.get(key, default)]: only a [dict] has the method. *)
Definition get (x : Json) (key : string) (default : Json) : Result Json :=
  match x with
  | JDict d => Ok (from_option id default (d !! key))
  | _ => Raise (Exception "AttributeError"
                  ("'" +:+ type_name x +:+ "' object has no attribute 'get'"))
  end.

Fixpoint characters (s : string) : list Json :=
  match s with
  | EmptyString => []
  | String c rest => JStr (String c EmptyString) :: characters rest
  end.

(** [for s in x]: the elements of a list, the characters of a string, the
    keys of a dictionary; nothing else is iterable.  (The keys come in the
    order of the map, not in insertion order; every use below treats them
    alike.) *)
Definition iterate (x : Json) : Result (list Json) :=
  match x with
  | JList items => Ok items
  | JStr s => Ok (characters s)
  | JDict d => Ok (JStr <$> (map_to_list d).*1)
  | _ => Raise (Exception "TypeError"
                  ("'" +:+ type_name x +:+ "' object is not iterable"))
  end.

(** [v == kind] for a string [kind]. *)
Definition is_str (kind : string) (v : Json) : bool :=
  match v with JStr s => String.eqb s kind | _ => false end.

(** [[s for s in streams if s.get("codec_type") == kind]]. *)
Fixpoint streams_of_type (kind : string) (streams : list Json)
    : Result (list Json) :=
  match streams with
  | [] => Ok []
  | s :: rest =>
      match get s "codec_type" JNull with
      | Raise e => Raise e
      | Ok v =>
          match streams_of_type kind rest with
          | Raise e => Raise e
          | Ok selected => Ok (if is_str kind v then s :: selected else selected)
          end
      end
  end.

(** [float(n)] for an [int]: the nearest double, ties to even. *)
Definition float_of_int (n : Z) : Result Float :=
  if n =? 0 then Ok (Finite {| d_neg := false; d_m := 0; d_e := 0 |})
  else
    let '(m, e) := nearest_double (Z.abs n) 1 in
    if (0 <=? e) && (2 ^ 1024 <=? m * 2 ^ e)
    then Raise (Exception "OverflowError" "int too large to convert to float")
    else Ok (Finite {| d_neg := n <? 0; d_m := m; d_e := e |}).

(** [x * 1000] on a [float]: the nearest double to the exact product, an
    infinity past the largest double. *)
Definition times_1000 (x : Float) : Float :=
  match x with
  | Finite d =>
      if d_m d =? 0 then x
      else
        let '(m, e) := nearest_double (d_m d * 1000 * 2 ^ Z.max 0 (d_e d))
                         (2 ^ Z.max 0 (- d_e d)) in
        if (0 <=? e) && (2 ^ 1024 <=? m * 2 ^ e) then Infinity (d_neg d)
        else Finite {| d_neg := d_neg d; d_m := m; d_e := e |}
  | _ => x
  end.

(** [int(x)] on a [float]: truncation towards zero. *)
Definition int_of_float (x : Float) : Result Z :=
  match x with
  | Finite d =>
      let magnitude :=
        if 0 <=? d_e d then d_m d * 2 ^ d_e d else d_m d / 2 ^ (- d_e d) in
      Ok (if d_neg d then - magnitude else magnitude)
  | Infinity _ =>
      Raise (Exception "OverflowError" "cannot convert float infinity to integer")
  | NaN => Raise (Exception "ValueError" "cannot convert float NaN to integer")
  end.

Section Summary.

(** [float(s)] on a string: Python's parser of float literals. *)
Variable float_of_str : string → Result Float.

(** [float(x)]. *)
Definition float_of (x : Json) : Result Float :=
  match x with
  | JBool b => Ok (Finite {| d_neg := false; d_m := if b then 1 else 0; d_e := 0 |})
  | JInt n => float_of_int n
  | JFloat f => Ok f
  | JStr s => float_of_str s
  | _ => Raise (Exception "TypeError"
                  ("float() argument must be a string or a real number, not '"
                   +:+ type_name x +:+ "'"))
  end.

(** The streams of one kind among [metadata.get("streams", [])]. *)
Definition selected_streams (kind : string) (metadata : gmap string Json)
    : Result (list Json) :=
  match iterate (from_option id (JList []) (metadata !! "streams")) with
  | Raise e => Raise e
  | Ok streams => streams_of_type kind streams
  end.

(** [summarize_media]. *)
Definition summarize_media (metadata : gmap string Json)
    : Result (gmap string Json) :=
  let format_info := from_option id (JDict ∅) (metadata !! "format") in
  match get format_info "duration" JNull with
  | Raise e => Raise e
  | Ok shown =>
      match (if truthy shown then
               match get format_info "duration" (JInt 0) with
               | Raise e => Raise e
               | Ok v => match float_of v with
                         | Raise e => Raise e
                         | Ok x => Ok (Some x)
                         end
               end
             else Ok None) with
      | Raise e => Raise e
      | Ok duration =>
          match selected_streams "video" metadata with
          | Raise e => Raise e
          | Ok video_streams =>
              match selected_streams "audio" metadata with
              | Raise e => Raise e
              | Ok audio_streams =>
                  let summary : gmap string Json := ∅ in
                  match (match duration with
                         | Some x =>
                             match int_of_float (times_1000 x) with
                             | Raise e => Raise e
                             | Ok ms => Ok (<["durationMs" := JInt ms]> summary)
                             end
                         | None => Ok summary
                         end) with
                  | Raise e => Raise e
                  | Ok summary =>
                      match (match video_streams with
                             | video :: _ =>
                                 match get video "codec_name" JNull,
                                       get video "width" JNull,
                                       get video "height" JNull with
                                 | Ok codec, Ok width, Ok height =>
                                     Ok (<["height" := height]>
                                           (<["width" := width]>
                                              (<["videoCodec" := codec]> summary)))
                                 | Raise e, _, _ | _, Raise e, _ | _, _, Raise e =>
                                     Raise e
                                 end
                             | [] => Ok summary
                             end) with
                      | Raise e => Raise e
                      | Ok summary =>
                          match audio_streams with
                          | audio :: _ =>
                              match get audio "codec_name" JNull,
                                    get audio "channels" JNull with
                              | Ok codec, Ok channels =>
                                  Ok (<["audioChannels" := channels]>
                                        (<["audioCodec" := codec]> summary))
                              | Raise e, _ | _, Raise e => Raise e
                              end
                          | [] => Ok summary
                          end
                      end
                  end
              end
          end
      end
  end.

End Summary.

(** The keys of a summary. *)
Definition summary_keys : gset string :=
  {[ "durationMs"; "videoCodec"; "width"; "height"; "audioCodec"; "audioChannels" ]}.


Definition is_object (x : Json) : bool :=
  match x with JDict _ => true | _ => false end.

(** [s.get(key)] on an object. *)
Definition field (key : string) (s : Json) : Json :=
  match s with
  | JDict d => from_option id JNull (d !! key)
  | _ => JNull
  end.

(** The three groups of entries of a summary. *)
Definition with_duration (ms : option Z) (summary : gmap string Json)
    : gmap string Json :=
  match ms with
  | Some n => <["durationMs" := JInt n]> summary
  | None => summary
  end.

Definition with_video (video : option Json) (summary : gmap string Json)
    : gmap string Json :=
  match video with
  | Some v =>
      <["height" := field "height" v]>
        (<["width" := field "width" v]>
           (<["videoCodec" := field "codec_name" v]> summary))
  | None => summary
  end.

Definition with_audio (audio : option Json) (summary : gmap string Json)
    : gmap string Json :=
  match audio with
  | Some a =>
      <["audioChannels" := field "channels" a]>
        (<["audioCodec" := field "codec_name" a]> summary)
  | None => summary
  end.


(** What [ffprobe] prints for a clip of ten and a half seconds with one
    video and one audio stream, and a [float] that reads [10.5] whatever
    the string. *)
Definition sample_probe : gmap string Json :=
  {[ "format" := JDict {[ "duration" := JStr "10.500000" ]};
     "streams" :=
       JList [ JDict {[ "codec_type" := JStr "video"; "codec_name" := JStr "h264";
                        "width" := JInt 1280; "height" := JInt 720 ]};
               JDict {[ "codec_type" := JStr "audio"; "codec_name" := JStr "aac";
                        "channels" := JInt 2 ]} ] ]}.

Definition sample_float_of_str (s : string) : Result Float :=
  Ok (Finite {| d_neg := false; d_m := 21; d_e := -1 |}).

Definition sample_summary : gmap string Json :=
  {[ "durationMs" := JInt 10500;
     "videoCodec" := JStr "h264"; "width" := JInt 1280; "height" := JInt 720;
     "audioCodec" := JStr "aac"; "audioChannels" := JInt 2 ]}.

End Probe.
(* ===================================================================== *)
(** * Properties of the job store                                         *)
(* ===================================================================== *)

Section StoreFacts.

Implicit Types (r record old : JobRecord) (a : UpdateArgs) (now : Z).
Implicit Types (b : Backend) (s : gmap string JobRecord) (id : string).

Lemma job_key_inj id1 id2 : _job_key id1 = _job_key id2 → id1 = id2.
Proof. unfold _job_key. intros H. by simplify_eq/=. Qed.

Lemma create_job_unfold b record s :
  create_job b record s = (Ok tt, <[key_of b (job_id record) := record]> s).
Proof. by destruct b. Qed.

Lemma update_job_unfold b now id a s :
  update_job b now id a s =
    match s !! key_of b id with
    | None => (None, s)
    | Some r => (Some (apply_update now a r),
                 <[key_of b id := apply_update now a r]> s)
    end.
Proof. by destruct b. Qed.

Lemma update_job_present b now id a s r :
  s !! key_of b id = Some r →
  update_job b now id a s =
    (Some (apply_update now a r), <[key_of b id := apply_update now a r]> s).
Proof. intros H. by rewrite update_job_unfold, H. Qed.

Lemma update_job_absent b now id a s :
  s !! key_of b id = None → update_job b now id a s = (None, s).
Proof. intros H. by rewrite update_job_unfold, H. Qed.

Lemma update_job_lookup b now id a s :
  (update_job b now id a s).2 !! key_of b id
  = apply_update now a <$> s !! key_of b id.
Proof.
  rewrite update_job_unfold.
  destruct (s !! key_of b id) as [r|] eqn:E; simpl.
  - by rewrite lookup_insert_eq.
  - by rewrite E.
Qed.

Lemma update_job_frame b now id a s k :
  k ≠ key_of b id → (update_job b now id a s).2 !! k = s !! k.
Proof.
  intros Hk. rewrite update_job_unfold.
  destruct (s !! key_of b id); simpl; [|done].
  by rewrite lookup_insert_ne.
Qed.

Lemma update_many_lookup b id calls s :
  update_many b id calls s !! key_of b id
  = (λ r, foldl (λ r c, apply_update c.1 c.2 r) r calls) <$> s !! key_of b id.
Proof.
  unfold update_many. revert s.
  induction calls as [|[now a] calls IH]; intros s; simpl.
  - by destruct (s !! key_of b id).
  - rewrite IH, update_job_lookup. by destruct (s !! key_of b id).
Qed.

Lemma apply_update_keeps_error now a r :
  is_Some (error r) → is_Some (error (apply_update now a r)).
Proof. simpl. destruct (u_error a); eauto. Qed.

Lemma apply_update_keeps_result now a r :
  is_Some (result_media_id r) → is_Some (result_media_id (apply_update now a r)).
Proof. simpl. destruct (u_result_media_id a); eauto. Qed.

Lemma apply_many_keeps (calls : list (Z * UpdateArgs)) r :
  let r' := foldl (λ r c, apply_update c.1 c.2 r) r calls in
  (is_Some (error r) → is_Some (error r'))
  ∧ (is_Some (result_media_id r) → is_Some (result_media_id r')).
Proof.
  revert r. induction calls as [|[now a] calls IH]; intros r; simpl; [done|].
  destruct (IH (apply_update now a r)) as [He Hr]. split; intros H.
  - apply He. by apply apply_update_keeps_error.
  - apply Hr. by apply apply_update_keeps_result.
Qed.

End StoreFacts.

(** ** C6: [create] on an id that is taken *)

(** C6, counterexample.  In both stores [create_job] of a record whose id
    is present returns normally and the stored record is the new one: the
    contract sentence fails for each backend. *)
Lemma create_job_taken_id_counterexample :
  (create_job InMemory sample_new (sample_store InMemory)).1 = Ok tt
  ∧ (create_job InMemory sample_new (sample_store InMemory)).2 !! "job-1" = Some sample_new
  ∧ (create_job Redis sample_new (sample_store Redis)).1 = Ok tt
  ∧ (create_job Redis sample_new (sample_store Redis)).2 !! "video-job:job-1" = Some sample_new
  ∧ sample_new ≠ sample_old
  ∧ ¬ create_fails_on_taken_id InMemory
  ∧ ¬ create_fails_on_taken_id Redis.
Proof.
  assert (Hne : sample_new ≠ sample_old) by (intros H; discriminate (f_equal job_type H)).
  split; [reflexivity|]. split; [apply lookup_insert_eq|].
  split; [reflexivity|].
  split; [apply (lookup_insert_eq (sample_store Redis) "video-job:job-1")|].
  split; [exact Hne|]. split.
  - intros H.
    destruct (H (sample_store InMemory) sample_new sample_old) as [[e He] _].
    + apply lookup_singleton_eq.
    + discriminate He.
  - intros H.
    destruct (H (sample_store Redis) sample_new sample_old) as [[e He] _].
    + apply (lookup_singleton_eq (key_of Redis "job-1")).
    + discriminate He.
Qed.

(** C6, as the code has it.  For each backend and each id that is present,
    [create_job] with a record carrying that id returns normally (nothing is
    raised), the store then holds the new record under that id, and every
    other key keeps its value. *)
Theorem create_job_overwrites (b : Backend) (s : gmap string JobRecord)
    (record old : JobRecord) :
  s !! key_of b (job_id record) = Some old →
  (create_job b record s).1 = Ok tt
  ∧ get_job b (job_id record) (create_job b record s).2 = Some record
  ∧ delete (key_of b (job_id record)) (create_job b record s).2
    = delete (key_of b (job_id record)) s.
Proof.
  intros _. rewrite create_job_unfold; simpl. split_and!; [done| |].
  - destruct b; apply lookup_insert_eq.
  - apply delete_insert_eq.
Qed.

Lemma create_job_overwrites_witness :
  sample_store Redis !! key_of Redis (job_id sample_new) = Some sample_old
  ∧ (create_job Redis sample_new (sample_store Redis)).1 = Ok tt
  ∧ get_job Redis (job_id sample_new) (create_job Redis sample_new (sample_store Redis)).2
    = Some sample_new
  ∧ delete (key_of Redis (job_id sample_new)) (create_job Redis sample_new (sample_store Redis)).2
    = delete (key_of Redis (job_id sample_new)) (sample_store Redis).
Proof.
  assert (H : sample_store Redis !! key_of Redis (job_id sample_new) = Some sample_old)
    by apply (lookup_singleton_eq (key_of Redis "job-1")).
  split; [exact H|].
  exact (create_job_overwrites Redis (sample_store Redis) sample_new sample_old H).
Defined.

(** ** C7: metadata merge *)

(** C7.  For each backend and each record that is present: an update that
    carries a metadata map [m] returns the new record and stores it, with
    [updated_at] set to the time of the call and the metadata equal to the
    old map overlaid by [m] (a key of [m] takes [m]'s value, any other key
    keeps its old value).  Two such updates in a row, with maps [m1] then
    [m2], leave the old metadata overlaid by [m1] and then by [m2]: a key of
    [m2] has [m2]'s value, a key of [m1] alone has [m1]'s value, and when the
    key sets are disjoint the result is the old map overlaid by the union of
    the two.  An update to an id that is absent returns [None] and leaves the
    store as it was. *)
Theorem update_job_merges_metadata (b : Backend) :
  (∀ (s : gmap string JobRecord) id r now a m,
      s !! key_of b id = Some r → u_metadata a = Some m →
      ∃ r', update_job b now id a s = (Some r', <[key_of b id := r']> s)
            ∧ updated_at r' = now
            ∧ metadata r' = m ∪ metadata r
            ∧ ∀ k, metadata r' !! k
                   = match m !! k with Some v => Some v | None => metadata r !! k end)
  ∧ (∀ (s : gmap string JobRecord) id r now1 now2 a1 a2 m1 m2,
        s !! key_of b id = Some r →
        u_metadata a1 = Some m1 → u_metadata a2 = Some m2 →
        ∃ r2, get_job b id (update_job b now2 id a2 (update_job b now1 id a1 s).2).2 = Some r2
              ∧ updated_at r2 = now2
              ∧ metadata r2 = m2 ∪ (m1 ∪ metadata r)
              ∧ (m1 ##ₘ m2 → metadata r2 = (m1 ∪ m2) ∪ metadata r)
              ∧ (∀ k v, m2 !! k = Some v → metadata r2 !! k = Some v)
              ∧ (∀ k v, m1 !! k = Some v → m2 !! k = None → metadata r2 !! k = Some v)
              ∧ (∀ k, m1 !! k = None → m2 !! k = None → metadata r2 !! k = metadata r !! k))
  ∧ (∀ (s : gmap string JobRecord) id now a,
        s !! key_of b id = None → update_job b now id a s = (None, s)).
Proof.
  split_and!.
  - intros s id r now a m Hs Hm. eexists. split; [by apply update_job_present|].
    simpl. rewrite Hm. split_and!; [done..|].
    intros k. rewrite lookup_union. by destruct (m !! k), (metadata r !! k).
  - intros s id r now1 now2 a1 a2 m1 m2 Hs H1 H2.
    assert (Hl : get_job b id (update_job b now2 id a2 (update_job b now1 id a1 s).2).2
                 = Some (apply_update now2 a2 (apply_update now1 a1 r))).
    { replace (get_job b id) with (λ st : gmap string JobRecord, st !! key_of b id)
        by (by destruct b).
      simpl. by rewrite !update_job_lookup, Hs. }
    eexists. split; [exact Hl|]. simpl. rewrite H1, H2.
    split_and!; [done..| | | |].
    + intros Hd. by rewrite (map_union_comm m1 m2), (assoc_L (∪)).
    + intros k v Hk. by apply lookup_union_Some_l.
    + intros k v Hk1 Hk2. rewrite lookup_union_r by done.
      by apply lookup_union_Some_l.
    + intros k Hk1 Hk2. by rewrite !lookup_union_r.
  - intros s id now a Hs. by apply update_job_absent.
Qed.

Lemma update_job_merges_metadata_witness :
  let s := sample_store Redis in
  let m1 : gmap string Any := {[ "width" := AInt 1280 ]} in
  let m2 : gmap string Any := {[ "height" := AInt 720 ]} in
  s !! key_of Redis "job-1" = Some sample_old
  ∧ m1 ##ₘ m2
  ∧ s !! key_of Redis "job-2" = None
  ∧ (∃ r2, get_job Redis "job-1"
             (update_job Redis 2 "job-1" (sample_args m2)
                (update_job Redis 1 "job-1" (sample_args m1) s).2).2 = Some r2
           ∧ updated_at r2 = 2
           ∧ metadata r2 = (m1 ∪ m2) ∪ metadata sample_old)
  ∧ update_job Redis 3 "job-2" (sample_args m1) s = (None, s).
Proof.
  intros s m1 m2.
  assert (Hs : s !! key_of Redis "job-1" = Some sample_old)
    by apply (lookup_singleton_eq (key_of Redis "job-1")).
  assert (Hd : m1 ##ₘ m2) by (by apply map_disjoint_singleton_l_2).
  assert (Hn : s !! key_of Redis "job-2" = None) by (by apply lookup_singleton_ne).
  split; [exact Hs|]. split; [exact Hd|]. split; [exact Hn|].
  destruct (update_job_merges_metadata Redis) as (_ & Htwo & Habs).
  destruct (Htwo s "job-1" sample_old 1 2 (sample_args m1) (sample_args m2) m1 m2
              Hs eq_refl eq_refl) as (r2 & Hg & Hu & _ & Hdisj & _).
  split.
  - exists r2. split; [exact Hg|]. split; [exact Hu|]. exact (Hdisj Hd).
  - exact (Habs s "job-2" 3 (sample_args m1) Hn).
Defined.

(** ** C10: what an update leaves alone *)

(** C10.  For each backend and each record that is present, [update_job]
    returns and stores a record in which [job_id], [job_type], [params] and
    [created_at] are those of the old record, every field whose argument is
    omitted ([None]) keeps its old value, no metadata key disappears, and
    every other key of the store keeps its record.  An error or a result
    reference that is set stays set, after one update and after any sequence
    of updates. *)
Theorem update_job_frame_fields (b : Backend) (s : gmap string JobRecord)
    (id : string) (r : JobRecord) (now : Z) (a : UpdateArgs) :
  s !! key_of b id = Some r →
  (∃ r', update_job b now id a s = (Some r', <[key_of b id := r']> s)
         ∧ delete (key_of b id) (update_job b now id a s).2 = delete (key_of b id) s
         ∧ job_id r' = job_id r ∧ job_type r' = job_type r
         ∧ params r' = params r ∧ created_at r' = created_at r
         ∧ (u_status a = None → status r' = status r)
         ∧ (u_progress a = None → progress r' = progress r)
         ∧ (u_result_media_id a = None → result_media_id r' = result_media_id r)
         ∧ (u_message a = None → message r' = message r)
         ∧ (u_error a = None → error r' = error r)
         ∧ (u_metadata a = None → metadata r' = metadata r)
         ∧ dom (metadata r) ⊆ dom (metadata r')
         ∧ (is_Some (progress r) → is_Some (progress r'))
         ∧ (is_Some (result_media_id r) → is_Some (result_media_id r'))
         ∧ (is_Some (message r) → is_Some (message r'))
         ∧ (is_Some (error r) → is_Some (error r')))
  ∧ (∀ calls : list (Z * UpdateArgs),
        ∃ r', update_many b id calls s !! key_of b id = Some r'
              ∧ (is_Some (result_media_id r) → is_Some (result_media_id r'))
              ∧ (is_Some (error r) → is_Some (error r'))).
Proof.
  intros Hs. split.
  - eexists. split; [by apply update_job_present|].
    rewrite (update_job_present _ _ _ _ _ _ Hs). simpl.
    split; [apply delete_insert_eq|].
    split_and!; try done.
    + by intros ->.
    + by intros ->.
    + by intros ->.
    + by intros ->.
    + by intros ->.
    + by intros ->.
    + destruct (u_metadata a); [|done]. rewrite dom_union. set_solver.
    + destruct (u_progress a); eauto.
    + destruct (u_result_media_id a); eauto.
    + destruct (u_message a); eauto.
    + destruct (u_error a); eauto.
  - intros calls. rewrite update_many_lookup, Hs. simpl. eexists. split; [done|].
    destruct (apply_many_keeps calls r) as [He Hr]. by split.
Qed.

Lemma update_job_frame_fields_witness :
  let s : gmap string JobRecord := {[ key_of InMemory "job-1" := sample_failed ]} in
  let calls := [ (160, no_update); (170, sample_args ∅) ] in
  s !! key_of InMemory "job-1" = Some sample_failed
  ∧ is_Some (error sample_failed)
  ∧ (∃ r', (update_job InMemory 160 "job-1" no_update s).1 = Some r'
           ∧ status r' = FAILED ∧ error r' = Some "exit 1")
  ∧ (∃ r', update_many InMemory "job-1" calls s !! key_of InMemory "job-1" = Some r'
           ∧ is_Some (error r')).
Proof.
  intros s calls.
  assert (Hs : s !! key_of InMemory "job-1" = Some sample_failed)
    by apply lookup_singleton_eq.
  assert (He : is_Some (error sample_failed)) by (by eexists).
  split; [exact Hs|]. split; [exact He|].
  destruct (update_job_frame_fields InMemory s "job-1" sample_failed 160 no_update Hs)
    as [(r' & Hu & _ & _ & _ & _ & _ & Hst & _ & _ & _ & Herr & _) Hmany].
  split.
  - exists r'. rewrite Hu. split; [done|].
    split; [exact (Hst eq_refl)|exact (Herr eq_refl)].
  - destruct (Hmany calls) as (r'' & Hl & _ & Hkeep).
    exists r''. split; [exact Hl|exact (Hkeep He)].
Defined.

(* ===================================================================== *)
(** * Properties of the command builder                                   *)
(* ===================================================================== *)

Section StringFacts.

Implicit Types (s t u : string) (l : list string).

Lemma append_cons c s t : String c s +:+ t = String c (s +:+ t).
Proof. reflexivity. Qed.


Lemma append_assoc s t u : (s +:+ t) +:+ u = s +:+ (t +:+ u).
Proof. induction s as [|c s IH]; [done|]. by rewrite !append_cons, IH. Qed.

Lemma endswith_refl s : endswith s s = true.
Proof. destruct s; simpl; [done|]. by rewrite Ascii.eqb_refl, String.eqb_refl. Qed.

Lemma endswith_app s suffix : endswith (s +:+ suffix) suffix = true.
Proof.
  induction s as [|c s IH].
  - apply endswith_refl.
  - rewrite append_cons. cbn [endswith]. rewrite IH. apply orb_true_r.
Qed.

Lemma endswith_app_r s t suffix :
  endswith t suffix = true → endswith (s +:+ t) suffix = true.
Proof.
  intros H. induction s as [|c s IH]; [done|].
  rewrite append_cons. cbn [endswith]. rewrite IH. apply orb_true_r.
Qed.

Lemma join_snoc sep l s :
  join sep (l ++ [s])
  = match l with [] => s | _ => join sep l +:+ sep +:+ s end.
Proof.
  induction l as [|x l IH]; [done|].
  destruct l as [|y l]; [done|].
  change (join sep ((x :: y :: l) ++ [s]))
    with (x +:+ sep +:+ join sep ((y :: l) ++ [s])).
  rewrite IH.
  change (join sep (x :: y :: l)) with (x +:+ sep +:+ join sep (y :: l)).
  by rewrite !append_assoc.
Qed.

Lemma join_snoc_endswith sep l s suffix :
  endswith s suffix = true → endswith (join sep (l ++ [s])) suffix = true.
Proof.
  intros H. rewrite join_snoc. destruct l; [done|].
  rewrite <-append_assoc. by apply endswith_app_r.
Qed.

Lemma has_pair_app a b l1 l2 : has_pair a b (l1 ++ a :: b :: l2) = true.
Proof.
  induction l1 as [|x l1 IH]; simpl.
  - by rewrite !String.eqb_refl.
  - destruct (l1 ++ a :: b :: l2) eqn:E; [by destruct l1|].
    rewrite IH. apply orb_true_r.
Qed.

(** [has_pair] says what it should: the two strings are adjacent in the
    list. *)
Lemma has_pair_spec a b l :
  has_pair a b l = true ↔ ∃ l1 l2, l = l1 ++ a :: b :: l2.
Proof.
  split; [|intros (l1 & l2 & ->); apply has_pair_app].
  induction l as [|x l IH]; [done|]. destruct l as [|y l]; [done|].
  change (has_pair a b (x :: y :: l))
    with ((String.eqb x a && String.eqb y b) || has_pair a b (y :: l)).
  intros H. apply orb_true_iff in H as [H|H].
  - apply andb_true_iff in H as [Hx Hy].
    apply String.eqb_eq in Hx, Hy. subst. by exists [], l.
  - destruct (IH H) as (l1 & l2 & ->). by exists (x :: l1), l2.
Qed.

Lemma last_snoc {A} (l : list A) (x d : A) : List.last (l ++ [x]) d = x.
Proof. induction l as [|y l IH]; [done|]. simpl. by destruct (l ++ [x]) eqn:E; [destruct l|]. Qed.

End StringFacts.

(** ** C3: the concat command *)

(** What [with_suffix] yields on a path that has a name, for the suffix
    [.fmt] of a format that is not empty and holds no slash. *)
Lemma with_suffix_ok (p : Path) (fmt : string) :
  path_name p ≠ "" → fmt ≠ "" → contains "/" fmt = false →
  ∃ out, with_suffix p ("." +:+ fmt) = Ok out
         ∧ endswith (path_str out) ("." +:+ fmt) = true.
Proof.
  intros Hname Hfmt Hslash. unfold with_suffix.
  assert (contains "/" ("." +:+ fmt) = false) as ->
    by (rewrite append_cons; simpl; exact Hslash).
  assert (String.eqb ("." +:+ fmt) "." = false) as ->.
  { apply String.eqb_neq. rewrite append_cons. intros [=]. done. }
  assert (String.eqb ("." +:+ fmt) "" = false) as -> by done.
  assert (String.prefix "." ("." +:+ fmt) = true) as -> by (by destruct fmt).
  cbn [negb andb orb].
  apply String.eqb_neq in Hname. rewrite Hname.
  eexists. split; [reflexivity|].
  unfold path_str. cbn [root parts].
  set (name' := if String.eqb (path_suffix p) "" then _ else _).
  assert (Hn : endswith name' ("." +:+ fmt) = true).
  { subst name'. destruct (String.eqb (path_suffix p) ""); apply endswith_app. }
  assert (Hj : endswith (join "/" (removelast (parts p) ++ [name'])) ("." +:+ fmt) = true)
    by (by apply join_snoc_endswith).
  destruct (root p) as [|c r].
  - destruct (removelast (parts p) ++ [name']) eqn:E; [by destruct (removelast (parts p))|].
    exact Hj.
  - by apply endswith_app_r.
Qed.

(** C3.  For every encoder binary, manifest path and output path that has a
    file name: with [crf=23], [output_format="mp4"] and
    [audio_passthrough=False] the builder returns an argument list that
    holds the adjacent pairs [-f concat], [-safe 0], [-crf 23] and
    [-c:a aac] and whose last element ends in [.mp4]; with
    [audio_passthrough=True] the list holds [-c:a copy] and nowhere the
    pair [-c:a aac]. *)
Theorem build_concat_command_crf23_mp4 (ffmpeg_binary : string)
    (filelist_path output_path : Path) :
  path_name output_path ≠ "" →
  (∃ cmd, build_concat_command ffmpeg_binary filelist_path output_path "mp4" 23 false
          = Ok cmd
          ∧ has_pair "-f" "concat" cmd = true
          ∧ has_pair "-safe" "0" cmd = true
          ∧ has_pair "-crf" "23" cmd = true
          ∧ has_pair "-c:a" "aac" cmd = true
          ∧ endswith (List.last cmd "") ".mp4" = true)
  ∧ (∃ cmd, build_concat_command ffmpeg_binary filelist_path output_path "mp4" 23 true
            = Ok cmd
            ∧ has_pair "-f" "concat" cmd = true
            ∧ has_pair "-safe" "0" cmd = true
            ∧ has_pair "-crf" "23" cmd = true
            ∧ has_pair "-c:a" "copy" cmd = true
            ∧ has_pair "-c:a" "aac" cmd = false
            ∧ endswith (List.last cmd "") ".mp4" = true).
Proof.
  intros Hname.
  destruct (with_suffix_ok output_path "mp4" Hname) as (out & Hout & Hend); [done..|].
  unfold build_concat_command. rewrite Hout.
  change (str_int 23) with "23".
  split; eexists; (split; [reflexivity|]).
  - split; [apply (has_pair_app _ _ [_; _])|].
    split; [apply (has_pair_app _ _ [_; _; _; _])|].
    split; [apply (has_pair_app _ _ [_; _; _; _; _; _; _; _; _; _; _; _])|].
    split; [apply (has_pair_app _ _ [_; _; _; _; _; _; _; _; _; _; _; _; _; _; _; _])|].
    exact Hend.
  - split; [apply (has_pair_app _ _ [_; _])|].
    split; [apply (has_pair_app _ _ [_; _; _; _])|].
    split; [apply (has_pair_app _ _ [_; _; _; _; _; _; _; _; _; _; _; _])|].
    split; [apply (has_pair_app _ _ [_; _; _; _; _; _; _; _; _; _; _; _; _; _; _; _])|].
    split; [|exact Hend].
    cbn -[String.eqb]. rewrite !andb_false_r. reflexivity.
Qed.

Lemma build_concat_command_crf23_mp4_witness :
  let out := parse "/tmp/mcp-video-processing/video-job-1/output" in
  let fl := parse "/tmp/mcp-video-processing/video-job-1/inputs.txt" in
  path_name out ≠ ""
  ∧ (∃ cmd, build_concat_command "ffmpeg" fl out "mp4" 23 false = Ok cmd
            ∧ has_pair "-c:a" "aac" cmd = true
            ∧ endswith (List.last cmd "") ".mp4" = true)
  ∧ (∃ cmd, build_concat_command "ffmpeg" fl out "mp4" 23 true = Ok cmd
            ∧ has_pair "-c:a" "copy" cmd = true
            ∧ has_pair "-c:a" "aac" cmd = false).
Proof.
  intros out fl.
  assert (Hn : path_name out ≠ "") by (vm_compute; discriminate).
  split; [exact Hn|].
  destruct (build_concat_command_crf23_mp4 "ffmpeg" fl out Hn)
    as [(c1 & E1 & _ & _ & _ & A1 & L1) (c2 & E2 & _ & _ & _ & A2 & N2 & _)].
  split.
  - exists c1. split; [exact E1|]. split; [exact A1|exact L1].
  - exists c2. split; [exact E2|]. split; [exact A2|exact N2].
Defined.

(** ** C4: the overlay filter graph *)

(** C4.  For the single overlay at [(10, 20)], from 0 ms to 1000 ms, with
    opacity 0.5 and scale 0.5, the builder returns a graph of four
    semicolon-separated segments: the normalisation of the base video, the
    overlay's own chain with the stages [scale=iw*0.5:ih*0.5] and
    [colorchannelmixer=aa=0.5], the composite
    [overlay=x=10:y=20:enable='gte(t,0.000)*lte(t,1.000)'], and last
    [[ov1]setsar=1[outv]], which applies [setsar=1] to the composite and
    names the terminal output. *)
Theorem build_overlay_filter_single :
  ∃ graph,
    build_overlay_filter [sample_overlay] = Ok graph
    ∧ contains "scale=iw*0.5:ih*0.5" graph = true
    ∧ contains "colorchannelmixer=aa=0.5" graph = true
    ∧ contains "overlay=x=10:y=20:enable='gte(t,0.000)*lte(t,1.000)'" graph = true
    ∧ split_on ";" graph
      = [ "[0:v]" +:+ DEFAULT_SCALE_FILTER +:+ "[base]";
          "[1:v]scale=iw*0.5:ih*0.5,format=rgba,colorchannelmixer=aa=0.5[overlay1]";
          "[base][overlay1]overlay=x=10:y=20:enable='gte(t,0.000)*lte(t,1.000)'[ov1]";
          "[ov1]setsar=1[outv]" ]
    ∧ List.last (split_on ";" graph) "" = "[ov1]setsar=1[outv]".
Proof. eexists. split; [vm_compute; reflexivity|]. by vm_compute. Qed.

(** ** C5: the concat manifest *)


Section ManifestFacts.

Implicit Types (s t : string) (l lines : list string).





Lemma split_on_nonempty sep s : split_on sep s ≠ [].
Proof.
  destruct s as [|c s]; [done|]. cbn [split_on].
  destruct (Ascii.eqb c sep); [done|]. by destruct (split_on sep s).
Qed.






End ManifestFacts.



(* ===================================================================== *)
(** * Properties of the millisecond rendering and of trim commands        *)
(* ===================================================================== *)

Section Rounding.

Lemma round_half_even_near (x q a : Z) :
  0 < q → 2 * Z.abs (x - a * q) < q → round_half_even x q = a.
Proof.
  intros Hq Hnear. unfold round_half_even.
  destruct (Z_le_gt_dec (a * q) x) as [Hle|Hgt].
  - assert (Hd : x / q = a) by (symmetry; apply (Z.div_unique x q a (x - a * q)); lia).
    assert (Hm : x mod q = x - a * q) by (symmetry; apply (Z.mod_unique x q a); lia).
    rewrite Hd, Hm. destruct (Z.compare_spec (2 * (x - a * q)) q); lia.
  - assert (Hd : x / q = a - 1)
      by (symmetry; apply (Z.div_unique x q (a - 1) (x - (a - 1) * q)); lia).
    assert (Hm : x mod q = x - (a - 1) * q)
      by (symmetry; apply (Z.mod_unique x q (a - 1)); lia).
    rewrite Hd, Hm. destruct (Z.compare_spec (2 * (x - (a - 1) * q)) q); lia.
Qed.

Lemma round_half_even_error (p q : Z) :
  0 < q → 2 * Z.abs (q * round_half_even p q - p) ≤ q.
Proof.
  intros Hq. unfold round_half_even.
  pose proof (Z.div_mod p q ltac:(lia)) as Hdm.
  pose proof (Z.mod_pos_bound p q Hq) as Hb.
  destruct (Z.compare_spec (2 * (p mod q)) q); [|lia|lia].
  destruct (Z.even (p / q)); lia.
Qed.

(** Dividing by 1000 into a significand scaled by [2^k] and rounding the
    result back to thousandths returns the integer one started from, as
    soon as [k >= 10]. *)
Lemma round_trip_thousandths (a k : Z) :
  10 ≤ k → round_half_even (round_half_even (a * 2 ^ k) 1000 * 1000) (2 ^ k) = a.
Proof.
  intros Hk.
  assert (H2k : 1024 ≤ 2 ^ k).
  { change 1024 with (2 ^ 10). apply Z.pow_le_mono_r; lia. }
  pose proof (round_half_even_error (a * 2 ^ k) 1000 ltac:(lia)) as He.
  apply round_half_even_near; lia.
Qed.

(** Below [2^52] the double nearest to [a / 1000] has a binary exponent of
    at most [-10]. *)
Lemma nearest_double_thousandth (a : Z) :
  0 < a < 2 ^ 52 →
  ∃ k, 10 ≤ k ∧ nearest_double a 1000 = (round_half_even (a * 2 ^ k) 1000, - k).
Proof.
  intros Ha. unfold nearest_double.
  change (Z.log2 1000) with 9.
  assert (Hlog : Z.log2 a < 52) by (apply Z.log2_lt_pow2; lia).
  set (e0 := Z.log2 a - 9 - 52).
  set (e1 := if _ <? _ then e0 - 1 else e0).
  assert (He1 : e1 ≤ -10) by (subst e1 e0; destruct (_ <? _); lia).
  set (e := Z.max e1 (-1074)).
  assert (He : e ≤ -10) by (subst e; lia).
  exists (- e). split; [lia|].
  replace (Z.max 0 (- e)) with (- e) by lia.
  replace (Z.max 0 e) with 0 by lia.
  rewrite Z.opp_involutive. by rewrite Z.pow_0_r, Z.mul_1_r.
Qed.

(** Below [2^52] milliseconds, [f"{ms / 1000:.3f}"] is the exact quotient
    written with three decimals. *)
Lemma fmt_ms_as_seconds_exact (ms : Z) :
  - 2 ^ 52 < ms < 2 ^ 52 → fmt_ms_as_seconds ms = Ok (decimal_seconds ms).
Proof.
  intros Hms. unfold fmt_ms_as_seconds, int_truediv.
  change (1000 =? 0) with false. cbv iota.
  destruct (Z.eqb_spec ms 0) as [->|Hnz]; [reflexivity|].
  change (Z.abs 1000) with 1000.
  destruct (nearest_double_thousandth (Z.abs ms)) as (k & Hk & ->); [lia|].
  assert ((0 <=? - k) = false) as Hneg by lia.
  rewrite Hneg. cbn [andb]. f_equal.
  unfold fmt_3f, decimal_seconds. cbn [d_neg d_m d_e].
  rewrite Hneg, Z.opp_involutive, round_trip_thousandths by done.
  change (1000 <? 0) with false. by rewrite xorb_false_r.
Qed.

End Rounding.

(* ===================================================================== *)
(** * Rules for runs                                                      *)
(* ===================================================================== *)

Section Hoare.

Implicit Types (P Q R J : PState → Prop) (st : PState) (e : exn).

Lemma hoare_ret {A} P Q J (a : A) :
  (∀ st, P st → Q st) → hoare P (mret a) Q J.
Proof. intros H st HP. by apply H. Qed.

Lemma hoare_raise {A} P Q J e :
  (∀ st, P st → J st) → hoare P (@raise A e) Q J.
Proof. intros H st HP. by apply H. Qed.

Lemma hoare_lift {A} P Q J (r : Result A) :
  (∀ st, P st → Q st) → (∀ st, P st → J st) → hoare P (lift r) Q J.
Proof. intros HQ HJ st HP. destruct r; simpl; auto. Qed.

Lemma hoare_outside P Q J (reply : option exn) :
  (∀ st, P st → Q st) → (∀ st, P st → J st) → hoare P (outside reply) Q J.
Proof. intros HQ HJ st HP. destruct reply; simpl; auto. Qed.

Lemma hoare_bind {A B} P R Q J (m : M A) (f : A → M B) :
  hoare P m R J → (∀ a, hoare R (f a) Q J) → hoare P (m ≫= f) Q J.
Proof.
  intros Hm Hf st HP. specialize (Hm st HP).
  unfold mbind, M_bind. destruct (m st) as [[a|e] st']; [|done].
  by apply Hf.
Qed.

Lemma hoare_try {A} P Q J J' (body : M A) (handler : exn → M A) :
  hoare P body Q J' → (∀ e, hoare J' (handler e) Q J) →
  hoare P (try_except body handler) Q J.
Proof.
  intros Hb Hh st HP. specialize (Hb st HP). unfold try_except.
  destruct (body st) as [[a|e] st']; [done|]. by apply Hh.
Qed.

Lemma hoare_finally {A} P Q Q' J J' (body : M A) (final : M unit) :
  hoare P body Q' J' → hoare Q' final Q J → hoare J' final J J →
  hoare P (try_finally body final) Q J.
Proof.
  intros Hb Hq Hj st HP. specialize (Hb st HP). unfold try_finally.
  destruct (body st) as [[a|e] st'].
  - specialize (Hq st' Hb). by destruct (final st') as [[[]|e'] st''].
  - specialize (Hj st' Hb). by destruct (final st') as [[[]|e'] st''].
Qed.

Lemma hoare_weaken_exn {A} P Q J J' (m : M A) :
  hoare P m Q J → (∀ st, J st → J' st) → hoare P m Q J'.
Proof.
  intros H HJ st HP. specialize (H st HP).
  destruct (m st) as [[a|e] st']; auto.
Qed.

Lemma hoare_next_tick P Q J :
  (∀ st, P st → Q {| tick := S (tick st); db := db st; trace := trace st |}) →
  hoare P next_tick Q J.
Proof. intros H st HP. by apply H. Qed.

Lemma hoare_emit P Q J ev :
  (∀ st, P st → Q {| tick := tick st; db := db st; trace := trace st ++ [ev] |}) →
  hoare P (emit ev) Q J.
Proof. intros H st HP. by apply H. Qed.

Lemma hoare_store_update w P Q J id a :
  (∀ st e, P st →
     J {| tick := S (tick st); db := db st;
          trace := trace st ++ [EvUpdateRaised a e] |}) →
  (∀ st now, P st →
     Q {| tick := S (tick st);
          db := (RedisJobStoreSync.update_job now id a (db st)).2;
          trace := trace st
                   ++ [EvUpdate a (RedisJobStoreSync.update_job now id a (db st)).1] |}) →
  hoare P (store_update w id a) Q J.
Proof.
  intros HJ HQ st HP. unfold store_update, mbind, M_bind, next_tick.
  destruct (redis_reply w (tick st)) as [e|].
  - simpl. by apply HJ.
  - simpl. specialize (HQ st (utcnow w (tick st)) HP).
    by destruct (RedisJobStoreSync.update_job _ _ _ _).
Qed.

End Hoare.

Create HintDb pipeline.
#[local] Hint Unfold report running succeeded failed on_failure logger_call
  _get_payload_client make_dir _ensure_temp_dir fetch_media _download_to_temp
  execute_ffmpeg write_text uuid4 probe_summary upload_media _cleanup_temp_dir
  validate_concat validate_overlay _progress concat_input_step
  overlay_input_step concat_body overlay_body : pipeline.

(** A postcondition that is still open becomes the precondition. *)
Ltac hoare_post :=
  lazymatch goal with
  | |- hoare ?P _ ?Q _ => tryif is_evar Q then unify Q P else idtac
  end.

(** One step through a computation: [side] closes the implications between
    state predicates, [special] handles store updates and loops. *)
Ltac hoare_step side special :=
  first
    [ special
    | lazymatch goal with
      | |- hoare ?P (mbind ?f (lift (Ok ?a))) ?Q ?J =>
          change (hoare P (f a) Q J); cbv beta iota
      | |- hoare _ (mbind _ _) _ _ => eapply hoare_bind; [|intros ?]
      | |- hoare _ (mret _) _ _ => hoare_post; apply hoare_ret; side
      | |- hoare _ (raise _) _ _ => hoare_post; apply hoare_raise; side
      | |- hoare _ (lift _) _ _ => hoare_post; apply hoare_lift; side
      | |- hoare _ (outside _) _ _ => hoare_post; apply hoare_outside; side
      | |- hoare _ next_tick _ _ => hoare_post; apply hoare_next_tick; side
      | |- hoare _ (emit _) _ _ => hoare_post; apply hoare_emit; side
      | |- hoare _ (if ?b then _ else _) _ _ => destruct b
      | |- hoare _ (match ?x with _ => _ end) _ _ => destruct x
      end ].

Ltac hoare_run side special :=
  autounfold with pipeline; repeat hoare_step side special.

(* ===================================================================== *)
(** * C8: trim windows                                                    *)
(* ===================================================================== *)

Section EncoderRuns.

Variable runs : list (list string).



End EncoderRuns.






(* ===================================================================== *)
(** * C2: progress over one run                                           *)
(* ===================================================================== *)

(** C2, at the failing inputs.  With every step succeeding, a concat job of
    seven inputs writes the percentages 5, 10, ..., 70 and then 60, and an
    overlay job of eleven overlays writes 5, 15, ..., 65 and then 60: the
    written sequence decreases although both jobs succeed. *)
Theorem progress_decreases_with_many_inputs :
  let concat_run :=
    concat_video sample_settings calm_world "job-1" (clips_request 7)
      (queued_state "job-1" Concat (ConcatParams (clips_request 7))) in
  let overlay_run :=
    overlay_video sample_settings calm_world "job-2" (layers_request 11)
      (queued_state "job-2" Overlay (OverlayParams (layers_request 11))) in
  concat_run.1 = Ok tt
  ∧ written_percents (trace concat_run.2)
    = [5; 10; 20; 30; 40; 50; 60; 70; 60; 85; 92; 100]
  ∧ nondecreasing (written_percents (trace concat_run.2)) = false
  ∧ overlay_run.1 = Ok tt
  ∧ written_percents (trace overlay_run.2)
    = [5; 15; 20; 25; 30; 35; 40; 45; 50; 55; 60; 65; 60; 85; 92; 100]
  ∧ nondecreasing (written_percents (trace overlay_run.2)) = false.
Proof. vm_compute. repeat split. Qed.

Section Monotone.

Implicit Types (b pct : Z) (st : PState) (l : list Z).

Lemma nondecreasing_snoc l x :
  nondecreasing l = true → Forall (λ p, p ≤ x) l → nondecreasing (l ++ [x]) = true.
Proof.
  induction l as [|y l IH]; [done|]. intros Hn Hl.
  apply Forall_cons in Hl as [Hy Hl].
  destruct l as [|z l].
  - simpl. rewrite andb_true_r. by apply Z.leb_le.
  - change (nondecreasing (y :: z :: l)) with ((y <=? z) && nondecreasing (z :: l)) in Hn.
    apply andb_true_iff in Hn as [Hyz Hn].
    change (nondecreasing ((y :: z :: l) ++ [x]))
      with ((y <=? z) && nondecreasing ((z :: l) ++ [x])).
    rewrite Hyz, IH; done.
Qed.

Lemma written_percents_snoc tr ev :
  written_percents (tr ++ [ev])
  = written_percents tr ++ match written_percent ev with Some p => [p] | None => [] end.
Proof.
  unfold written_percents. rewrite omap_app. simpl.
  by destruct (written_percent ev).
Qed.

Lemma progress_below_mono b b' st :
  b ≤ b' → progress_below b st → progress_below b' st.
Proof.
  intros Hb [Hn Hl]. split; [done|].
  eapply Forall_impl; [exact Hl|]. intros p Hp. simpl in Hp. lia.
Qed.

Lemma progress_below_same b st k d :
  progress_below b st → progress_below b {| tick := k; db := d; trace := trace st |}.
Proof. done. Qed.

Lemma progress_below_snoc b st ev k d :
  written_percent ev = None → progress_below b st →
  progress_below b {| tick := k; db := d; trace := trace st ++ [ev] |}.
Proof.
  intros Hev [Hn Hl]. unfold progress_below. simpl.
  by rewrite written_percents_snoc, Hev, app_nil_r.
Qed.

Lemma progress_below_write b pct st a r k d :
  b ≤ pct → percent <$> u_progress a = Some pct → progress_below b st →
  progress_below pct {| tick := k; db := d; trace := trace st ++ [EvUpdate a r] |}.
Proof.
  intros Hb Ha [Hn Hl]. unfold progress_below. simpl.
  rewrite written_percents_snoc. destruct r as [r|]; simpl.
  - rewrite Ha. split.
    + apply nondecreasing_snoc; [done|].
      eapply Forall_impl; [exact Hl|]. intros p Hp. simpl in Hp. lia.
    + apply Forall_app. split.
      * eapply Forall_impl; [exact Hl|]. intros p Hp. simpl in Hp. lia.
      * constructor; [lia|done].
  - rewrite app_nil_r. split; [done|].
    eapply Forall_impl; [exact Hl|]. intros p Hp. simpl in Hp. lia.
Qed.

Lemma _progress_run w pct step msg st :
  0 ≤ pct ≤ 100 →
  _progress w pct step msg st
  = (Ok {| percent := pct; current_step := Some step;
           snap_message := Some msg; snap_updated_at := utcnow w (tick st) |},
     {| tick := S (tick st); db := db st; trace := trace st |}).
Proof.
  intros Hp. unfold _progress, mbind, M_bind, next_tick.
  assert ((0 <=? pct) && (pct <=? 100) = true) as -> by lia.
  reflexivity.
Qed.

(** The shape shared by every reporting call of the workers: build the
    snapshot, then store it. *)
Lemma hoare_report w id b pct step msg (args : ProgressSnapshot → UpdateArgs) :
  b ≤ pct ≤ 100 → 0 ≤ pct → (∀ p, u_progress (args p) = Some p) →
  hoare (progress_below b)
    (p ← _progress w pct step msg; store_update w id (args p) ;; mret tt)
    (progress_below pct) (progress_below 100).
Proof.
  intros Hb H0 Hargs st H.
  assert (Hrest : ∀ p, percent p = pct →
            hoare (progress_below b) (store_update w id (args p) ;; mret tt)
              (progress_below pct) (progress_below 100)).
  { intros p Hp. eapply hoare_bind with (R := progress_below pct).
    - apply hoare_store_update.
      + intros st' e H'. apply progress_below_snoc; [done|].
        eapply progress_below_mono; [|exact H']. lia.
      + intros st' now H'.
        eapply progress_below_write; [|by rewrite Hargs, <-Hp|exact H']. lia.
    - intros _. by apply hoare_ret. }
  unfold mbind at 1. unfold M_bind at 1. rewrite _progress_run by lia.
  apply Hrest; [done|]. by apply progress_below_same.
Qed.

End Monotone.

Create HintDb steps.
#[local] Hint Unfold on_failure logger_call
  _get_payload_client make_dir _ensure_temp_dir fetch_media _download_to_temp
  execute_ffmpeg write_text uuid4 probe_summary upload_media _cleanup_temp_dir
  validate_concat validate_overlay concat_input_step
  overlay_input_step concat_body overlay_body : steps.

Ltac mono_side :=
  idtac; intros;
  first
    [ assumption
    | apply progress_below_same; assumption
    | apply progress_below_snoc; [reflexivity|assumption]
    | eapply progress_below_mono;
      [|first [ eassumption
              | apply progress_below_same; eassumption
              | apply progress_below_snoc; [reflexivity|eassumption] ]];
      lia ].

Ltac mono_special :=
  idtac;
  lazymatch goal with
  | |- hoare (progress_below _) (report _ _ _ _ _) _ _ =>
      unfold report; eapply hoare_report; [lia|lia|reflexivity]
  | |- hoare (progress_below _) (running _ _) _ _ =>
      unfold running; eapply hoare_report; [lia|lia|reflexivity]
  | |- hoare (progress_below _) (succeeded _ _ _ _ _) _ _ =>
      unfold succeeded; eapply hoare_report; [lia|lia|reflexivity]
  | |- hoare (progress_below _) (failed _ _ _ _) _ _ =>
      unfold failed; eapply hoare_report; [lia|lia|reflexivity]
  | |- hoare _ (mbind _ (if ?c then _ else _)) _ _ => destruct c
  | |- hoare ?P (mbind ?f (mret ?a)) ?Q ?J => change (hoare P (f a) Q J); cbv beta
  | |- @hoare ?B ?P (mbind ?f (raise ?e)) ?Q ?J =>
      change (@hoare B P (@raise B e) Q J)
  end.

Ltac mono_run special :=
  autounfold with steps; repeat hoare_step mono_side special.

Section MonotoneRuns.

Variable settings : Settings.
Variable w : World.
Variable id : string.

Lemma concat_download_loop_monotone dir items index acc b :
  b ≤ 10 + Z.of_nat index * 10 →
  Z.of_nat index + Z.of_nat (List.length items) ≤ 6 →
  hoare (progress_below b) (concat_download_loop settings w id dir index items acc)
    (progress_below (Z.max b ((Z.of_nat index + Z.of_nat (List.length items)) * 10)))
    (progress_below 100).
Proof.
  revert index acc b. induction items as [|item items IH]; intros index acc b Hb Hn.
  - apply hoare_ret. mono_side.
  - cbn [List.length] in Hn. cbn [concat_download_loop].
    eapply hoare_bind with (R := progress_below (10 + Z.of_nat index * 10)).
    + mono_run mono_special.
    + intros path. eapply hoare_weaken_exn; [|intros st H; exact H].
      pose proof (IH (S index) (acc ++ [path]) (10 + Z.of_nat index * 10)
                    ltac:(lia) ltac:(lia)) as H.
      intros st Hst. specialize (H st Hst).
      destruct (concat_download_loop _ _ _ _ _ _ _ st) as [[?|?] st']; [|done].
      eapply progress_below_mono; [|exact H]. cbn [List.length]. lia.
Qed.

Lemma overlay_download_loop_monotone dir items index acc b :
  b ≤ 15 + Z.of_nat index * 5 →
  Z.of_nat index + Z.of_nat (List.length items) ≤ 10 →
  hoare (progress_below b) (overlay_download_loop w id dir index items acc)
    (progress_below (Z.max b (10 + (Z.of_nat index + Z.of_nat (List.length items)) * 5)))
    (progress_below 100).
Proof.
  revert index acc b. induction items as [|item items IH]; intros index acc b Hb Hn.
  - apply hoare_ret. mono_side.
  - cbn [List.length] in Hn. cbn [overlay_download_loop].
    eapply hoare_bind with (R := progress_below (15 + Z.of_nat index * 5)).
    + mono_run mono_special.
    + intros path. eapply hoare_weaken_exn; [|intros st H; exact H].
      pose proof (IH (S index) (acc ++ [path]) (15 + Z.of_nat index * 5)
                    ltac:(lia) ltac:(lia)) as H.
      intros st Hst. specialize (H st Hst).
      destruct (overlay_download_loop _ _ _ _ _ _ st) as [[?|?] st']; [|done].
      eapply progress_below_mono; [|exact H]. cbn [List.length]. lia.
Qed.

Ltac mono_loops :=
  idtac;
  lazymatch goal with
  | |- hoare (progress_below _) (concat_download_loop _ _ _ _ _ _ _) _ _ =>
      eapply concat_download_loop_monotone; lia
  | |- hoare (progress_below _) (overlay_download_loop _ _ _ _ _ _) _ _ =>
      eapply overlay_download_loop_monotone; lia
  | _ => mono_special
  end.

Lemma concat_body_monotone request tmp dir :
  Z.of_nat (List.length (inputs request)) ≤ 6 →
  hoare (progress_below 5) (concat_body settings w id request tmp dir)
    (progress_below 100) (progress_below 100).
Proof. intros Hn. mono_run mono_loops. Qed.

Lemma overlay_body_monotone request tmp :
  Z.of_nat (List.length (overlays request)) ≤ 10 →
  hoare (progress_below 5) (overlay_body settings w id request tmp)
    (progress_below 100) (progress_below 100).
Proof. intros Hn. mono_run mono_loops. Qed.

Lemma on_failure_monotone m1 m2 exc :
  hoare (progress_below 100) (on_failure w id m1 m2 exc)
    (progress_below 100) (progress_below 100).
Proof. mono_run mono_special. Qed.

Lemma cleanup_monotone tmp :
  hoare (progress_below 100) (_cleanup_temp_dir w tmp)
    (progress_below 100) (progress_below 100).
Proof. mono_run mono_special. Qed.

Lemma concat_video_monotone payload :
  Z.of_nat (List.length (inputs payload)) ≤ 6 →
  hoare (progress_below 5) (concat_video settings w id payload)
    (progress_below 100) (progress_below 100).
Proof.
  intros Hn. unfold concat_video. mono_run mono_special.
  eapply hoare_finally;
    [eapply hoare_try;
      [by apply concat_body_monotone|intros exc; apply on_failure_monotone]
    |apply cleanup_monotone|apply cleanup_monotone].
Qed.

Lemma overlay_video_monotone payload :
  Z.of_nat (List.length (overlays payload)) ≤ 10 →
  hoare (progress_below 5) (overlay_video settings w id payload)
    (progress_below 100) (progress_below 100).
Proof.
  intros Hn. unfold overlay_video. mono_run mono_special.
  eapply hoare_finally;
    [eapply hoare_try;
      [by apply overlay_body_monotone|intros exc; apply on_failure_monotone]
    |apply cleanup_monotone|apply cleanup_monotone].
Qed.

End MonotoneRuns.

(** Where the defect does not reach: with at most six inputs (concat) or
    ten overlays (overlay), the percentages written over one run never
    decrease, in every world. *)
Lemma progress_nondecreasing_for_few_inputs (settings : Settings) (w : World)
    (id : string) (d : Delivery) (st : PState) :
  match d with
  | DeliverConcat payload => (List.length (inputs payload) ≤ 6)%nat
  | DeliverOverlay payload => (List.length (overlays payload) ≤ 10)%nat
  end →
  trace st = [] →
  nondecreasing (written_percents (trace (run_delivery settings w id d st).2)) = true.
Proof.
  intros Hn Htr.
  assert (H5 : progress_below 5 st).
  { unfold progress_below. rewrite Htr. by split. }
  assert (H : hoare (progress_below 5) (run_delivery settings w id d)
                (progress_below 100) (progress_below 100)).
  { destruct d; simpl; [apply concat_video_monotone|apply overlay_video_monotone]; lia. }
  specialize (H st H5).
  by destruct (run_delivery settings w id d st) as [[[]|e] st']; destruct H.
Qed.

(* ===================================================================== *)
(** * C9: a Redis round trip that fails                                   *)
(* ===================================================================== *)

Section StoreFailure.









End StoreFailure.


Section StoreFailureRuns.

Variable settings : Settings.
Variable w : World.
















End StoreFailureRuns.




(* ===================================================================== *)
(** * C1: result and error against the status                             *)
(* ===================================================================== *)

Section RecordFacts.

Implicit Types (r : JobRecord) (a : UpdateArgs) (st : PState).

Lemma clean_exact r : clean r → exact r.
Proof.
  intros ([H|H] & Hr & He); split; rewrite ?Hr, ?He, H; split;
    (by intros [? ?]) || done.
Qed.

Lemma new_record_clean now id ty p md : clean (new_record now id ty p md).
Proof. split; [by left|done]. Qed.

Lemma apply_update_sound now a r : sound_args a → sound r → sound (apply_update now a r).
Proof.
  unfold sound_args, sound. intros Ha [Hs Hf]. simpl.
  destruct (u_status a) as [[]|]; simpl; split; try done.
  - intros _. destruct Ha as [x ->]. by eexists.
  - intros _. destruct Ha as [x ->]. by eexists.
  - intros H. destruct (u_result_media_id a); [by eexists|auto].
  - intros H. destruct (u_error a); [by eexists|auto].
Qed.

Lemma apply_update_clean now a r : progress_args a → clean r → clean (apply_update now a r).
Proof.
  intros (Hs & Har & Hae) (Hst & Hr & He). unfold clean. simpl.
  rewrite Har, Hae. split; [|done]. destruct Hs as [->| ->]; simpl; auto.
Qed.

Lemma apply_update_exact now a r : terminal_args a → clean r → exact (apply_update now a r).
Proof.
  intros [(Hs & [x Hx] & He)|(Hs & [x Hx] & Hr)] (_ & Hr0 & He0);
    unfold exact; simpl; rewrite Hs, Hx, ?He, ?Hr, ?Hr0, ?He0; simpl.
  - split; split; intros H; try done; try (by exists x); by destruct H.
  - split; split; intros H; try done; try (by exists x); by destruct H.
Qed.

Lemma written_records_snoc tr ev :
  written_records (tr ++ [ev])
  = written_records tr ++ match written_record ev with Some r => [r] | None => [] end.
Proof.
  unfold written_records. rewrite omap_app. simpl.
  by destruct (written_record ev).
Qed.

Lemma holds_record_elim f o :
  holds_record f o = true → ∃ r, o = Some r ∧ f r = true.
Proof. destruct o as [r|]; [|done]. intros H. by exists r. Qed.

Lemma all_sound_same st k :
  all_sound st → all_sound {| tick := k; db := db st; trace := trace st |}.
Proof. done. Qed.

Lemma all_sound_snoc st ev k :
  written_record ev = None → all_sound st →
  all_sound {| tick := k; db := db st; trace := trace st ++ [ev] |}.
Proof.
  intros Hev [Hdb Htr]. split; [done|]. simpl.
  by rewrite written_records_snoc, Hev, app_nil_r.
Qed.

Lemma store_update_sound w id a :
  sound_args a → hoare all_sound (store_update w id a) all_sound all_sound.
Proof.
  intros Ha. apply hoare_store_update.
  - intros st e H. by apply all_sound_snoc.
  - intros st now [Hdb Htr]. unfold RedisJobStoreSync.update_job.
    destruct (db st !! _job_key id) as [r|] eqn:E; simpl.
    + assert (Hr : sound (apply_update now a r))
        by (apply apply_update_sound; [done|by eapply Hdb]).
      split; simpl.
      * intros k r'. rewrite lookup_insert.
        case_decide; [by intros [= <-]|by apply Hdb].
      * rewrite written_records_snoc. simpl.
        apply Forall_app. split; [done|]. by constructor.
    + split; [done|]. simpl. by rewrite written_records_snoc, app_nil_r.
Qed.

End RecordFacts.

Ltac sound_side :=
  idtac; intros;
  first
    [ assumption
    | apply all_sound_same; assumption
    | apply all_sound_snoc; [reflexivity|assumption] ].

Ltac sound_special :=
  idtac;
  lazymatch goal with
  | |- hoare all_sound (store_update _ _ _) _ _ =>
      apply store_update_sound; unfold sound_args; simpl; eauto
  end.

Section SoundPipelines.

Variable settings : Settings.
Variable w : World.

Lemma concat_download_loop_sound id dir items index acc :
  hoare all_sound (concat_download_loop settings w id dir index items acc)
    all_sound all_sound.
Proof.
  revert index acc. induction items as [|item items IH]; intros index acc.
  - apply hoare_ret; sound_side.
  - eapply hoare_bind; [|intros path; apply IH].
    hoare_run sound_side sound_special.
Qed.

Lemma overlay_download_loop_sound id dir items index acc :
  hoare all_sound (overlay_download_loop w id dir index items acc)
    all_sound all_sound.
Proof.
  revert index acc. induction items as [|item items IH]; intros index acc.
  - apply hoare_ret; sound_side.
  - eapply hoare_bind; [|intros path; apply IH].
    hoare_run sound_side sound_special.
Qed.

Ltac sound_loops :=
  idtac;
  lazymatch goal with
  | |- hoare _ (concat_download_loop _ _ _ _ _ _ _) _ _ =>
      apply concat_download_loop_sound
  | |- hoare _ (overlay_download_loop _ _ _ _ _ _) _ _ =>
      apply overlay_download_loop_sound
  | _ => sound_special
  end.

Lemma concat_body_sound id request tmp dir :
  hoare all_sound (concat_body settings w id request tmp dir) all_sound all_sound.
Proof. hoare_run sound_side sound_loops. Qed.

Lemma overlay_body_sound id request tmp :
  hoare all_sound (overlay_body settings w id request tmp) all_sound all_sound.
Proof. hoare_run sound_side sound_loops. Qed.

Lemma on_failure_sound id m1 m2 exc :
  hoare all_sound (on_failure w id m1 m2 exc) all_sound all_sound.
Proof. hoare_run sound_side sound_special. Qed.

Lemma cleanup_sound tmp :
  hoare all_sound (_cleanup_temp_dir w tmp) all_sound all_sound.
Proof. hoare_run sound_side sound_special. Qed.

Lemma run_delivery_sound id d :
  hoare all_sound (run_delivery settings w id d) all_sound all_sound.
Proof.
  destruct d as [payload|payload]; simpl.
  - unfold concat_video. hoare_run sound_side sound_special.
    eapply hoare_finally;
      [eapply hoare_try; [apply concat_body_sound|intros exc; apply on_failure_sound]
      |apply cleanup_sound|apply cleanup_sound].
  - unfold overlay_video. hoare_run sound_side sound_special.
    eapply hoare_finally;
      [eapply hoare_try; [apply overlay_body_sound|intros exc; apply on_failure_sound]
      |apply cleanup_sound|apply cleanup_sound].
Qed.

End SoundPipelines.

Lemma run_deliveries_sound settings runs st :
  all_sound st → all_sound (run_deliveries settings runs st).
Proof.
  revert st. induction runs as [|[[w id] d] runs IH]; intros st H; [done|].
  simpl. apply IH.
  pose proof (run_delivery_sound settings w id d st H) as Hd.
  by destruct (run_delivery settings w id d st) as [[[]|e] st'].
Qed.

Section FirstRun.

Variable id : string.
Implicit Types (r : JobRecord) (a : UpdateArgs) (st : PState).

Lemma clean_exact_at st : clean_at id st → exact_at id st.
Proof. intros [Hdb Htr]. split; [|done]. intros r Hr. by apply clean_exact, Hdb. Qed.

Lemma clean_at_same st k :
  clean_at id st → clean_at id {| tick := k; db := db st; trace := trace st |}.
Proof. done. Qed.

Lemma exact_at_same st k :
  exact_at id st → exact_at id {| tick := k; db := db st; trace := trace st |}.
Proof. done. Qed.

Lemma clean_at_snoc st ev k :
  written_record ev = None → clean_at id st →
  clean_at id {| tick := k; db := db st; trace := trace st ++ [ev] |}.
Proof.
  intros Hev [Hdb Htr]. split; [done|]. simpl.
  by rewrite written_records_snoc, Hev, app_nil_r.
Qed.

Lemma exact_at_snoc st ev k :
  written_record ev = None → exact_at id st →
  exact_at id {| tick := k; db := db st; trace := trace st ++ [ev] |}.
Proof.
  intros Hev [Hdb Htr]. split; [done|]. simpl.
  by rewrite written_records_snoc, Hev, app_nil_r.
Qed.

Lemma store_update_progress w a :
  progress_args a →
  hoare (clean_at id) (store_update w id a) (clean_at id) (clean_at id).
Proof.
  intros Ha. apply hoare_store_update.
  - intros st e H. by apply clean_at_snoc.
  - intros st now [Hdb Htr]. unfold RedisJobStoreSync.update_job.
    destruct (db st !! _job_key id) as [r|] eqn:E; simpl.
    + assert (Hr : clean (apply_update now a r))
        by (apply apply_update_clean; [done|by apply Hdb]).
      split; simpl.
      * intros r'. rewrite lookup_insert_eq. by intros [= <-].
      * rewrite written_records_snoc. simpl.
        apply Forall_app. split; [done|]. constructor; [|done].
        by apply clean_exact.
    + split; simpl.
      * intros r. by rewrite E.
      * by rewrite written_records_snoc, app_nil_r.
Qed.

Lemma store_update_terminal w a :
  terminal_args a →
  hoare (clean_at id) (store_update w id a) (exact_at id) (clean_at id).
Proof.
  intros Ha. apply hoare_store_update.
  - intros st e H. by apply clean_at_snoc.
  - intros st now [Hdb Htr]. unfold RedisJobStoreSync.update_job.
    destruct (db st !! _job_key id) as [r|] eqn:E; simpl.
    + assert (Hr : exact (apply_update now a r))
        by (apply apply_update_exact; [done|by apply Hdb]).
      split; simpl.
      * intros r'. rewrite lookup_insert_eq. by intros [= <-].
      * rewrite written_records_snoc. simpl.
        apply Forall_app. split; [done|]. by constructor.
    + split; simpl.
      * intros r. by rewrite E.
      * by rewrite written_records_snoc, app_nil_r.
Qed.

End FirstRun.

Ltac first_run_side :=
  idtac; intros;
  first
    [ assumption
    | apply clean_at_same; assumption
    | apply exact_at_same; assumption
    | apply clean_at_snoc; [reflexivity|assumption]
    | apply exact_at_snoc; [reflexivity|assumption]
    | apply clean_exact_at; assumption
    | apply clean_exact_at; apply clean_at_same; assumption
    | apply clean_exact_at; apply clean_at_snoc; [reflexivity|assumption] ].

Ltac first_run_special :=
  idtac;
  lazymatch goal with
  | |- hoare (clean_at _) (store_update _ _ _) _ _ =>
      eapply hoare_weaken_exn;
      [ first
          [ apply store_update_progress;
            solve [unfold progress_args; simpl; intuition eauto]
          | apply store_update_terminal;
            solve [unfold terminal_args; simpl; intuition eauto] ]
      | first_run_side ]
  end.

Section FirstRunPipelines.

Variable settings : Settings.
Variable w : World.
Variable id : string.

Lemma concat_download_loop_clean dir items index acc :
  hoare (clean_at id) (concat_download_loop settings w id dir index items acc)
    (clean_at id) (clean_at id).
Proof.
  revert index acc. induction items as [|item items IH]; intros index acc.
  - apply hoare_ret; first_run_side.
  - eapply hoare_bind; [|intros path; apply IH].
    hoare_run first_run_side first_run_special.
Qed.

Lemma overlay_download_loop_clean dir items index acc :
  hoare (clean_at id) (overlay_download_loop w id dir index items acc)
    (clean_at id) (clean_at id).
Proof.
  revert index acc. induction items as [|item items IH]; intros index acc.
  - apply hoare_ret; first_run_side.
  - eapply hoare_bind; [|intros path; apply IH].
    hoare_run first_run_side first_run_special.
Qed.

Ltac first_run_loops :=
  idtac;
  lazymatch goal with
  | |- hoare _ (concat_download_loop _ _ _ _ _ _ _) _ _ =>
      apply concat_download_loop_clean
  | |- hoare _ (overlay_download_loop _ _ _ _ _ _) _ _ =>
      apply overlay_download_loop_clean
  | _ => first_run_special
  end.

Lemma concat_body_first_run request tmp dir :
  hoare (clean_at id) (concat_body settings w id request tmp dir)
    (exact_at id) (clean_at id).
Proof. hoare_run first_run_side first_run_loops. Qed.

Lemma overlay_body_first_run request tmp :
  hoare (clean_at id) (overlay_body settings w id request tmp)
    (exact_at id) (clean_at id).
Proof. hoare_run first_run_side first_run_loops. Qed.

Lemma on_failure_first_run m1 m2 exc :
  hoare (clean_at id) (on_failure w id m1 m2 exc) (exact_at id) (exact_at id).
Proof. hoare_run first_run_side first_run_special. Qed.

Lemma cleanup_first_run tmp :
  hoare (exact_at id) (_cleanup_temp_dir w tmp) (exact_at id) (exact_at id).
Proof. hoare_run first_run_side first_run_special. Qed.

Lemma run_delivery_first_run d :
  hoare (clean_at id) (run_delivery settings w id d) (exact_at id) (exact_at id).
Proof.
  destruct d as [payload|payload]; simpl.
  - unfold concat_video. hoare_run first_run_side first_run_special.
    eapply hoare_finally;
      [eapply hoare_try;
        [apply concat_body_first_run|intros exc; apply on_failure_first_run]
      |apply cleanup_first_run|apply cleanup_first_run].
  - unfold overlay_video. hoare_run first_run_side first_run_special.
    eapply hoare_finally;
      [eapply hoare_try;
        [apply overlay_body_first_run|intros exc; apply on_failure_first_run]
      |apply cleanup_first_run|apply cleanup_first_run].
Qed.

End FirstRunPipelines.

(** C1, counterexample.  A queued concat job of one input, every step
    succeeding.  The first run ends [SUCCEEDED].  A duplicate delivery then
    writes, as its first update, a record that is [RUNNING] and still holds
    the result reference of the first run.  And when the first run fails in
    the encoder (logger disabled, so that [FAILED] is recorded) and the
    delivery is repeated with success, the final record is [SUCCEEDED] with
    the old error still set. *)
Lemma duplicate_delivery_counterexample :
  let st0 := queued_state "job-1" Concat (ConcatParams (clips_request 1)) in
  let first := concat_video sample_settings calm_world "job-1" (clips_request 1) st0 in
  let again := concat_video sample_settings calm_world "job-1" (clips_request 1) first.2 in
  let failing :=
    concat_video sample_settings encoder_fails_quiet "job-1" (clips_request 1) st0 in
  let retried :=
    concat_video sample_settings calm_world "job-1" (clips_request 1) failing.2 in
  (status <$> final_record "job-1" first.2) = Some SUCCEEDED
  ∧ (∃ r, written_records (trace again.2) !! 6%nat = Some r
          ∧ status r = RUNNING ∧ result_media_id r = Some "media-out")
  ∧ ¬ Forall exact (written_records (trace again.2))
  ∧ (status <$> final_record "job-1" failing.2) = Some FAILED
  ∧ (∃ r, final_record "job-1" retried.2 = Some r
          ∧ status r = SUCCEEDED ∧ is_Some (error r) ∧ ¬ exact r).
Proof.
  intros st0 first again failing retried.
  assert (H6 : ∃ r, written_records (trace again.2) !! 6%nat = Some r
                    ∧ status r = RUNNING ∧ result_media_id r = Some "media-out").
  { destruct (holds_record_elim
                (λ r, bool_decide (status r = RUNNING)
                      && bool_decide (result_media_id r = Some "media-out"))
                (written_records (trace again.2) !! 6%nat)) as (r & Hr & Hf).
    { vm_compute. reflexivity. }
    exists r. split; [exact Hr|].
    apply andb_true_iff in Hf as [H1 H2].
    split; [by apply bool_decide_eq_true in H1|by apply bool_decide_eq_true in H2]. }
  assert (HR : ∃ r, final_record "job-1" retried.2 = Some r
                    ∧ status r = SUCCEEDED ∧ is_Some (error r)).
  { destruct (holds_record_elim
                (λ r, bool_decide (status r = SUCCEEDED)
                      && bool_decide (is_Some (error r)))
                (final_record "job-1" retried.2)) as (r & Hr & Hf).
    { vm_compute. reflexivity. }
    exists r. split; [exact Hr|].
    apply andb_true_iff in Hf as [H1 H2].
    split; [by apply bool_decide_eq_true in H1|by apply bool_decide_eq_true in H2]. }
  split; [vm_compute; reflexivity|]. split; [exact H6|]. split; [|split].
  - intros Hall. destruct H6 as (r & Hl & Hs & Hr).
    pose proof (Forall_lookup_1 _ _ _ _ Hall Hl) as [Hex _].
    assert (is_Some (result_media_id r)) as Hsome by (rewrite Hr; by eexists).
    apply Hex in Hsome. congruence.
  - vm_compute. reflexivity.
  - destruct HR as (r & Hl & Hs & He). exists r.
    split; [exact Hl|]. split; [exact Hs|]. split; [exact He|].
    intros [_ Hex]. apply Hex in He. congruence.
Qed.

(** C1, as the code has it.  Under every sequence of deliveries, duplicate
    ones included, in any worlds: when every record of the database and
    every record written so far has a result reference whenever it is
    [SUCCEEDED] and an error detail whenever it is [FAILED], the same holds
    after the deliveries, of every record of the database and of every
    record written on the way.  And over one run on a job whose record has
    seen no finished run (status [QUEUED] or [RUNNING], no result, no
    error), every record written and the record left behind has the result
    reference set if and only if it is [SUCCEEDED] and the error detail set
    if and only if it is [FAILED]. *)
Theorem terminal_fields_under_deliveries (settings : Settings) :
  (∀ runs st, all_sound st → all_sound (run_deliveries settings runs st))
  ∧ (∀ w id d st, clean_at id st → exact_at id (run_delivery settings w id d st).2).
Proof.
  split.
  - intros runs st. apply run_deliveries_sound.
  - intros w id d st H.
    pose proof (run_delivery_first_run settings w id d st H) as Hd.
    by destruct (run_delivery settings w id d st) as [[[]|e] st'].
Qed.

Lemma terminal_fields_under_deliveries_witness :
  let request := clips_request 1 in
  let st0 := queued_state "job-1" Concat (ConcatParams request) in
  let runs := [ (calm_world, "job-1", DeliverConcat request);
                (calm_world, "job-1", DeliverConcat request) ] in
  all_sound st0
  ∧ clean_at "job-1" st0
  ∧ all_sound (run_deliveries sample_settings runs st0)
  ∧ exact_at "job-1"
      (run_delivery sample_settings calm_world "job-1" (DeliverConcat request) st0).2.
Proof.
  intros request st0 runs.
  assert (Hc : clean_at "job-1" st0).
  { split; [|constructor]. intros r Hr.
    unfold st0, queued_state in Hr. cbn [db] in Hr.
    apply lookup_singleton_Some in Hr as [_ <-]. apply new_record_clean. }
  assert (Hs : all_sound st0).
  { split; [|constructor]. intros k r Hr.
    unfold st0, queued_state in Hr. cbn [db] in Hr.
    apply lookup_singleton_Some in Hr as [_ <-]. by split. }
  split; [exact Hs|]. split; [exact Hc|].
  destruct (terminal_fields_under_deliveries sample_settings) as [Hall Hone].
  split.
  - exact (Hall runs st0 Hs).
  - exact (Hone calm_world "job-1" (DeliverConcat request) st0 Hc).
Defined.
(* ===================================================================== *)
(** * The job store: reads, sequences of updates, the two backends        *)
(* ===================================================================== *)

Section StoreRoundTrips.

Implicit Types (r record : JobRecord) (a : UpdateArgs) (now : Z).
Implicit Types (b : Backend) (s : gmap string JobRecord) (id : string).

Lemma key_of_inj b id1 id2 : key_of b id1 = key_of b id2 → id1 = id2.
Proof. destruct b; [done|apply job_key_inj]. Qed.

Lemma get_job_unfold b id s : get_job b id s = s !! key_of b id.
Proof. by destruct b. Qed.

Lemma apply_update_then now1 now2 a1 a2 r :
  apply_update now2 a2 (apply_update now1 a1 r)
  = apply_update now2 (then_args a1 a2) r.
Proof.
  destruct a1 as [s1 p1 m1 g1 e1 md1], a2 as [s2 p2 m2 g2 e2 md2].
  unfold apply_update, then_args; simpl. f_equal.
  - destruct md2 as [x2|], md1 as [x1|]; simpl; try done.
    by rewrite (assoc_L (∪)).
  - by destruct s2, s1.
  - by destruct p2, p1.
  - by destruct m2, m1.
  - by destruct g2, g1.
  - by destruct e2, e1.
Qed.

Lemma update_job_dom b now id a s :
  dom (update_job b now id a s).2 = dom s.
Proof.
  rewrite update_job_unfold.
  destruct (s !! key_of b id) as [r|] eqn:E; simpl; [|done].
  rewrite dom_insert_L. apply subseteq_union_1_L, singleton_subseteq_l.
  by apply elem_of_dom_2 in E.
Qed.

End StoreRoundTrips.

#[local] Instance job_key_Inj : Inj (=) (=) _job_key.
Proof. intros id1 id2. apply job_key_inj. Qed.

(** X1.  In both stores a record that [create_job] has stored is what
    [get_job] returns for its id, whatever the store held before, and
    [get_job] for every other id returns what it returned before. *)
Theorem create_job_then_get_job (b : Backend) (s : gmap string JobRecord)
    (record : JobRecord) :
  get_job b (job_id record) (create_job b record s).2 = Some record
  ∧ ∀ id, id ≠ job_id record →
      get_job b id (create_job b record s).2 = get_job b id s.
Proof.
  rewrite create_job_unfold. simpl. split.
  - by rewrite get_job_unfold, lookup_insert_eq.
  - intros id Hid. rewrite !get_job_unfold, lookup_insert_ne; [done|].
    intros H. by apply key_of_inj in H.
Qed.

(** X2.  In both stores the record that [update_job] returns is the record
    that [get_job] returns afterwards ([None] for an id that is absent), and
    [get_job] for every other id returns what it returned before. *)
Theorem update_job_then_get_job (b : Backend) (s : gmap string JobRecord)
    (now : Z) (id : string) (a : UpdateArgs) :
  get_job b id (update_job b now id a s).2 = (update_job b now id a s).1
  ∧ ∀ id', id' ≠ id →
      get_job b id' (update_job b now id a s).2 = get_job b id' s.
Proof.
  split.
  - rewrite get_job_unfold, update_job_lookup, update_job_unfold.
    by destruct (s !! key_of b id).
  - intros id' Hid. rewrite !get_job_unfold. apply update_job_frame.
    intros H. by apply key_of_inj in H.
Qed.

(** X3.  [update_job] never creates and never deletes a record: after any
    sequence of updates the store holds exactly the keys it held before, and
    the record under the updated id keeps its [job_id], [job_type], [params]
    and [created_at]. *)
Theorem update_job_keeps_keys (b : Backend) (id : string)
    (calls : list (Z * UpdateArgs)) (s : gmap string JobRecord) :
  dom (update_many b id calls s) = dom s
  ∧ ∀ r', get_job b id (update_many b id calls s) = Some r' →
      ∃ r, get_job b id s = Some r
           ∧ job_id r' = job_id r ∧ job_type r' = job_type r
           ∧ params r' = params r ∧ created_at r' = created_at r.
Proof.
  split.
  - unfold update_many. revert s.
    induction calls as [|[now a] calls IH]; intros s; simpl; [done|].
    by rewrite IH, update_job_dom.
  - intros r'. rewrite !get_job_unfold, update_many_lookup.
    destruct (s !! key_of b id) as [r|]; simpl; [|done].
    intros [= <-]. exists r. split; [done|]. clear s.
    revert r. induction calls as [|[now a] calls IH]; intros r; simpl; [done|].
    destruct (IH (apply_update now a r)) as (-> & -> & -> & ->). done.
Qed.

(** X4.  Two [update_job] calls on the same id, one after the other, store
    and return what the single call with the combined arguments does: for
    each field the later argument that is not [None] wins, and the metadata
    of both calls is merged, the later one on top. *)
Theorem update_job_twice (b : Backend) (s : gmap string JobRecord)
    (id : string) (now1 now2 : Z) (a1 a2 : UpdateArgs) :
  update_job b now2 id a2 (update_job b now1 id a1 s).2
  = update_job b now2 id (then_args a1 a2) s.
Proof.
  rewrite (update_job_unfold b now1), !(update_job_unfold b now2).
  destruct (s !! key_of b id) as [r|] eqn:E; simpl.
  - by rewrite lookup_insert_eq, insert_insert_eq, apply_update_then.
  - by rewrite E.
Qed.

(** X5.  The Redis store is the in-memory store with every key prefixed by
    [video-job:]: on a database that holds the records of an in-memory
    store under the prefixed keys, [get_job], [create_job] and [update_job]
    return what the in-memory methods return and leave the database in the
    same correspondence. *)
Theorem redis_store_as_in_memory_store (s : gmap string JobRecord) :
  (∀ id, get_job Redis id (kmap _job_key s) = get_job InMemory id s)
  ∧ (∀ record,
       create_job Redis record (kmap _job_key s)
       = ((create_job InMemory record s).1,
          kmap _job_key (create_job InMemory record s).2))
  ∧ (∀ now id a,
       update_job Redis now id a (kmap _job_key s)
       = ((update_job InMemory now id a s).1,
          kmap _job_key (update_job InMemory now id a s).2)).
Proof.
  split; [|split].
  - intros id. simpl. unfold RedisJobStoreSync.get_job, InMemoryJobStore.get_job.
    by rewrite (lookup_kmap _job_key).
  - intros record. simpl.
    unfold RedisJobStoreSync.create_job, InMemoryJobStore.create_job. simpl.
    by rewrite (kmap_insert _job_key).
  - intros now id a. simpl.
    unfold RedisJobStoreSync.update_job, InMemoryJobStore.update_job.
    rewrite (lookup_kmap _job_key). destruct (s !! id) as [r|]; simpl; [|done].
    by rewrite (kmap_insert _job_key).
Qed.
(* ===================================================================== *)
(** * The command builder: overlay filter graph and overlay command       *)
(* ===================================================================== *)

Section MoreStringFacts.

Implicit Types (s t u : string) (c : Ascii.ascii).

Lemma length_append s t :
  String.length (s +:+ t) = (String.length s + String.length t)%nat.
Proof. induction s as [|c s IH]; [done|]. rewrite append_cons. simpl. by rewrite IH. Qed.

Lemma prefix_nil s : String.prefix "" s = true.
Proof. by destruct s. Qed.

Lemma prefix_append s t : String.prefix s (s +:+ t) = true.
Proof.
  induction s as [|c s IH]; [apply prefix_nil|].
  rewrite append_cons. simpl. by destruct (ascii_dec c c).
Qed.

Lemma contains_char_append c s t :
  contains (String c "") (s +:+ t)
  = contains (String c "") s || contains (String c "") t.
Proof.
  induction s as [|d s IH].
  - simpl. by destruct t.
  - rewrite append_cons. cbn [contains String.prefix].
    by rewrite IH, !prefix_nil, orb_assoc.
Qed.

Lemma split_on_absent c s :
  contains (String c "") s = false → split_on c s = [s].
Proof.
  induction s as [|d s IH]; [done|].
  cbn [contains String.prefix]. intros H.
  apply orb_false_iff in H as [Hd Hs].
  cbn [split_on]. rewrite (IH Hs).
  destruct (Ascii.eqb_spec d c) as [->|]; [|done].
  rewrite prefix_nil in Hd. by destruct (ascii_dec c c).
Qed.

Lemma rfind_dot_absent s : contains "." s = false → rfind_dot s = None.
Proof.
  induction s as [|d s IH]; [done|].
  cbn [contains String.prefix]. intros H.
  apply orb_false_iff in H as [Hd Hs].
  cbn [rfind_dot]. rewrite (IH Hs).
  destruct (Ascii.eqb_spec d ".") as [->|]; [|done].
  by rewrite prefix_nil in Hd.
Qed.

Lemma rfind_dot_append s t :
  contains "." t = false →
  rfind_dot (s +:+ "." +:+ t) = Some (String.length s).
Proof.
  intros Ht. induction s as [|d s IH].
  - change ("" +:+ "." +:+ t) with (String "." t). cbn [rfind_dot].
    by rewrite (rfind_dot_absent t Ht).
  - rewrite append_cons. cbn [rfind_dot]. by rewrite IH.
Qed.

Lemma substring_append_l s t :
  String.substring 0 (String.length s) (s +:+ t) = s.
Proof.
  induction s as [|d s IH]; [by destruct t|].
  rewrite append_cons. simpl. by rewrite IH.
Qed.

Lemma substring_all t : String.substring 0 (String.length t) t = t.
Proof. induction t as [|d t IH]; [done|]. simpl. by rewrite IH. Qed.

Lemma substring_append_r s t :
  String.substring (String.length s) (String.length t) (s +:+ t) = t.
Proof.
  induction s as [|d s IH]; [apply substring_all|by rewrite append_cons].
Qed.

End MoreStringFacts.

(** X6.  For an overlay entry whose offsets lie in [0, 2^52) ms the enable
    clause is empty without offsets, [:enable='gte(t,S)'] with a start only,
    [:enable='lte(t,E)'] with an end only and
    [:enable='gte(t,S)*lte(t,E)'] with both, where [S] and [E] are the
    offsets in seconds written with exactly three decimals. *)
Theorem enable_clause_window (spec : OverlaySpec) :
  spec_in_range spec →
  enable_clause spec
  = Ok match spec_start spec, spec_end spec with
       | None, None => ""
       | Some s, None => ":enable='gte(t," +:+ decimal_seconds s +:+ ")'"
       | None, Some e => ":enable='lte(t," +:+ decimal_seconds e +:+ ")'"
       | Some s, Some e =>
           ":enable='gte(t," +:+ decimal_seconds s +:+ ")*lte(t,"
             +:+ decimal_seconds e +:+ ")'"
       end.
Proof.
  intros [Hs He]. unfold enable_clause.
  destruct (spec_start spec) as [s|], (spec_end spec) as [e|];
    simpl in Hs, He; rewrite ?fmt_ms_as_seconds_exact by lia;
    try reflexivity; f_equal; unfold join; simpl;
    rewrite !append_assoc; reflexivity.
Qed.

Lemma enable_clause_window_witness :
  spec_in_range sample_overlay
  ∧ enable_clause sample_overlay = Ok ":enable='gte(t,0.000)*lte(t,1.000)'".
Proof.
  split; [by vm_compute|].
  rewrite (enable_clause_window sample_overlay); [reflexivity|by vm_compute].
Defined.

Section OverlayFilter.

Lemma enable_clause_ok spec :
  spec_in_range spec → ∃ clause, enable_clause spec = Ok clause.
Proof.
  intros [Hs He]. unfold enable_clause.
  destruct (spec_start spec) as [s|], (spec_end spec) as [e|];
    simpl in Hs, He; rewrite ?fmt_ms_as_seconds_exact by lia; eauto.
Qed.

Lemma overlay_step_ok idx label_in spec :
  spec_in_range spec → ∃ here, overlay_step idx label_in spec = Ok here.
Proof.
  intros H. destruct (enable_clause_ok spec H) as [clause Hc].
  unfold overlay_step. rewrite Hc.
  destruct (overlay_components spec); eauto.
Qed.

Lemma overlay_loop_ok overlays idx current_label :
  Forall spec_in_range overlays →
  ∃ body,
    overlay_loop idx current_label overlays
    = Ok (body, match overlays with
                | [] => current_label
                | _ => "ov" +:+ str_int (idx + Z.of_nat (List.length overlays) - 1)
                end).
Proof.
  intros H. revert idx current_label.
  induction H as [|spec rest Hspec _ IH]; intros idx current_label.
  - by exists [].
  - destruct (overlay_step_ok idx current_label spec Hspec) as [here Hhere].
    destruct (IH (idx + 1) ("ov" +:+ str_int idx)) as [later Hlater].
    exists (here ++ later). cbn [overlay_loop]. rewrite Hhere, Hlater.
    do 2 f_equal. destruct rest as [|spec' rest].
    + simpl. do 2 f_equal. lia.
    + do 2 f_equal. rewrite !length_cons. lia.
Qed.

Lemma join_cons_cons sep x y l :
  join sep (x :: y :: l) = x +:+ sep +:+ join sep (y :: l).
Proof. reflexivity. Qed.

End OverlayFilter.

(** X7.  For every list of overlay entries whose offsets lie in
    [0, 2^52) ms, [build_overlay_filter] returns a graph: it begins with
    the scaled base stream [[0:v]...[base]] and it ends with
    [[L]setsar=1[outv]], where [L] is [ov<n>], the label written by the
    last of the [n] overlays, and [base] when the list is empty; for the
    empty list the graph consists of these two segments alone. *)
Theorem build_overlay_filter_ends_in_outv (overlays : list OverlaySpec) :
  Forall spec_in_range overlays →
  ∃ graph,
    build_overlay_filter overlays = Ok graph
    ∧ String.prefix ("[0:v]" +:+ DEFAULT_SCALE_FILTER +:+ "[base]") graph = true
    ∧ endswith graph
        ("[" +:+ last_label (List.length overlays) +:+ "]setsar=1[outv]") = true
    ∧ (overlays = [] →
       graph = "[0:v]" +:+ DEFAULT_SCALE_FILTER +:+ "[base];[base]setsar=1[outv]").
Proof.
  intros H. destruct (overlay_loop_ok overlays 1 "base" H) as [body Hbody].
  unfold build_overlay_filter. rewrite Hbody. eexists. split; [reflexivity|].
  split; [|split].
  - destruct body as [|part body]; [reflexivity|].
    change ([?x] ++ (part :: body) ++ ?l) with (x :: part :: (body ++ l)).
    rewrite join_cons_cons. apply prefix_append.
  - rewrite (assoc_L (++)). apply join_snoc_endswith.
    destruct overlays as [|spec overlays]; [apply endswith_refl|].
    unfold last_label. rewrite length_cons.
    replace (1 + Z.of_nat (S (List.length overlays)) - 1)
      with (Z.of_nat (S (List.length overlays))) by lia.
    apply endswith_refl.
  - intros ->. simpl in Hbody. by injection Hbody as <-.
Qed.

Lemma build_overlay_filter_ends_in_outv_witness :
  Forall spec_in_range [sample_overlay; sample_overlay]
  ∧ ∃ graph,
      build_overlay_filter [sample_overlay; sample_overlay] = Ok graph
      ∧ endswith graph "[ov2]setsar=1[outv]" = true.
Proof.
  assert (Forall spec_in_range [sample_overlay; sample_overlay]) as H
    by (repeat constructor; by vm_compute).
  split; [exact H|].
  destruct (build_overlay_filter_ends_in_outv _ H) as (graph & Hg & _ & He & _).
  by exists graph.
Defined.

Section OverlayCommand.




End OverlayCommand.



Section OverlayOutput.

Lemma overlay_output_name_plain hex output_format :
  contains "/" hex = false → contains "/" output_format = false →
  parse (overlay_output_name hex output_format)
  = {| root := ""; parts := [overlay_output_name hex output_format] |}.
Proof.
  intros Hhex Hfmt. unfold parse. f_equal.
  rewrite split_on_absent; [done|].
  unfold overlay_output_name. by rewrite !contains_char_append, Hhex, Hfmt.
Qed.

Lemma last_three {A} (l : list A) (a b c d : A) :
  List.last (l ++ [a; b; c]) d = c.
Proof.
  change (l ++ [a; b; c]) with (l ++ [a; b] ++ [c]).
  rewrite (assoc_L (++)). apply last_snoc.
Qed.

End OverlayOutput.

(** X9.  The output path of [overlay_video], [temp_dir / "overlay-<hex>.<fmt>"],
    already carries the suffix that [build_overlay_command] puts on it: for a
    format that is not empty and holds neither a dot nor a slash (and a hex
    string without slash), [with_suffix] returns the path unchanged, so the
    last argument of the overlay command is the very file that the pipeline
    probes and uploads afterwards. *)
Theorem overlay_output_path_is_encoder_output (ffmpeg_binary : string)
    (tmp base_video : Path) (overlay_paths : list Path)
    (hex output_format : string) (filter_graph : option string) :
  output_format ≠ "" → contains "." output_format = false →
  contains "/" output_format = false → contains "/" hex = false →
  let output_path := joinpath tmp (overlay_output_name hex output_format) in
  with_suffix output_path ("." +:+ output_format) = Ok output_path
  ∧ ∃ command,
      build_overlay_command ffmpeg_binary base_video overlay_paths output_path
        output_format filter_graph = Ok command
      ∧ List.last command "" = path_str output_path.
Proof.
  intros Hfmt Hdot Hslash Hhex output_path.
  assert (output_path
          = {| root := root tmp;
               parts := parts tmp ++ [overlay_output_name hex output_format] |})
    as Hpath.
  { unfold output_path, joinpath.
    by rewrite overlay_output_name_plain. }
  assert (with_suffix output_path ("." +:+ output_format) = Ok output_path) as Hout.
  { rewrite Hpath. unfold with_suffix.
    assert (contains "/" ("." +:+ output_format) = false) as ->
      by (rewrite append_cons; simpl; exact Hslash).
    assert (String.eqb ("." +:+ output_format) "." = false) as ->.
    { apply String.eqb_neq. rewrite append_cons. intros [=]. done. }
    assert (String.eqb ("." +:+ output_format) "" = false) as -> by done.
    assert (String.prefix "." ("." +:+ output_format) = true) as ->
      by apply (prefix_append "." output_format).
    cbn [negb andb orb].
    unfold path_suffix, path_name. cbn [root parts]. rewrite !last_snoc.
    assert (String.eqb (overlay_output_name hex output_format) "" = false) as ->
      by done.
    set (stem := "overlay-" +:+ hex).
    assert (overlay_output_name hex output_format
            = stem +:+ "." +:+ output_format) as Hname
      by (unfold overlay_output_name, stem; by rewrite append_assoc).
    rewrite Hname, rfind_dot_append by done.
    rewrite !(length_append stem).
    assert (0 < String.length stem)%nat as Hstem
      by (unfold stem; rewrite append_cons; simpl; lia).
    assert (0 < String.length output_format)%nat as Hlen
      by (destruct output_format; [done|simpl; lia]).
    assert ((0 <? String.length stem)%nat = true) as -> by (by apply Nat.ltb_lt).
    assert ((String.length stem
             <? String.length stem + String.length ("." +:+ output_format) - 1)%nat
            = true) as ->.
    { apply Nat.ltb_lt.
      change ("." +:+ output_format) with (String "." output_format).
      simpl. lia. }
    cbn [andb].
    replace (String.length stem + String.length ("." +:+ output_format)
             - String.length stem)%nat
      with (String.length ("." +:+ output_format)) by lia.
    rewrite substring_append_r.
    assert (String.eqb ("." +:+ output_format) "" = false) as -> by done.
    replace (String.length stem + String.length ("." +:+ output_format)
             - String.length ("." +:+ output_format))%nat
      with (String.length stem) by lia.
    rewrite substring_append_l.
    by rewrite removelast_last. }
  split; [exact Hout|].
  unfold build_overlay_command. rewrite Hout. eexists. split; [reflexivity|].
  apply last_three.
Qed.

Lemma overlay_output_path_is_encoder_output_witness :
  let output_path :=
    joinpath (parse "/tmp/job") (overlay_output_name "0f1e2d3c" "mp4") in
  "mp4" ≠ "" ∧ contains "." "mp4" = false ∧ contains "/" "mp4" = false
  ∧ contains "/" "0f1e2d3c" = false
  ∧ with_suffix output_path ".mp4" = Ok output_path
  ∧ ∃ command,
      build_overlay_command "ffmpeg" (parse "/tmp/job/base.mp4") [] output_path
        "mp4" None = Ok command
      ∧ List.last command "" = "/tmp/job/overlay-0f1e2d3c.mp4".
Proof.
  intros output_path.
  assert ("mp4" ≠ "") as H1 by done.
  assert (contains "." "mp4" = false) as H2 by reflexivity.
  assert (contains "/" "mp4" = false) as H3 by reflexivity.
  assert (contains "/" "0f1e2d3c" = false) as H4 by reflexivity.
  split; [exact H1|]. split; [exact H2|]. split; [exact H3|]. split; [exact H4|].
  exact (overlay_output_path_is_encoder_output "ffmpeg" (parse "/tmp/job")
           (parse "/tmp/job/base.mp4") [] "0f1e2d3c" "mp4" None H1 H2 H3 H4).
Defined.

(** The hypothesis on the dot is needed: for the format [tar.gz] the encoder
    is told to write a file that the pipeline does not probe. *)
Lemma overlay_output_path_dotted_format :
  let output_path :=
    joinpath (parse "/tmp/job") (overlay_output_name "0f1e2d3c" "tar.gz") in
  path_str output_path = "/tmp/job/overlay-0f1e2d3c.tar.gz"
  ∧ match with_suffix output_path ".tar.gz" with
    | Ok out => path_str out
    | Raise _ => ""
    end = "/tmp/job/overlay-0f1e2d3c.tar.tar.gz".
Proof. by vm_compute. Qed.
(* ===================================================================== *)
(** * The pipelines: what a run writes, and when                          *)
(* ===================================================================== *)

Section LoopRules.

Variables (settings : Settings) (w : World) (id : string).
Variables (I J : PState → Prop).

Lemma concat_download_loop_rule dir items index acc :
  (∀ index item, hoare I (concat_input_step settings w id dir index item) I J) →
  hoare I (concat_download_loop settings w id dir index items acc) I J.
Proof.
  intros Hstep. revert index acc.
  induction items as [|item items IH]; intros index acc.
  - by apply hoare_ret.
  - eapply hoare_bind; [apply Hstep|intros path; apply IH].
Qed.

Lemma overlay_download_loop_rule dir items index acc :
  (∀ index item, hoare I (overlay_input_step w id dir index item) I J) →
  hoare I (overlay_download_loop w id dir index items acc) I J.
Proof.
  intros Hstep. revert index acc.
  induction items as [|item items IH]; intros index acc.
  - by apply hoare_ret.
  - eapply hoare_bind; [apply Hstep|intros path; apply IH].
Qed.


End LoopRules.

(** The loops, once their step is known to keep the invariant. *)
Ltac loops_by step_concat step_overlay :=
  idtac;
  lazymatch goal with
  | |- hoare _ (concat_download_loop _ _ _ _ _ _ _) _ _ =>
      hoare_post; apply concat_download_loop_rule; intros; apply step_concat
  | |- hoare _ (overlay_download_loop _ _ _ _ _ _) _ _ =>
      hoare_post; apply overlay_download_loop_rule; intros; apply step_overlay
  end.

(** ** What a run does to the database *)

Section DatabaseInvariant.

Variables (settings : Settings) (w : World) (id : string).
Variable R : gmap string JobRecord → Prop.
Hypothesis R_update :
  ∀ now a d, R d → R (RedisJobStoreSync.update_job now id a d).2.

Abbreviation Inv := (db_holds R).

Lemma db_holds_same st k tr :
  db_holds R st → db_holds R {| tick := k; db := db st; trace := tr |}.
Proof. done. Qed.

Lemma store_update_db_holds a : hoare Inv (store_update w id a) Inv Inv.
Proof.
  apply hoare_store_update; [by intros st e H|].
  intros st now H. by apply R_update.
Qed.

Ltac db_side :=
  idtac; intros; first [assumption | apply db_holds_same; assumption].

Ltac db_special :=
  idtac;
  lazymatch goal with
  | |- hoare _ (store_update _ _ _) _ _ => hoare_post; apply store_update_db_holds
  end.

Lemma concat_input_step_db_holds dir index item :
  hoare Inv (concat_input_step settings w id dir index item) Inv Inv.
Proof. hoare_run db_side db_special. Qed.

Lemma overlay_input_step_db_holds dir index item :
  hoare Inv (overlay_input_step w id dir index item) Inv Inv.
Proof. hoare_run db_side db_special. Qed.

Ltac db_loops :=
  first [ loops_by concat_input_step_db_holds overlay_input_step_db_holds
        | db_special ].

Lemma concat_body_db_holds request tmp dir :
  hoare Inv (concat_body settings w id request tmp dir) Inv Inv.
Proof. hoare_run db_side db_loops. Qed.

Lemma overlay_body_db_holds request tmp :
  hoare Inv (overlay_body settings w id request tmp) Inv Inv.
Proof. hoare_run db_side db_loops. Qed.

Lemma on_failure_db_holds m1 m2 exc :
  hoare Inv (on_failure w id m1 m2 exc) Inv Inv.
Proof. hoare_run db_side db_special. Qed.

Lemma cleanup_db_holds tmp : hoare Inv (_cleanup_temp_dir w tmp) Inv Inv.
Proof. hoare_run db_side db_special. Qed.

Lemma run_delivery_db_holds d : hoare Inv (run_delivery settings w id d) Inv Inv.
Proof.
  destruct d as [payload|payload]; simpl.
  - unfold concat_video. hoare_run db_side db_special.
    eapply hoare_finally;
      [eapply hoare_try;
        [apply concat_body_db_holds|intros exc; apply on_failure_db_holds]
      |apply cleanup_db_holds|apply cleanup_db_holds].
  - unfold overlay_video. hoare_run db_side db_special.
    eapply hoare_finally;
      [eapply hoare_try;
        [apply overlay_body_db_holds|intros exc; apply on_failure_db_holds]
      |apply cleanup_db_holds|apply cleanup_db_holds].
Qed.

(** Whatever every [update_job] on the id keeps, a run keeps. *)
Lemma run_delivery_keeps d st :
  R (db st) → R (db (run_delivery settings w id d st).2).
Proof.
  intros H. apply (run_delivery_db_holds d st) in H.
  by destruct (run_delivery settings w id d st) as [[[]|e] st'].
Qed.

End DatabaseInvariant.

Section KeptByUpdates.

Variable id : string.

Lemma update_keeps_others (db0 : gmap string JobRecord) now a d :
  dom d = dom db0 ∧ (∀ k, k ≠ _job_key id → d !! k = db0 !! k) →
  dom (RedisJobStoreSync.update_job now id a d).2 = dom db0
  ∧ ∀ k, k ≠ _job_key id →
      (RedisJobStoreSync.update_job now id a d).2 !! k = db0 !! k.
Proof.
  intros [Hdom Hk]. split.
  - rewrite <-Hdom. apply (update_job_dom Redis).
  - intros k Hne. rewrite <-(Hk k Hne). by apply (update_job_frame Redis).
Qed.

Lemma update_keeps_identity (r : JobRecord) now a d :
  (∃ r', d !! _job_key id = Some r'
         ∧ job_id r' = job_id r ∧ created_at r' = created_at r) →
  ∃ r', (RedisJobStoreSync.update_job now id a d).2 !! _job_key id = Some r'
        ∧ job_id r' = job_id r ∧ created_at r' = created_at r.
Proof.
  intros (r' & Hr' & Hid & Hcreated). unfold RedisJobStoreSync.update_job.
  rewrite Hr'. simpl. rewrite lookup_insert_eq. by eexists.
Qed.

End KeptByUpdates.

(** X10.  A run of [concat_video] or [overlay_video] writes no record but
    that of its own job: in every world and from every state it leaves the
    Redis database with the keys it had (it creates no record, not even a
    missing one for its own job, and deletes none) and with the same record
    under every key other than the key of its job id. *)
Theorem run_writes_own_record_only (settings : Settings) (w : World)
    (id : string) (d : Delivery) (st : PState) :
  dom (db (run_delivery settings w id d st).2) = dom (db st)
  ∧ ∀ k, k ≠ _job_key id →
      db (run_delivery settings w id d st).2 !! k = db st !! k.
Proof.
  apply (run_delivery_keeps settings w id
           (λ d, dom d = dom (db st)
                 ∧ ∀ k, k ≠ _job_key id → d !! k = db st !! k)).
  - intros now a d0. apply update_keeps_others.
  - done.
Qed.

(** ** A run that returns *)

Section Success.

Variable id : string.

Lemma recorded_success_same st k tr :
  recorded_success id st →
  recorded_success id {| tick := k; db := db st; trace := tr |}.
Proof. done. Qed.

Lemma store_update_success w a (P : PState → Prop) :
  u_status a = Some SUCCEEDED → is_Some (u_result_media_id a) →
  hoare P (store_update w id a) (recorded_success id) (λ _, True).
Proof.
  intros Hs Hr. apply hoare_store_update; [done|].
  intros st now _ r. simpl. unfold RedisJobStoreSync.update_job.
  destruct (db st !! _job_key id) as [r0|] eqn:E; simpl.
  - rewrite lookup_insert_eq. intros [= <-]. simpl.
    rewrite Hs. split; [done|]. by destruct Hr as [x ->].
  - by rewrite E.
Qed.

Lemma store_update_any w a (P : PState → Prop) :
  hoare P (store_update w id a) (λ _, True) (λ _, True).
Proof. by apply hoare_store_update. Qed.

End Success.

Ltac success_side :=
  idtac; intros;
  first [exact I | assumption | apply recorded_success_same; assumption].

Ltac success_special :=
  idtac;
  lazymatch goal with
  | |- hoare _ (store_update _ _ _) _ _ =>
      first [ apply store_update_success; [reflexivity|simpl; by eauto]
            | apply store_update_any ]
  end.

Section SuccessRuns.

Variables (settings : Settings) (w : World) (id : string).

Abbreviation Any_state := (λ _ : PState, True).

Lemma concat_input_step_any dir index item :
  hoare Any_state (concat_input_step settings w id dir index item)
    Any_state Any_state.
Proof. hoare_run success_side success_special. Qed.

Lemma overlay_input_step_any dir index item :
  hoare Any_state (overlay_input_step w id dir index item) Any_state Any_state.
Proof. hoare_run success_side success_special. Qed.

Ltac success_loops :=
  first [ loops_by concat_input_step_any overlay_input_step_any
        | success_special ].

Lemma concat_body_success request tmp dir :
  hoare Any_state (concat_body settings w id request tmp dir)
    (recorded_success id) Any_state.
Proof. hoare_run success_side success_loops. Qed.

Lemma overlay_body_success request tmp :
  hoare Any_state (overlay_body settings w id request tmp)
    (recorded_success id) Any_state.
Proof. hoare_run success_side success_loops. Qed.

Lemma on_failure_raises (Q : PState → Prop) m1 m2 exc :
  hoare Any_state (on_failure w id m1 m2 exc) Q Any_state.
Proof. hoare_run success_side success_special. Qed.

Lemma cleanup_success tmp :
  hoare (recorded_success id) (_cleanup_temp_dir w tmp)
    (recorded_success id) Any_state.
Proof. hoare_run success_side success_special. Qed.

Lemma cleanup_any tmp :
  hoare Any_state (_cleanup_temp_dir w tmp) Any_state Any_state.
Proof. hoare_run success_side success_special. Qed.

Lemma run_delivery_success d :
  hoare Any_state (run_delivery settings w id d) (recorded_success id) Any_state.
Proof.
  destruct d as [payload|payload]; simpl.
  - unfold concat_video. hoare_run success_side success_special.
    eapply hoare_finally;
      [eapply hoare_try;
        [apply concat_body_success|intros exc; apply on_failure_raises]
      |apply cleanup_success|apply cleanup_any].
  - unfold overlay_video. hoare_run success_side success_special.
    eapply hoare_finally;
      [eapply hoare_try;
        [apply overlay_body_success|intros exc; apply on_failure_raises]
      |apply cleanup_success|apply cleanup_any].
Qed.

End SuccessRuns.

(** X11.  In every world and from every state, a run of [concat_video] or
    [overlay_video] that returns without raising has recorded its success:
    the record of its job, when the store holds one, has status [SUCCEEDED]
    and a result media id. *)
Theorem returned_run_has_recorded_success (settings : Settings) (w : World)
    (id : string) (d : Delivery) (st : PState) :
  is_ok (run_delivery settings w id d st).1 = true →
  ∀ r, final_record id (run_delivery settings w id d st).2 = Some r →
    status r = SUCCEEDED ∧ is_Some (result_media_id r).
Proof.
  intros Hok. pose proof (run_delivery_success settings w id d st I) as H.
  by destruct (run_delivery settings w id d st) as [[[]|e] st'].
Qed.

Lemma returned_run_has_recorded_success_witness :
  let st := queued_state "job-1" Concat (ConcatParams sample_request) in
  let out := run_delivery sample_settings calm_world "job-1"
               (DeliverConcat sample_request) st in
  is_ok out.1 = true
  ∧ ∀ r, final_record "job-1" out.2 = Some r →
      status r = SUCCEEDED ∧ is_Some (result_media_id r).
Proof.
  intros st out. split; [by vm_compute|].
  apply (returned_run_has_recorded_success sample_settings calm_world "job-1"
           (DeliverConcat sample_request) st).
  by vm_compute.
Defined.

(** ** The failure handler and the logger *)

Section Handler.

Variables (w : World) (id : string).

Lemma on_failure_loud log_msg unhandled_msg exc st :
  log_enabled w ERROR = true →
  on_failure w id log_msg unhandled_msg exc st
  = (Raise (logger_type_error "job_id"),
     {| tick := tick st; db := db st;
        trace := trace st ++ [EvLog ERROR (failure_log log_msg exc)] |}).
Proof.
  intros Hloud.
  destruct exc; unfold on_failure, logger_call, mbind, M_bind, emit; simpl;
    by rewrite Hloud.
Qed.

Lemma on_failure_quiet log_msg unhandled_msg exc st r :
  log_enabled w ERROR = false → redis_reply w (S (tick st)) = None →
  db st !! _job_key id = Some r →
  on_failure w id log_msg unhandled_msg exc st
  = let a := {| u_status := Some FAILED;
                u_progress :=
                  Some {| percent := 100; current_step := Some "failed";
                          snap_message := Some "Processing failed";
                          snap_updated_at := utcnow w (tick st) |};
                u_result_media_id := None;
                u_message := Some (failure_message unhandled_msg exc);
                u_error := Some (str_exn exc); u_metadata := None |} in
    let r' := apply_update (utcnow w (S (tick st))) a r in
    (Raise exc,
     {| tick := S (S (tick st)); db := <[_job_key id := r']> (db st);
        trace := trace st ++ [EvLog ERROR (failure_log log_msg exc)]
                          ++ [EvUpdate a (Some r')] |}).
Proof.
  intros Hquiet Hredis Hr.
  destruct exc;
    unfold on_failure, logger_call, failed, _progress, store_update,
      mbind, M_bind, mret, M_ret, emit, next_tick, raise; simpl;
    rewrite Hquiet; simpl; rewrite Hredis; simpl;
    unfold RedisJobStoreSync.update_job; rewrite Hr; simpl;
    by rewrite <-(assoc_L (++)).
Qed.

End Handler.

Section NeverFailed.

Variables (db0 : gmap string JobRecord) (id : string).

Lemma failed_as_in_same st k tr :
  failed_as_in db0 id st →
  failed_as_in db0 id {| tick := k; db := db st; trace := tr |}.
Proof. done. Qed.

Lemma store_update_not_failed w a :
  u_status a ≠ Some FAILED →
  hoare (failed_as_in db0 id) (store_update w id a)
    (failed_as_in db0 id) (failed_as_in db0 id).
Proof.
  intros Ha. apply hoare_store_update; [by intros st e H|].
  intros st now H r. simpl. unfold RedisJobStoreSync.update_job.
  destruct (db st !! _job_key id) as [r1|] eqn:E; simpl.
  - rewrite lookup_insert_eq. intros [= <-]. simpl.
    destruct (u_status a) as [s|] eqn:Es; simpl.
    + intros ->. done.
    + by apply H.
  - rewrite E. done.
Qed.

End NeverFailed.

Ltac loud_side :=
  idtac; intros; first [assumption | apply failed_as_in_same; assumption].

Ltac loud_special :=
  idtac;
  lazymatch goal with
  | |- hoare _ (store_update _ _ _) _ _ =>
      hoare_post; apply store_update_not_failed; simpl; congruence
  end.

Section LoudRuns.

Variables (settings : Settings) (w : World).
Variables (db0 : gmap string JobRecord) (id : string).
Hypothesis loud : log_enabled w ERROR = true.

Abbreviation Inv := (failed_as_in db0 id).

Lemma concat_input_step_loud dir index item :
  hoare Inv (concat_input_step settings w id dir index item) Inv Inv.
Proof. hoare_run loud_side loud_special. Qed.

Lemma overlay_input_step_loud dir index item :
  hoare Inv (overlay_input_step w id dir index item) Inv Inv.
Proof. hoare_run loud_side loud_special. Qed.

Ltac loud_loops :=
  first [ loops_by concat_input_step_loud overlay_input_step_loud
        | loud_special ].

Lemma concat_body_loud request tmp dir :
  hoare Inv (concat_body settings w id request tmp dir) Inv Inv.
Proof. hoare_run loud_side loud_loops. Qed.

Lemma overlay_body_loud request tmp :
  hoare Inv (overlay_body settings w id request tmp) Inv Inv.
Proof. hoare_run loud_side loud_loops. Qed.

Lemma on_failure_loud_keeps m1 m2 exc :
  hoare Inv (on_failure w id m1 m2 exc) Inv Inv.
Proof. intros st H. by rewrite on_failure_loud. Qed.

Lemma cleanup_loud tmp : hoare Inv (_cleanup_temp_dir w tmp) Inv Inv.
Proof. hoare_run loud_side loud_special. Qed.

Lemma run_delivery_loud d : hoare Inv (run_delivery settings w id d) Inv Inv.
Proof.
  destruct d as [payload|payload]; simpl.
  - unfold concat_video. hoare_run loud_side loud_special.
    eapply hoare_finally;
      [eapply hoare_try;
        [apply concat_body_loud|intros exc; apply on_failure_loud_keeps]
      |apply cleanup_loud|apply cleanup_loud].
  - unfold overlay_video. hoare_run loud_side loud_special.
    eapply hoare_finally;
      [eapply hoare_try;
        [apply overlay_body_loud|intros exc; apply on_failure_loud_keeps]
      |apply cleanup_loud|apply cleanup_loud].
Qed.

End LoudRuns.

(** X12.  [tasks.py] logs through a standard [logging.Logger] and passes it
    the keywords [job_id] and [error].  Where the level [ERROR] is enabled,
    each [except] clause therefore raises [TypeError] from its first line:
    it writes nothing to the store and replaces the exception it was
    handling.  So in such a world no run ever sets a job to [FAILED]: a
    record that says [FAILED] after a run said so before it. *)
Theorem enabled_logger_never_records_failure (settings : Settings) (w : World)
    (id : string) :
  log_enabled w ERROR = true →
  (∀ log_msg unhandled_msg exc st,
     on_failure w id log_msg unhandled_msg exc st
     = (Raise (logger_type_error "job_id"),
        {| tick := tick st; db := db st;
           trace := trace st ++ [EvLog ERROR (failure_log log_msg exc)] |}))
  ∧ (∀ d st r,
       final_record id (run_delivery settings w id d st).2 = Some r →
       status r = FAILED →
       ∃ r0, final_record id st = Some r0 ∧ status r0 = FAILED).
Proof.
  intros Hloud. split.
  - intros. by apply on_failure_loud.
  - intros d st r.
    assert (failed_as_in (db st) id st) as H by (intros r0 ? ?; by exists r0).
    apply (run_delivery_loud settings w (db st) id Hloud d st) in H.
    destruct (run_delivery settings w id d st) as [[[]|e] st']; apply H.
Qed.

Lemma enabled_logger_never_records_failure_witness :
  log_enabled calm_world ERROR = true
  ∧ (∀ log_msg unhandled_msg exc st,
       on_failure calm_world "job-1" log_msg unhandled_msg exc st
       = (Raise (logger_type_error "job_id"),
          {| tick := tick st; db := db st;
             trace := trace st ++ [EvLog ERROR (failure_log log_msg exc)] |}))
  ∧ (∀ d st r,
       final_record "job-1" (run_delivery sample_settings calm_world "job-1" d st).2
       = Some r →
       status r = FAILED →
       ∃ r0, final_record "job-1" st = Some r0 ∧ status r0 = FAILED).
Proof.
  split; [reflexivity|].
  exact (enabled_logger_never_records_failure sample_settings calm_world "job-1"
           eq_refl).
Defined.

(** X13.  Where the level [ERROR] is disabled and the store answers, the
    [except] clauses do what they are written for: for every exception
    they set the record of the job to [FAILED] with progress 100, the error
    detail [str(exc)] and the message of the clause ([FFmpeg command failed]
    for an encoder failure), keep the result field as it was, and raise the
    same exception again. *)
Theorem disabled_logger_records_failure (w : World) (id : string)
    (log_msg unhandled_msg : string) (exc : exn) (st : PState) (r : JobRecord) :
  log_enabled w ERROR = false → redis_reply w (S (tick st)) = None →
  final_record id st = Some r →
  (on_failure w id log_msg unhandled_msg exc st).1 = Raise exc
  ∧ ∃ r', final_record id (on_failure w id log_msg unhandled_msg exc st).2 = Some r'
          ∧ status r' = FAILED
          ∧ error r' = Some (str_exn exc)
          ∧ message r' = Some (failure_message unhandled_msg exc)
          ∧ percent <$> progress r' = Some 100
          ∧ result_media_id r' = result_media_id r.
Proof.
  intros Hquiet Hredis Hr.
  rewrite (on_failure_quiet w id log_msg unhandled_msg exc st r Hquiet Hredis Hr).
  split; [done|]. eexists. unfold final_record. simpl.
  by rewrite lookup_insert_eq.
Qed.

Lemma disabled_logger_records_failure_witness :
  let st := queued_state "job-1" Concat (ConcatParams sample_request) in
  let exc := FFmpegExecutionError ["ffmpeg"; "-y"] "Invalid data" in
  let out := on_failure encoder_fails_quiet "job-1" "Concat job failed"
               "Unhandled error during video concat" exc st in
  log_enabled encoder_fails_quiet ERROR = false
  ∧ redis_reply encoder_fails_quiet (S (tick st)) = None
  ∧ out.1 = Raise exc
  ∧ ∃ r', final_record "job-1" out.2 = Some r'
          ∧ status r' = FAILED
          ∧ error r' = Some "FFmpeg command failed: ffmpeg -y
Invalid data"
          ∧ message r' = Some "FFmpeg command failed"
          ∧ percent <$> progress r' = Some 100
          ∧ result_media_id r' = None.
Proof.
  intros st exc out. split; [reflexivity|]. split; [reflexivity|].
  exact (disabled_logger_records_failure encoder_fails_quiet "job-1"
           "Concat job failed" "Unhandled error during video concat" exc st
           (new_record 900 "job-1" Concat (ConcatParams sample_request) ∅)
           eq_refl eq_refl eq_refl).
Defined.

(** ** Failures before the [try] block *)

Section Setup.

Variables (settings : Settings) (w : World) (id : string).


End Setup.



(** ** The temporary directory *)

Section Cleanup.

Implicit Types (st : PState) (ev : Event).





End Cleanup.



Section CleanupRuns.

Variables (settings : Settings) (w : World) (id : string).



End CleanupRuns.



(** X16.  [_cleanup_temp_dir] is best effort only while the level [DEBUG]
    is disabled: it never touches the store, and it raises exactly when
    removing the directory fails and [DEBUG] is enabled, in which case the
    exception is the [TypeError] of the [logger.debug] call with its
    keyword [path]. *)
Theorem cleanup_raises_only_through_logger (w : World) (dir : Path)
    (st : PState) :
  db (_cleanup_temp_dir w dir st).2 = db st
  ∧ (is_ok (_cleanup_temp_dir w dir st).1 = false
     ↔ is_Some (fs_reply w (tick st)) ∧ log_enabled w DEBUG = true)
  ∧ ∀ e, (_cleanup_temp_dir w dir st).1 = Raise e → e = logger_type_error "path".
Proof.
  unfold _cleanup_temp_dir, logger_call, mbind, M_bind, next_tick, emit. simpl.
  destruct (fs_reply w (tick st)) as [e0|]; simpl.
  - destruct (log_enabled w DEBUG); simpl.
    + split; [done|]. split; [by eauto|]. by intros e [= <-].
    + split; [done|]. split; [|done]. split; [done|]. by intros [_ ?].
  - split; [done|]. split; [|done]. split; [done|]. by intros [[? [=]] _].
Qed.

(** ** Progress reports past 100 *)

Section NeverReturns.

Variables (settings : Settings) (w : World) (id : string).

Lemma hoare_any {A} (P : PState → Prop) (m : M A) :
  hoare P m (λ _, True) (λ _, True).
Proof. intros st _. by destruct (m st) as [[?|?] ?]. Qed.

Lemma hoare_unreachable {A} (m : M A) (Q R : PState → Prop) :
  hoare (λ _, False) m Q R.
Proof. by intros st []. Qed.

Lemma never_returns_bind {A B} (m : M A) (f : A → M B) :
  never_returns m → never_returns (m ≫= f).
Proof.
  intros H. eapply hoare_bind; [exact H|]. intros a. apply hoare_unreachable.
Qed.

Lemma never_returns_then {A B} (m : M A) (f : A → M B) :
  (∀ a, never_returns (f a)) → never_returns (m ≫= f).
Proof. intros H. eapply hoare_bind; [apply hoare_any|exact H]. Qed.

Lemma never_returns_ret_bind {A B} (a : A) (f : A → M B) :
  never_returns (f a) → never_returns (mret a ≫= f).
Proof. intros H st HP. exact (H st HP). Qed.

Lemma never_returns_guarded {A} (body : M A) handler final :
  never_returns body → (∀ e, never_returns (handler e)) →
  never_returns (try_finally (try_except body handler) final).
Proof.
  intros Hb Hh.
  eapply hoare_finally;
    [eapply hoare_try; [exact Hb|exact Hh]
    |apply hoare_unreachable|apply hoare_any].
Qed.

Lemma never_returns_run {A} (m : M A) st :
  never_returns m → is_ok (m st).1 = false.
Proof. intros H. specialize (H st I). by destruct (m st) as [[?|?] ?]. Qed.

Lemma report_past_100 pct step msg :
  100 < pct → never_returns (report w id pct step msg).
Proof.
  intros Hpct st _.
  unfold report, _progress, mbind, M_bind, next_tick. simpl.
  assert ((0 <=? pct) && (pct <=? 100) = false) as ->; [|done].
  apply andb_false_iff. right. lia.
Qed.

Lemma on_failure_never_returns m1 m2 exc :
  never_returns (on_failure w id m1 m2 exc).
Proof. apply on_failure_raises. Qed.

Lemma concat_download_loop_never_returns dir items index acc :
  (index ≤ 10)%nat → (10 < index + List.length items)%nat →
  never_returns (concat_download_loop settings w id dir index items acc).
Proof.
  revert index acc. induction items as [|item items IH]; intros index acc Hi Hn.
  - simpl in Hn. lia.
  - cbn [concat_download_loop].
    destruct (decide (index = 10%nat)) as [->|Hne].
    + apply never_returns_bind. unfold concat_input_step.
      apply never_returns_bind, report_past_100. lia.
    + apply never_returns_then. intros path. apply IH; simpl in Hn; lia.
Qed.

Lemma overlay_download_loop_never_returns dir items index acc :
  (index ≤ 18)%nat → (18 < index + List.length items)%nat →
  never_returns (overlay_download_loop w id dir index items acc).
Proof.
  revert index acc. induction items as [|item items IH]; intros index acc Hi Hn.
  - simpl in Hn. lia.
  - cbn [overlay_download_loop].
    destruct (decide (index = 18%nat)) as [->|Hne].
    + apply never_returns_bind. unfold overlay_input_step.
      apply never_returns_bind, report_past_100. lia.
    + apply never_returns_then. intros path. apply IH; simpl in Hn; lia.
Qed.

Lemma run_delivery_never_returns d :
  (most_inputs d < reported_inputs d)%nat →
  never_returns (run_delivery settings w id d).
Proof.
  destruct d as [payload|payload]; simpl; intros Hn.
  - unfold concat_video.
    apply never_returns_then; intros ?; cbv beta.
    unfold validate_concat.
    destruct (_ && _); [|by apply never_returns_bind, hoare_raise].
    apply never_returns_ret_bind.
    do 3 (apply never_returns_then; intros ?; cbv beta).
    apply never_returns_guarded; [|apply on_failure_never_returns].
    unfold concat_body. apply never_returns_bind.
    apply concat_download_loop_never_returns; lia.
  - unfold overlay_video.
    apply never_returns_then; intros ?; cbv beta.
    unfold validate_overlay.
    destruct (_ && _); [|by apply never_returns_bind, hoare_raise].
    apply never_returns_ret_bind.
    do 2 (apply never_returns_then; intros ?; cbv beta).
    apply never_returns_guarded; [|apply on_failure_never_returns].
    unfold overlay_body.
    do 2 (apply never_returns_then; intros ?; cbv beta).
    apply never_returns_bind.
    apply overlay_download_loop_never_returns; lia.
Qed.

End NeverReturns.

(** X17.  Progress before input [index] is reported as [10 + index * 10]
    by [concat_video] and as [15 + index * 5] by [overlay_video], and
    [ProgressSnapshot] rejects a percentage above 100.  So a concat job of
    more than 10 inputs and an overlay job of more than 18 overlays never
    complete: in every world and from every state the run raises. *)
Theorem too_many_inputs_never_complete (settings : Settings) (w : World)
    (id : string) (d : Delivery) (st : PState) :
  (most_inputs d < reported_inputs d)%nat →
  is_ok (run_delivery settings w id d st).1 = false.
Proof.
  intros Hn. by apply never_returns_run, run_delivery_never_returns.
Qed.

Lemma too_many_inputs_never_complete_witness :
  let d := DeliverConcat (clips_request 11) in
  (most_inputs d < reported_inputs d)%nat
  ∧ is_ok (run_delivery sample_settings calm_world "job-1" d
             (queued_state "job-1" Concat (ConcatParams (clips_request 11)))).1
    = false.
Proof.
  intros d.
  assert (most_inputs d < reported_inputs d)%nat as H by (vm_compute; lia).
  split; [exact H|].
  exact (too_many_inputs_never_complete sample_settings calm_world "job-1" d _ H).
Defined.

(** These bounds are the largest requests that can complete: with every
    outside call succeeding, 10 inputs and 18 overlays do. *)
Lemma most_inputs_complete :
  is_ok (run_delivery sample_settings calm_world "job-1"
           (DeliverConcat (clips_request 10))
           (queued_state "job-1" Concat (ConcatParams (clips_request 10)))).1
  = true
  ∧ is_ok (run_delivery sample_settings calm_world "job-2"
             (DeliverOverlay (layers_request 18))
             (queued_state "job-2" Overlay (OverlayParams (layers_request 18)))).1
    = true.
Proof. by vm_compute. Qed.

(** ** Metadata of the result *)

(* ===================================================================== *)
(** * The HTTP handlers                                                   *)
(* ===================================================================== *)

Section Submissions.

Variables (env : Env) (s : Submission) (app : App) (store : Backend).
Hypothesis configured : job_store app = Some store.

Lemma submit_stored :
  store_reply env store = None → env_broker_reply env = None →
  submit env s app
  = (Returned {| jobId := env_uuid4_hex env |},
     {| job_store := job_store app;
        records := <[key_of store (env_uuid4_hex env) := submitted_record env s]>
                     (records app);
        queue := queue app ++ [(env_uuid4_hex env, submitted_delivery s)] |}).
Proof.
  intros Hreply Hbroker.
  destruct s as [request_body|request_body]; simpl;
    unfold submit_concat_job, submit_overlay_job, get_job_store, store_create,
      enqueue_concat_job, enqueue_overlay_job;
    rewrite configured; cbv beta iota; rewrite Hreply, create_job_unfold;
    cbv beta iota; simpl; by rewrite Hbroker.
Qed.

Lemma submit_store_down e :
  store_reply env store = Some e → submit env s app = (Unhandled e, app).
Proof.
  intros Hreply.
  destruct s as [request_body|request_body]; simpl;
    unfold submit_concat_job, submit_overlay_job, get_job_store, store_create;
    rewrite configured; cbv beta iota; by rewrite Hreply.
Qed.

Lemma submit_broker_down e :
  store_reply env store = None → env_broker_reply env = Some e →
  submit env s app
  = (Unhandled e,
     {| job_store := job_store app;
        records := <[key_of store (env_uuid4_hex env) := submitted_record env s]>
                     (records app);
        queue := queue app |}).
Proof.
  intros Hreply Hbroker.
  destruct s as [request_body|request_body]; simpl;
    unfold submit_concat_job, submit_overlay_job, get_job_store, store_create,
      enqueue_concat_job, enqueue_overlay_job;
    rewrite configured; cbv beta iota; rewrite Hreply, create_job_unfold;
    cbv beta iota; simpl; by rewrite Hbroker.
Qed.

End Submissions.

Lemma get_job_status_stored env job_id app store record :
  job_store app = Some store → store_reply env store = None →
  records app !! key_of store job_id = Some record →
  get_job_status env job_id app
  = Returned {| resp_job_id := JobModels.job_id record;
                resp_job_type := job_type record;
                resp_status := status record;
                resp_progress := progress record;
                resp_result_media_id := result_media_id record;
                resp_message := message record;
                resp_error := error record;
                resp_created_at := created_at record;
                resp_updated_at := updated_at record;
                resp_metadata := metadata record |}.
Proof.
  intros Hstore Hreply Hrecord. unfold get_job_status, get_job_store.
  rewrite Hstore. cbv beta iota. by rewrite Hreply, get_job_unfold, Hrecord.
Qed.

(** X19.  A submission that goes through (the store is configured and
    answers, the broker accepts the task) returns the fresh job id, puts
    exactly one message on the queue, with that id and the request as
    payload, and leaves a record that [get_job_status] reports as [QUEUED]
    under that id: with the type and the metadata of the request, with no
    progress, result, message or error, and with the two clock readings of
    its construction as creation and update time. *)
Theorem submitted_job_is_queued (env env' : Env) (s : Submission) (app : App)
    (store : Backend) :
  job_store app = Some store →
  store_reply env store = None → env_broker_reply env = None →
  store_reply env' store = None →
  let job_id := env_uuid4_hex env in
  (submit env s app).1 = Returned {| jobId := job_id |}
  ∧ queue (submit env s app).2 = queue app ++ [(job_id, submitted_delivery s)]
  ∧ get_job_status env' job_id (submit env s app).2
    = Returned {| resp_job_id := job_id;
                  resp_job_type := submitted_type s;
                  resp_status := QUEUED;
                  resp_progress := None;
                  resp_result_media_id := None;
                  resp_message := None;
                  resp_error := None;
                  resp_created_at := env_utcnow env 0;
                  resp_updated_at := env_utcnow env 1;
                  resp_metadata := submitted_metadata s |}.
Proof.
  intros Hstore Hreply Hbroker Hreply' job_id.
  rewrite (submit_stored env s app store Hstore Hreply Hbroker).
  split; [done|]. split; [done|].
  by rewrite (get_job_status_stored env' job_id _ store (submitted_record env s))
    by (done || apply lookup_insert_eq).
Qed.

Lemma submitted_job_is_queued_witness :
  let env := {| env_uuid4_hex := "0f1e2d3c"; env_utcnow := λ n, 900 + Z.of_nat n;
                env_redis_reply := None; env_broker_reply := None |} in
  let app := {| job_store := Some InMemory; records := ∅; queue := [] |} in
  let s := SubmitConcat sample_request in
  job_store app = Some InMemory
  ∧ (submit env s app).1 = Returned {| jobId := "0f1e2d3c" |}
  ∧ queue (submit env s app).2 = [("0f1e2d3c", DeliverConcat sample_request)]
  ∧ get_job_status env "0f1e2d3c" (submit env s app).2
    = Returned {| resp_job_id := "0f1e2d3c";
                  resp_job_type := Concat;
                  resp_status := QUEUED;
                  resp_progress := None;
                  resp_result_media_id := None;
                  resp_message := None;
                  resp_error := None;
                  resp_created_at := 900;
                  resp_updated_at := 901;
                  resp_metadata := ∅ |}.
Proof.
  intros env app s. split; [reflexivity|].
  exact (submitted_job_is_queued env env s app InMemory
           eq_refl eq_refl eq_refl eq_refl).
Defined.



(** X21.  The submission handlers write the record before they enqueue the
    task and undo nothing.  When the store call fails, nothing is written
    and nothing is enqueued.  When the store call succeeds and the broker
    call fails, the handler fails although the record is stored: the job
    stays visible as [QUEUED] and no task for it is on the queue. *)
Theorem failed_submission_is_not_undone (env env' : Env) (s : Submission)
    (app : App) (store : Backend) :
  job_store app = Some store → store_reply env' store = None →
  (∀ e, store_reply env store = Some e →
        submit env s app = (Unhandled e, app))
  ∧ (∀ e, store_reply env store = None → env_broker_reply env = Some e →
          (submit env s app).1 = Unhandled e
          ∧ queue (submit env s app).2 = queue app
          ∧ ∃ response,
              get_job_status env' (env_uuid4_hex env) (submit env s app).2
              = Returned response
              ∧ resp_status response = QUEUED).
Proof.
  intros Hstore Hreply'. split.
  - intros e Hreply. by apply (submit_store_down env s app store).
  - intros e Hreply Hbroker.
    rewrite (submit_broker_down env s app store Hstore e Hreply Hbroker).
    split; [done|]. split; [done|]. eexists.
    by rewrite (get_job_status_stored env' _ _ store (submitted_record env s))
      by (done || apply lookup_insert_eq).
Qed.

Lemma failed_submission_is_not_undone_witness :
  let env := {| env_uuid4_hex := "0f1e2d3c"; env_utcnow := λ n, 900 + Z.of_nat n;
                env_redis_reply := None;
                env_broker_reply :=
                  Some (Exception "OperationalError" "Connection refused") |} in
  let app := {| job_store := Some Redis; records := ∅; queue := [] |} in
  let s := SubmitConcat sample_request in
  job_store app = Some Redis ∧ store_reply env Redis = None
  ∧ (submit env s app).1
    = Unhandled (Exception "OperationalError" "Connection refused")
  ∧ queue (submit env s app).2 = []
  ∧ ∃ response,
      get_job_status env "0f1e2d3c" (submit env s app).2 = Returned response
      ∧ resp_status response = QUEUED.
Proof.
  intros env app s. split; [reflexivity|]. split; [reflexivity|].
  exact (proj2 (failed_submission_is_not_undone env env s app Redis
                  eq_refl eq_refl) _ eq_refl eq_refl).
Defined.

(** X22.  From submission to result: when a job has been submitted through
    the Redis store and the worker's run of the queued message returns,
    [get_job_status] for the submitted id reports [SUCCEEDED] with a result
    media id, under the creation time of the submission. *)
Theorem completed_job_is_reported (settings : Settings) (w : World)
    (env env' : Env) (s : Submission) (app : App) :
  job_store app = Some Redis →
  env_redis_reply env = None → env_broker_reply env = None →
  env_redis_reply env' = None →
  let job_id := env_uuid4_hex env in
  let app' := (submit env s app).2 in
  let out := run_delivery settings w job_id (submitted_delivery s)
               (worker_state app') in
  is_ok out.1 = true →
  ∃ response,
    get_job_status env' job_id (after_worker app' out.2) = Returned response
    ∧ resp_job_id response = job_id
    ∧ resp_status response = SUCCEEDED
    ∧ is_Some (resp_result_media_id response)
    ∧ resp_created_at response = env_utcnow env 0.
Proof.
  intros Hstore Hreply Hbroker Hreply' job_id app' out Hok.
  assert (app' = {| job_store := job_store app;
                    records := <[_job_key job_id := submitted_record env s]>
                                 (records app);
                    queue := queue app ++ [(job_id, submitted_delivery s)] |})
    as Happ by (unfold app'; by rewrite (submit_stored env s app Redis)).
  assert (records app' !! _job_key job_id = Some (submitted_record env s))
    as Hrecord by (rewrite Happ; apply lookup_insert_eq).
  pose proof (run_delivery_success settings w job_id (submitted_delivery s)
                (worker_state app') I) as Hsuccess.
  pose proof (run_delivery_keeps settings w job_id _
                (update_keeps_identity job_id (submitted_record env s))
                (submitted_delivery s) (worker_state app')
                (ex_intro _ _ (conj Hrecord (conj eq_refl eq_refl))))
    as (record' & Hrecord' & Hid & Hcreated).
  fold out in Hsuccess, Hrecord'.
  destruct out as [[[]|e] st']; [|done]. simpl in Hsuccess, Hrecord'.
  destruct (Hsuccess record' Hrecord') as [Hstatus Hresult].
  exists {| resp_job_id := JobModels.job_id record';
            resp_job_type := job_type record';
            resp_status := status record';
            resp_progress := progress record';
            resp_result_media_id := result_media_id record';
            resp_message := message record';
            resp_error := error record';
            resp_created_at := created_at record';
            resp_updated_at := updated_at record';
            resp_metadata := metadata record' |}.
  split; [|by rewrite Hid, Hcreated].
  apply (get_job_status_stored env' job_id _ Redis record'); [|done|done].
  by rewrite Happ.
Qed.

Lemma completed_job_is_reported_witness :
  let env := {| env_uuid4_hex := "0f1e2d3c"; env_utcnow := λ n, 900 + Z.of_nat n;
                env_redis_reply := None; env_broker_reply := None |} in
  let app := {| job_store := Some Redis; records := ∅; queue := [] |} in
  let s := SubmitConcat sample_request in
  let app' := (submit env s app).2 in
  let out := run_delivery sample_settings calm_world "0f1e2d3c"
               (submitted_delivery s) (worker_state app') in
  job_store app = Some Redis ∧ is_ok out.1 = true
  ∧ ∃ response,
      get_job_status env "0f1e2d3c" (after_worker app' out.2) = Returned response
      ∧ resp_job_id response = "0f1e2d3c"
      ∧ resp_status response = SUCCEEDED
      ∧ is_Some (resp_result_media_id response)
      ∧ resp_created_at response = 900.
Proof.
  intros env app s app' out. split; [reflexivity|].
  assert (is_ok out.1 = true) as Hok by (by vm_compute).
  split; [exact Hok|].
  exact (completed_job_is_reported sample_settings calm_world env env s app
           eq_refl eq_refl eq_refl eq_refl Hok).
Defined.
(* ===================================================================== *)
(** * The manifest of a concat run                                        *)
(* ===================================================================== *)

Section ValueRules.

Lemma hoare_val_bind {A B} (P : PState → Prop) (R : A → PState → Prop)
    (Q J : PState → Prop) (m : M A) (f : A → M B) :
  hoare_val P m R J → (∀ a, hoare (R a) (f a) Q J) → hoare P (m ≫= f) Q J.
Proof.
  intros Hm Hf st HP. specialize (Hm st HP).
  unfold mbind, M_bind. destruct (m st) as [[a|e] st']; [|done].
  by apply Hf.
Qed.

Lemma hoare_val_bind_val {A B} (P : PState → Prop) (R : A → PState → Prop)
    (Q : B → PState → Prop) (J : PState → Prop) (m : M A) (f : A → M B) :
  hoare_val P m R J → (∀ a, hoare_val (R a) (f a) Q J) →
  hoare_val P (m ≫= f) Q J.
Proof.
  intros Hm Hf st HP. specialize (Hm st HP).
  unfold mbind, M_bind. destruct (m st) as [[a|e] st']; [|done].
  by apply Hf.
Qed.

Lemma hoare_val_any {A} (P Q J : PState → Prop) (m : M A) :
  hoare P m Q J → hoare_val P m (λ _, Q) J.
Proof. done. Qed.

Lemma hoare_pure {A} (φ : Prop) (P Q J : PState → Prop) (m : M A) :
  (φ → hoare P m Q J) → hoare (λ st, P st ∧ φ) m Q J.
Proof. intros H st [HP Hφ]. by apply H. Qed.

End ValueRules.

Section Manifests.

Variables (tr0 : list Event) (n : nat).

Lemma manifests_same st k d :
  manifests_list tr0 n st →
  manifests_list tr0 n {| tick := k; db := d; trace := trace st |}.
Proof. done. Qed.

Lemma manifests_snoc st ev k d :
  match ev with EvWrite _ _ => false | _ => true end = true →
  manifests_list tr0 n st →
  manifests_list tr0 n {| tick := k; db := d; trace := trace st ++ [ev] |}.
Proof.
  intros Hev H p text. simpl. rewrite elem_of_app, list_elem_of_singleton.
  intros [Hin|<-]; [by apply H|done].
Qed.

Lemma manifests_write st p paths k d :
  List.length paths = n → manifests_list tr0 n st →
  manifests_list tr0 n
    {| tick := k; db := d;
       trace := trace st ++ [EvWrite p (generate_concat_filelist paths)] |}.
Proof.
  intros Hlen H p' text. simpl. rewrite elem_of_app, list_elem_of_singleton.
  intros [Hin|[= -> ->]]; [by apply H|]. right. by exists paths.
Qed.

Lemma store_update_manifests w id a :
  hoare (manifests_list tr0 n) (store_update w id a)
    (manifests_list tr0 n) (manifests_list tr0 n).
Proof. apply hoare_store_update; intros; by apply manifests_snoc. Qed.

End Manifests.

Ltac manifest_side :=
  idtac; intros;
  first
    [ assumption
    | apply manifests_same; assumption
    | apply manifests_snoc; [reflexivity|assumption]
    | apply manifests_write; [lia|assumption] ].

Ltac manifest_special :=
  idtac;
  lazymatch goal with
  | |- hoare _ (store_update _ _ _) _ _ =>
      hoare_post; apply store_update_manifests
  | |- hoare _ (mbind _ (if ?c then _ else _)) _ _ => destruct c
  | |- hoare ?P (mbind ?f (mret ?a)) ?Q ?J => change (hoare P (f a) Q J); cbv beta
  | |- @hoare ?B ?P (mbind ?f (raise ?e)) ?Q ?J =>
      change (@hoare B P (@raise B e) Q J)
  end.

Section ManifestRuns.

Variables (settings : Settings) (w : World) (id : string).
Variables (tr0 : list Event) (n : nat).

Abbreviation Inv := (manifests_list tr0 n).

Lemma concat_input_step_manifests dir index item :
  hoare Inv (concat_input_step settings w id dir index item) Inv Inv.
Proof. hoare_run manifest_side manifest_special. Qed.

Lemma concat_download_loop_paths dir items index acc :
  hoare_val Inv (concat_download_loop settings w id dir index items acc)
    (λ paths st,
       Inv st ∧ List.length paths = (List.length acc + List.length items)%nat)
    Inv.
Proof.
  revert index acc. induction items as [|item items IH]; intros index acc.
  - intros st H. simpl. split; [done|lia].
  - cbn [concat_download_loop].
    eapply hoare_val_bind_val;
      [apply hoare_val_any, concat_input_step_manifests|].
    intros path st H. specialize (IH (S index) (acc ++ [path]) st H).
    destruct (concat_download_loop _ _ _ _ _ _ _ st) as [[paths|e] st']; [|done].
    destruct IH as [IH Hlen]. split; [done|].
    rewrite length_app in Hlen. simpl in *. lia.
Qed.

Lemma concat_body_manifests request tmp dir :
  n = List.length (inputs request) →
  hoare Inv (concat_body settings w id request tmp dir) Inv Inv.
Proof.
  intros Hn. unfold concat_body.
  eapply hoare_val_bind; [apply concat_download_loop_paths|].
  intros paths. apply hoare_pure. simpl. intros Hlen.
  hoare_run manifest_side manifest_special.
Qed.

Lemma on_failure_manifests m1 m2 exc :
  hoare Inv (on_failure w id m1 m2 exc) Inv Inv.
Proof. hoare_run manifest_side manifest_special. Qed.

Lemma cleanup_manifests tmp : hoare Inv (_cleanup_temp_dir w tmp) Inv Inv.
Proof. hoare_run manifest_side manifest_special. Qed.

Lemma concat_video_manifests payload :
  n = List.length (inputs payload) →
  hoare Inv (concat_video settings w id payload) Inv Inv.
Proof.
  intros Hn. unfold concat_video. hoare_run manifest_side manifest_special.
  eapply hoare_finally;
    [eapply hoare_try;
      [by apply concat_body_manifests|intros exc; apply on_failure_manifests]
    |apply cleanup_manifests|apply cleanup_manifests].
Qed.

End ManifestRuns.

(** X25.  The download loop and the manifest writer fit together: in every
    world and from every state, a file that a run of [concat_video] writes
    is the manifest of a list of paths with one path per input of the
    request, in the format of [generate_concat_filelist]. *)
Theorem manifest_lists_every_input (settings : Settings) (w : World)
    (id : string) (payload : ConcatJobRequest) (st : PState) :
  ∀ p text,
    EvWrite p text ∈ trace (concat_video settings w id payload st).2 →
    EvWrite p text ∈ trace st
    ∨ ∃ paths, List.length paths = List.length (inputs payload)
               ∧ text = generate_concat_filelist paths.
Proof.
  assert (manifests_list (trace st) (List.length (inputs payload)) st) as H
    by (intros p text Hin; by left).
  apply (concat_video_manifests settings w id _ _ payload eq_refl st) in H.
  by destruct (concat_video settings w id payload st) as [[[]|e] st'].
Qed.

Lemma manifest_lists_every_input_witness :
  let st := queued_state "job-1" Concat (ConcatParams sample_request) in
  let out := concat_video sample_settings calm_world "job-1" sample_request st in
  let manifest :=
    EvWrite (parse "/tmp/mcp-video-processing/video-job-x1/inputs.txt")
      "file '/tmp/mcp-video-processing/video-job-x1/segments/media-1.mp4'
" in
  manifest ∈ trace out.2
  ∧ (manifest ∈ trace st
     ∨ ∃ paths, List.length paths = 1%nat
                ∧ "file '/tmp/mcp-video-processing/video-job-x1/segments/media-1.mp4'
" = generate_concat_filelist paths).
Proof.
  intros st out manifest.
  assert (manifest ∈ trace out.2) as H
    by (apply (list_elem_of_lookup_2 _ 7%nat); by vm_compute).
  split; [exact H|].
  exact (manifest_lists_every_input sample_settings calm_world "job-1"
           sample_request st _ _ H).
Defined.
(* ===================================================================== *)
(** * The probe summary                                                   *)
(* ===================================================================== *)

Section ProbeFacts.

Import Probe.

Variable float_of_str : string → Result Float.

Implicit Types (s v : Json) (streams : list Json) (kind : string).


Lemma get_field s key : is_object s = true → get s key JNull = Ok (field key s).
Proof. by destruct s. Qed.


Lemma streams_of_type_selected kind streams selected :
  streams_of_type kind streams = Ok selected →
  Forall (λ s, is_object s = true) selected.
Proof.
  revert selected. induction streams as [|s streams IH]; intros selected.
  - intros [= <-]. constructor.
  - cbn [streams_of_type].
    destruct (get s "codec_type" JNull) as [v|e] eqn:Eg; [|done].
    destruct (streams_of_type kind streams) as [rest|e]; [|done].
    intros [= <-]. specialize (IH rest eq_refl).
    destruct (is_str kind v); [|done]. constructor; [|done]. by destruct s.
Qed.


(** Every summary is the empty dictionary with up to three groups of
    entries: the duration, the fields of an object among the video
    streams, the fields of an object among the audio streams. *)
Lemma summarize_media_groups metadata summary :
  summarize_media float_of_str metadata = Ok summary →
  ∃ ms video audio,
    summary = with_audio audio (with_video video (with_duration ms ∅))
    ∧ (∀ v, video = Some v →
         ∃ selected, selected_streams "video" metadata = Ok (v :: selected))
    ∧ (video = None → selected_streams "video" metadata = Ok [])
    ∧ (∀ a, audio = Some a →
         ∃ selected, selected_streams "audio" metadata = Ok (a :: selected))
    ∧ (audio = None → selected_streams "audio" metadata = Ok []).
Proof.
  unfold summarize_media.
  destruct (get _ "duration" JNull) as [shown|e]; [|done].
  destruct (if truthy shown then _ else _) as [duration|e]; [|done].
  destruct (selected_streams "video" metadata) as [video_streams|e] eqn:Ev;
    [|done].
  destruct (selected_streams "audio" metadata) as [audio_streams|e] eqn:Ea;
    [|done].
  assert (Forall (λ s, is_object s = true) video_streams) as Hv.
  { unfold selected_streams in Ev. destruct (iterate _); [|done].
    by eapply streams_of_type_selected. }
  assert (Forall (λ s, is_object s = true) audio_streams) as Ha.
  { unfold selected_streams in Ea. destruct (iterate _); [|done].
    by eapply streams_of_type_selected. }
  intros H.
  exists (match duration with
          | Some x => match int_of_float (times_1000 x) with
                      | Ok ms => Some ms
                      | Raise _ => None
                      end
          | None => None
          end), (head video_streams), (head audio_streams).
  split.
  - destruct duration as [x|]; [destruct (int_of_float _); [|done]|];
      (destruct video_streams as [|video ?];
       [|apply Forall_cons_1 in Hv as [Hv _]; rewrite !get_field in H by done]);
      (destruct audio_streams as [|audio ?];
       [|apply Forall_cons_1 in Ha as [Ha _]; rewrite !get_field in H by done]);
      by injection H as <-.
  - destruct video_streams, audio_streams; simpl;
      repeat split; intros; simplify_eq; eauto.
Qed.

End ProbeFacts.

(** X23.  A summary that [summarize_media] returns has no other keys than
    [durationMs], [videoCodec], [width], [height], [audioCodec] and
    [audioChannels]; the three video keys are present together or not at
    all, and so are the two audio keys, whatever [ffprobe] has printed. *)
Theorem summarize_media_keys (float_of_str : string → Result Probe.Float)
    (metadata summary : gmap string Probe.Json) :
  Probe.summarize_media float_of_str metadata = Ok summary →
  dom summary ⊆ Probe.summary_keys
  ∧ (is_Some (summary !! "videoCodec") ↔ is_Some (summary !! "width"))
  ∧ (is_Some (summary !! "videoCodec") ↔ is_Some (summary !! "height"))
  ∧ (is_Some (summary !! "audioCodec") ↔ is_Some (summary !! "audioChannels")).
Proof.
  intros H.
  destruct (summarize_media_groups float_of_str metadata summary H)
    as (ms & video & audio & -> & _).
  destruct ms as [n|], video as [v|], audio as [a|];
    unfold Probe.with_audio, Probe.with_video, Probe.with_duration,
      Probe.summary_keys;
    (split; [rewrite ?dom_insert_L, dom_empty_L;
             apply (bool_decide_unpack _); by vm_compute|]);
    rewrite ?lookup_insert_eq, ?lookup_insert_ne, ?lookup_empty by done;
    rewrite ?lookup_insert_eq, ?lookup_insert_ne, ?lookup_empty by done;
    repeat split; intros [? ?]; by eauto.
Qed.

Lemma summarize_media_keys_witness :
  Probe.summarize_media Probe.sample_float_of_str Probe.sample_probe
  = Ok Probe.sample_summary
  ∧ dom Probe.sample_summary ⊆ Probe.summary_keys
  ∧ (is_Some (Probe.sample_summary !! "videoCodec")
     ↔ is_Some (Probe.sample_summary !! "width"))
  ∧ (is_Some (Probe.sample_summary !! "videoCodec")
     ↔ is_Some (Probe.sample_summary !! "height"))
  ∧ (is_Some (Probe.sample_summary !! "audioCodec")
     ↔ is_Some (Probe.sample_summary !! "audioChannels")).
Proof.
  assert (Probe.summarize_media Probe.sample_float_of_str Probe.sample_probe
          = Ok Probe.sample_summary) as H by (vm_compute; reflexivity).
  split; [exact H|].
  exact (summarize_media_keys Probe.sample_float_of_str Probe.sample_probe
           Probe.sample_summary H).
Defined.

Section FirstStreams.

Import Probe.



End FirstStreams.


